(** * Lotus: lexer, parser/resolver, type verifier and IR lowering

    A shallow embedding of the Go packages [lexer], [parser], [ir/llvm],
    [internal/source] and of [main], followed by the properties of the
    specification stated over it.

    Conventions of the embedding:
    - Go [int] and [int64] values are [Z]; the conversions that wrap
      ([uint64(x)], the 32-bit constant) are written out with [mod].
    - A Go [string] is a Rocq [string]; a rune read from ASCII text is an
      [ascii].
    - [map[string]*T] is a [gmap string T]; a missing key gives [None], which
      is the nil pointer of the Go code.
    - The nil [Expression] interface value is the constructor
      [NilExpression].
    - A run-time panic of the Go code is the outcome [Panic]; loops and
      recursive descent are bounded by a [fuel] argument, and running out of
      it is the outcome [OutOfFuel], never a result of the program.
    - The debugging output of the parser ([fmt.Println], [fmt.Printf]) is not
      part of the model. *)

From Stdlib Require Import ZArith String Ascii List Bool Lia.
From stdpp Require Import base option gmap strings list.

Import ListNotations.
Set Warnings "-register-all".
Local Open Scope Z_scope.
Local Open Scope string_scope.

(* ===================================================================== *)
(** * Package [lexer] *)
(* ===================================================================== *)

Module lexer.

(** [TokenType] of lexer.go. *)
Inductive TokenType : Set :=
| ILLEGAL | EOF | VAR | IDENT | INT | ASSIGN | PLUS | MINUS | STAR | SLASH
| MAIN | FN | CONTINUE | IF | BREAK | LBRACE | RBRACE | LPAREN | RPAREN
| FLOAT | SEMICOLON | NEXTLINE | RETURN | COMMA
(** Modelled from the spec: the parser names three further token kinds,
    [lexer.COLON], [lexer.RAWTYPE] (the raw-type marker of a type annotation)
    and [lexer.STRING] (a string literal); the lexer under src/ does not
    declare them yet and never produces them. *)
| COLON | RAWTYPE | STRING.

#[global] Instance TokenType_eq_dec : EqDecision TokenType.
Proof. solve_decision. Defined.

Definition TokenType_eqb (a b : TokenType) : bool := bool_decide (a = b).

(** [Token]: a lexical token with its position. *)
Record Token : Set := mkToken {
  tok_Type : TokenType;
  tok_Literal : string;
  tok_Line : Z;
  tok_Column : Z
}.

(** The zero value of [Token]: [ILLEGAL] is the first constant. *)
Definition zeroToken : Token := mkToken ILLEGAL "" 0 0.

(** [Keywords]. *)
Definition Keywords (s : string) : option TokenType :=
  if String.eqb s "var" then Some VAR
  else if String.eqb s "fn" then Some FN
  else if String.eqb s "continue" then Some CONTINUE
  else if String.eqb s "if" then Some IF
  else if String.eqb s "break" then Some BREAK
  else if String.eqb s "return" then Some RETURN
  else None.

(** [strings.ContainsRune]. *)
Definition ContainsRune (s : string) (ch : ascii) : bool :=
  existsb (Ascii.eqb ch) (list_ascii_of_string s).

Definition isLetter (ch : ascii) : bool :=
  ContainsRune "abcdefghijklmnopqrstuvwxyzABCDEFGHIJKLMNOPQRSTUVWXYZ" ch.

Definition isDigit (ch : ascii) : bool := ContainsRune "0123456789" ch.

(** Space, tab and carriage return. *)
Definition isWhitespace (ch : ascii) : bool :=
  existsb (Ascii.eqb ch) [" "%char; "009"%char; "013"%char].

(** [Lexer]: the buffered reader is the text still to read together with the
    rune that [UnreadRune] may give back (only the rune of an immediately
    preceding successful [ReadRune]). *)
Record Lexer : Set := mkLexer {
  r : list ascii;
  lastRune : option ascii;
  line : Z;
  column : Z
}.

Definition NewLexer (input : string) : Lexer :=
  mkLexer (list_ascii_of_string input) None 1 0.

(** [utf8.RuneSelf]: the bytes below it are runes of one byte. *)
Definition RuneSelf : N := 128.

(** The texts of the model: ASCII text, every byte of which is below
    [RuneSelf].  On such a text [ReadRune] returns the next byte as the rune
    and [string(ch)] is that byte, so the runes of the code are the
    characters of the text.  On any other text [ReadRune] takes a sequence of
    up to four bytes for one rune, and gives U+FFFD for a byte that begins no
    such sequence, while the reader below goes byte by byte: what is proved
    of the runes, the literals and the columns of the tokens is proved of
    ASCII texts. *)
Definition isASCII (text : string) : Prop :=
  forallb (fun ch => (N_of_ascii ch <? RuneSelf)%N)
          (list_ascii_of_string text) = true.

(** [read]: the next rune of an ASCII text, or 0 at the end of the input,
    where the column is left as it is. *)
Definition read (l : Lexer) : ascii * Lexer :=
  match r l with
  | [] => (Ascii.zero, mkLexer [] None (line l) (column l))
  | ch :: rest => (ch, mkLexer rest (Some ch) (line l) (column l + 1))
  end.

(** [unread]: the error of [UnreadRune] is dropped, the column is always
    decremented. *)
Definition unread (l : Lexer) : Lexer :=
  mkLexer (match lastRune l with Some ch => ch :: r l | None => r l end)
          None (line l) (column l - 1).

Definition peek (l : Lexer) : ascii * Lexer :=
  let '(ch, l1) := read l in (ch, unread l1).

(** The loop shared by [readIdent] and [readNumber]: read while the rune
    satisfies [accept], then unread the rune that stopped the loop. *)
Fixpoint readWhile (accept : ascii -> bool) (fuel : nat) (buf : string)
    (l : Lexer) : string * Lexer :=
  match fuel with
  | O => (buf, l)
  | S fuel =>
      let '(ch, l1) := read l in
      if accept ch then readWhile accept fuel (buf ++ String ch "") l1
      else (buf, unread l1)
  end.

Definition readIdent (l : Lexer) : Token * Lexer :=
  let '(ch, l1) := read l in
  let '(buf, l2) := readWhile isLetter (S (length (r l1))) (String ch "") l1 in
  (mkToken IDENT buf 0 0, l2).

Definition readNumber (l : Lexer) : Token * Lexer :=
  let '(ch, l1) := read l in
  let '(buf, l2) := readWhile isDigit (S (length (r l1))) (String ch "") l1 in
  let '(pk, l3) := peek l2 in
  if Ascii.eqb pk "."%char then
    let '(dot, l4) := read l3 in
    let '(buf', l5) :=
      readWhile isDigit (S (length (r l4))) (buf ++ String dot "") l4 in
    (mkToken FLOAT buf' 0 0, l5)
  else (mkToken INT buf 0 0, l3).

Definition len (s : string) : Z := Z.of_nat (String.length s).

(** One round of the loop of [NextToken]: [None] for skipped whitespace,
    otherwise the token that is yielded. *)
Definition scan (l0 : Lexer) : option Token * Lexer :=
  let '(ch, l) := read l0 in
  let punct (t : TokenType) :=
    (Some (mkToken t (String ch "") (line l) (column l - 1)), l) in
  if Ascii.eqb ch "010"%char then
    (Some (mkToken NEXTLINE (String ch "") (line l) (column l)),
     mkLexer (r l) (lastRune l) (line l + 1) 0)
  else if isWhitespace ch then (None, l)
  else if isLetter ch then
    let '(tok, l1) := readIdent (unread l) in
    let ty := match Keywords (tok_Literal tok) with
              | Some kw => kw
              | None => tok_Type tok
              end in
    (Some (mkToken ty (tok_Literal tok) (line l1)
                   (column l1 - len (tok_Literal tok))), l1)
  else if isDigit ch then
    let '(tok, l1) := readNumber (unread l) in
    (Some (mkToken (tok_Type tok) (tok_Literal tok) (line l1)
                   (column l1 - len (tok_Literal tok))), l1)
  else if Ascii.eqb ch "="%char then punct ASSIGN
  else if Ascii.eqb ch "+"%char then punct PLUS
  else if Ascii.eqb ch "-"%char then punct MINUS
  else if Ascii.eqb ch "*"%char then punct STAR
  else if Ascii.eqb ch "/"%char then punct SLASH
  else if Ascii.eqb ch "{"%char then punct LBRACE
  else if Ascii.eqb ch "}"%char then punct RBRACE
  else if Ascii.eqb ch "("%char then punct LPAREN
  else if Ascii.eqb ch ")"%char then punct RPAREN
  else if Ascii.eqb ch ";"%char then punct SEMICOLON
  else if Ascii.eqb ch ","%char then punct COMMA
  else if Ascii.eqb ch Ascii.zero then (Some (mkToken EOF "" 0 0), l)
  else (Some (mkToken ILLEGAL (String ch "") 0 0), l).

(** The tokens the generator yields when it is drained: it stops after the
    [EOF] token. *)
Fixpoint tokensFrom (fuel : nat) (l : Lexer) : list Token :=
  match fuel with
  | O => []
  | S fuel =>
      match scan l with
      | (None, l1) => tokensFrom fuel l1
      | (Some tok, l1) =>
          if TokenType_eqb (tok_Type tok) EOF then [tok]
          else tok :: tokensFrom fuel l1
      end
  end.

(** [NextToken]: every round reads at least one rune or ends the sequence, so
    one round per rune and one for the end of the input are enough. *)
Definition NextToken (l : Lexer) : list Token :=
  tokensFrom (S (length (r l))) l.

End lexer.


(* ===================================================================== *)
(** * The library functions the program calls *)
(* ===================================================================== *)

(** [strconv.ParseInt(s, 10, 64)] of the Go standard library, with the value
    it returns next to each error. *)
Module strconv.
Import lexer.

Inductive NumError : Set := ErrSyntax | ErrRange.

Definition maxUint64 : Z := 2 ^ 64 - 1.
Definition maxInt64 : Z := 2 ^ 63 - 1.

Definition digitOf (c : ascii) : Z := Z.of_nat (nat_of_ascii c) - 48.

(** The digit loop of [ParseUint] in base 10: [n] is the value so far. *)
Fixpoint parseUintLoop (cs : list ascii) (n : Z) : Z * option NumError :=
  match cs with
  | [] => (n, None)
  | c :: rest =>
      if isDigit c then
        if n >=? maxUint64 / 10 + 1 then (maxUint64, Some ErrRange)
        else
          let n1 := n * 10 + digitOf c in
          if n1 >? maxUint64 then (maxUint64, Some ErrRange)
          else parseUintLoop rest n1
      else (0, Some ErrSyntax)
  end.

Definition ParseUint (s : string) : Z * option NumError :=
  match list_ascii_of_string s with
  | [] => (0, Some ErrSyntax)
  | cs => parseUintLoop cs 0
  end.

Definition ParseInt (s : string) : Z * option NumError :=
  match s with
  | EmptyString => (0, Some ErrSyntax)
  | String.String c rest =>
      let neg := Ascii.eqb c "-"%char in
      let digits :=
        if Ascii.eqb c "+"%char || Ascii.eqb c "-"%char then rest else s in
      match ParseUint digits with
      | (_, Some ErrSyntax) => (0, Some ErrSyntax)
      | (un, _) =>
          if negb neg && (un >=? 2 ^ 63) then (maxInt64, Some ErrRange)
          else if neg && (un >? 2 ^ 63) then (- 2 ^ 63, Some ErrRange)
          else (if neg then - un else un, None)
      end
  end.

(** The number a string of decimal digits denotes. *)
Definition decimal (s : string) : Z :=
  fold_left (fun n c => n * 10 + digitOf c) (list_ascii_of_string s) 0.

(** A string of decimal digits, as the lexer gives an [INT] token. *)
Definition digits (s : string) : Prop :=
  s <> "" /\ Forall (fun c => isDigit c = true) (list_ascii_of_string s).

End strconv.

(* ===================================================================== *)
(** * Package [parser] *)
(* ===================================================================== *)

Module parser.
Import lexer.

(** ** Types and their verification rules *)

(** [Type]: the closed enumeration of the language's types. *)
Inductive Type_ : Set := Void | Int32 | String | Float32.

#[global] Instance Type_eq_dec : EqDecision Type_.
Proof. solve_decision. Defined.

(** ** The syntax tree *)

(** [Expression].  [FloatLiteral] keeps the text of the literal: its
    [float64] value is [strconv.ParseFloat] of that text and no property
    below looks into it. *)
Inductive Expression : Set :=
| NilExpression
| FnCall (FnName : string) (Params : list Expression)
| UnboundedIdentifier (Value : string)
| Identifier (Value : string) (Type_of : Type_)
| StringLiteral (Value : string)
| IntegerLiteral (Value : Z)
| FloatLiteral (Value : string)
| InfixExpression (Left : Expression) (Operator : string) (Right : Expression)
| PrefixExpression (Operator : string) (Right : Expression).

Record VarStatement : Set := mkVarStatement {
  var_Name : string;
  var_Value : Expression;
  var_Type : Type_
}.

Record ReassignVarStatement : Set := mkReassignVarStatement {
  reassign_VarName : string;
  reassign_Type : Type_;
  reassign_Value : Expression
}.

Record Argument : Set := mkArgument {
  arg_Name : string;
  arg_Type : Type_
}.

Record ReturnStatement : Set := mkReturnStatement {
  ret_Type : Type_;
  ret_Value : Expression
}.

(** [FnStatement], over the type of the nodes of its body. *)
Record FnStatementOf (N : Set) : Set := mkFnStatement {
  Name : string;
  Args : list Argument;
  Body : list N;
  ReturnType : Type_;
  Defined : bool;
  ExpressionsToEvaluate : list Expression
}.
Arguments mkFnStatement {N}.
Arguments Name {N}.
Arguments Args {N}.
Arguments Body {N}.
Arguments ReturnType {N}.
Arguments Defined {N}.
Arguments ExpressionsToEvaluate {N}.

(** [Node]: what a statement list holds.  A call used as a statement is the
    [FnCall] expression itself. *)
Inductive Node : Set :=
| VarStatementNode (s : VarStatement)
| ReassignVarStatementNode (s : ReassignVarStatement)
| FnStatementNode (s : FnStatementOf Node)
| ReturnStatementNode (s : ReturnStatement)
| ExpressionNode (e : Expression).

Abbreviation FnStatement := (FnStatementOf Node).

Record Program : Set := mkProgram { Statements : list Node }.

(** ** Errors *)

(** The [error] values of the package: the sentinel
    [ErrWrongTypeAssigment], [errors.New] and [fmt.Errorf] with their
    message (one constructor per format string, its arguments kept as they
    are), and [*ErrParser], a positioned error around another one. *)
Inductive error : Set :=
| ErrWrongTypeAssigment
| errorsNew (msg : string)
| errUnexpectedToken (literal : string)
| errAfterExpectedEnd (literal : string)
| errExpected (expected got : TokenType)
| errExpectedReturnType (t : Type_)
| errVerifying (err : error)
| ErrParser (Line Column : Z) (Err : error).

(** [strings.ContainsAny]: some rune of [s] is one of [chars]. *)
Definition ContainsAny (s chars : string) : bool :=
  existsb (ContainsRune chars) (list_ascii_of_string s).

(** [verifyInt32]; [None] is the nil error. *)
Fixpoint verifyInt32 (st : Expression) : option error :=
  match st with
  | Identifier _ t =>
      if decide (t = Int32) then None else Some ErrWrongTypeAssigment
  | IntegerLiteral _ => None
  | InfixExpression lhs operator rhs =>
      match verifyInt32 lhs with
      | Some err => Some err
      | None =>
          if negb (ContainsAny operator "+-*/") then
            Some (errorsNew "int32 allowed infix operators: + - * /")
          else
            match verifyInt32 rhs with
            | Some err => Some err
            | None => None
            end
      end
  | PrefixExpression operator rhs =>
      if String.eqb operator "~" || String.eqb operator "++"
         || String.eqb operator "--" then
        Some (errorsNew "int32 allowed prefix operators: ~ ++ --")
      else
        match verifyInt32 rhs with
        | Some err => Some err
        | None => None
        end
  | _ => Some ErrWrongTypeAssigment
  end.

(** [verifyString]. *)
Fixpoint verifyString (st : Expression) : option error :=
  match st with
  | Identifier _ t =>
      if decide (t = String) then None else Some ErrWrongTypeAssigment
  | StringLiteral _ => None
  | InfixExpression lhs operator rhs =>
      match verifyString lhs with
      | Some err => Some err
      | None =>
          if negb (String.eqb operator "+") then
            Some (errorsNew
                    "string allowed infix operators: + (concatenation)")
          else
            match verifyString rhs with
            | Some err => Some err
            | None => None
            end
      end
  | _ => Some ErrWrongTypeAssigment
  end.

(** [Type.Verify]. *)
Definition Verify (t : Type_) (st : Expression) : option error :=
  match t with
  | Int32 => verifyInt32 st
  | String => verifyString st
  | Void => None
  | _ => Some ErrWrongTypeAssigment
  end.

(** ** The parser state *)

(** [Parser]: [tokens] is what the pulled token sequence has still to
    yield. *)
Record Parser : Type := mkParser {
  tokens : list Token;
  curToken : Token;
  peekToken : Token;
  vars : gmap string VarStatement;
  fns : gmap string FnStatement
}.

Definition setTokens (p : Parser) (ts : list Token) (cur pk : Token) : Parser :=
  mkParser ts cur pk (vars p) (fns p).

Definition setVar (p : Parser) (name : string) (stmt : VarStatement) : Parser :=
  mkParser (tokens p) (curToken p) (peekToken p) (<[name := stmt]> (vars p))
           (fns p).

Definition setFn (p : Parser) (name : string) (stmt : FnStatement) : Parser :=
  mkParser (tokens p) (curToken p) (peekToken p) (vars p)
           (<[name := stmt]> (fns p)).

(** [nextToken]: once the current token is [EOF] nothing is pulled any more;
    an exhausted sequence gives an [EOF] token. *)
Definition nextToken (p : Parser) : Parser :=
  let cur := peekToken p in
  if TokenType_eqb (tok_Type cur) EOF then setTokens p (tokens p) cur (peekToken p)
  else
    match tokens p with
    | tok :: rest => setTokens p rest cur tok
    | [] => setTokens p [] cur (mkToken EOF "" 0 0)
    end.

(** [NewParser] reads two tokens, so that both [curToken] and [peekToken]
    are set. *)
Definition NewParser (toks : list Token) : Parser :=
  nextToken (nextToken (mkParser toks zeroToken zeroToken ∅ ∅)).

(** The outcome of a parsing function: its value, or its error, each with
    the parser state that is left; a panic; or the bound of the model. *)
Inductive Result (A : Type) : Type :=
| Ok (a : A) (p : Parser)
| Fail (err : error) (p : Parser)
| Panic (msg : string)
| OutOfFuel.
Arguments Ok {A}.
Arguments Fail {A}.
Arguments Panic {A}.
Arguments OutOfFuel {A}.

Definition bind {A B : Type} (c : Result A) (k : A -> Parser -> Result B)
    : Result B :=
  match c with
  | Ok a p => k a p
  | Fail err p => Fail err p
  | Panic msg => Panic msg
  | OutOfFuel => OutOfFuel
  end.

Notation "'perform' ( x , p ) <- c ; k" :=
  (bind c (fun x p => k))
  (at level 10, x name, p name, c at level 100, k at level 200).

(** The position of the current token, as every [&ErrParser{...}] takes
    it. *)
Definition errAt (p : Parser) (err : error) : error :=
  ErrParser (tok_Line (curToken p)) (tok_Column (curToken p)) err.

(** The position just after the current token. *)
Definition errAfter (p : Parser) (err : error) : error :=
  ErrParser (tok_Line (curToken p))
            (tok_Column (curToken p) + len (tok_Literal (curToken p))) err.

Definition consumeOrFail (expected : TokenType) (p : Parser) : Result unit :=
  let p := nextToken p in
  if negb (TokenType_eqb (tok_Type (curToken p)) expected) then
    Fail (errAt p (errExpected expected (tok_Type (curToken p)))) p
  else Ok tt p.

Definition LOWEST : Z := 1.
Definition SUM : Z := 2.
Definition PRODUCT : Z := 3.
Definition PREFIX : Z := 4.
Definition CALL : Z := 5.

Definition precedences (t : TokenType) : option Z :=
  match t with
  | PLUS => Some SUM
  | MINUS => Some SUM
  | SLASH => Some PRODUCT
  | STAR => Some PRODUCT
  | LPAREN => Some CALL
  | _ => None
  end.

Definition curPrecedence (p : Parser) : Z :=
  match precedences (tok_Type (curToken p)) with
  | Some prec => prec
  | None => LOWEST
  end.

Definition peekPrecedence (p : Parser) : Z :=
  match precedences (tok_Type (peekToken p)) with
  | Some prec => prec
  | None => LOWEST
  end.

Definition peekTokenIs (t : TokenType) (p : Parser) : bool :=
  TokenType_eqb (tok_Type (peekToken p)) t.

Definition endOfStatement (t : TokenType) : bool :=
  TokenType_eqb t SEMICOLON || TokenType_eqb t NEXTLINE || TokenType_eqb t EOF.

(** [getTypeFromLiteral]; [None] is its panic. *)
Definition getTypeFromLiteral (literal : string) : option Type_ :=
  if String.eqb literal "int32" then Some Int32
  else if String.eqb literal "string" then Some String
  else None.

(** [parseIntegerLiteral]: the error of [strconv.ParseInt] is dropped. *)
Definition parseIntegerLiteral (p : Parser) : Expression :=
  IntegerLiteral (fst (strconv.ParseInt (tok_Literal (curToken p)))).

Definition parseFloatLiteral (p : Parser) : Expression :=
  FloatLiteral (tok_Literal (curToken p)).

(** ** Expressions *)

(** [make([]Expression, n)]. *)
Definition makeExpressions (n : nat) : list Expression :=
  replicate n NilExpression.

(** [parseExpression] and the functions it is mutually recursive with.
    [parseExpressionLoop] is the operator loop of [parseExpression] with the
    [Verify] call that follows it; [parseKnownParams] and
    [parseUnknownParams] are the two argument loops of
    [parseFnCallExpression]. *)
Fixpoint parseExpression (fuel : nat) (precedence : Z) (tt : Type_)
    (p : Parser) {struct fuel} : Result Expression :=
  match fuel with
  | O => OutOfFuel
  | S fuel =>
      match tok_Type (curToken p) with
      | INT => parseExpressionLoop fuel precedence tt (parseIntegerLiteral p) p
      | STRING =>
          parseExpressionLoop fuel precedence tt
            (StringLiteral (tok_Literal (curToken p))) p
      | FLOAT => parseExpressionLoop fuel precedence tt (parseFloatLiteral p) p
      | IDENT =>
          match vars p !! tok_Literal (curToken p) with
          | Some varStmt =>
              parseExpressionLoop fuel precedence tt
                (Identifier (var_Name varStmt) (var_Type varStmt)) p
          | None =>
              (* [varStmt] is nil and [varStmt.Name] is read *)
              Panic "invalid memory address or nil pointer dereference"
          end
      | LPAREN =>
          perform (expression, p) <- parseGroupedExpression fuel tt p;
          parseExpressionLoop fuel precedence tt expression p
      | _ => Ok NilExpression p
      end
  end

with parseExpressionLoop (fuel : nat) (precedence : Z) (tt : Type_)
    (leftExp : Expression) (p : Parser) {struct fuel} : Result Expression :=
  match fuel with
  | O => OutOfFuel
  | S fuel =>
      if negb (peekTokenIs SEMICOLON p) && (precedence <? peekPrecedence p)%Z
      then
        match tok_Type (peekToken p) with
        | PLUS | MINUS | SLASH | STAR =>
            perform (exp, p) <- parseInfixExpression fuel leftExp tt (nextToken p);
            parseExpressionLoop fuel precedence tt exp p
        | LPAREN =>
            perform (exp, p) <- parseFnCallExpression fuel leftExp tt (nextToken p);
            parseExpressionLoop fuel precedence tt exp p
        | _ => Ok leftExp p
        end
      else
        match Verify tt leftExp with
        | Some err => Fail (errAt p (errVerifying err)) p
        | None => Ok leftExp p
        end
  end

with parseGroupedExpression (fuel : nat) (tt : Type_) (p : Parser)
    {struct fuel} : Result Expression :=
  match fuel with
  | O => OutOfFuel
  | S fuel =>
      perform (exp, p) <- parseExpression fuel LOWEST tt (nextToken p);
      perform (_u, p) <- consumeOrFail RPAREN p;
      Ok exp p
  end

with parseInfixExpression (fuel : nat) (left_ : Expression) (tt : Type_)
    (p : Parser) {struct fuel} : Result Expression :=
  match fuel with
  | O => OutOfFuel
  | S fuel =>
      let operator := tok_Literal (curToken p) in
      let precedence := curPrecedence p in
      perform (exp, p) <- parseExpression fuel precedence tt (nextToken p);
      Ok (InfixExpression left_ operator exp) p
  end

with parseFnCallExpression (fuel : nat) (left_ : Expression) (tt : Type_)
    (p : Parser) {struct fuel} : Result Expression :=
  match fuel with
  | O => OutOfFuel
  | S fuel =>
      match left_ with
      | UnboundedIdentifier fnName =>
          match fns p !! fnName with
          | Some fnStmt =>
              if TokenType_eqb (tok_Type (curToken p)) RPAREN then
                Ok (FnCall fnName []) (nextToken p)
              else
                parseKnownParams fuel fnName (Args fnStmt) 0
                  (makeExpressions (length (Args fnStmt))) p
          | None =>
              let fnStmt := mkFnStatement fnName [] [] tt false [] in
              if TokenType_eqb (tok_Type (curToken p)) RPAREN then
                let p := nextToken p in
                Ok (FnCall fnName []) (setFn p fnName fnStmt)
              else
                perform (params, p) <- parseUnknownParams fuel [] p;
                let fnStmt := mkFnStatement fnName [] [] tt false params in
                Ok (FnCall fnName params) (setFn p fnName fnStmt)
          end
      | _ => Fail (errAt p (errorsNew "expected function identifier")) p
      end
  end

with parseKnownParams (fuel : nat) (fnName : string) (args : list Argument)
    (idx : nat) (params : list Expression) (p : Parser) {struct fuel}
    : Result Expression :=
  match fuel with
  | O => OutOfFuel
  | S fuel =>
      match args with
      | [] => Fail (errAt p (errorsNew "function call unexpected end")) p
      | a :: args =>
          match parseExpression fuel LOWEST (arg_Type a) p with
          | Fail _ p => Fail (errAt p (errorsNew "wrong paramater type")) p
          | Panic msg => Panic msg
          | OutOfFuel => OutOfFuel
          | Ok arg p =>
              let params := <[idx := arg]> params in
              if peekTokenIs RPAREN p then Ok (FnCall fnName params) (nextToken p)
              else
                perform (_u, p) <- consumeOrFail COMMA p;
                parseKnownParams fuel fnName args (S idx) params p
          end
      end
  end

with parseUnknownParams (fuel : nat) (params : list Expression) (p : Parser)
    {struct fuel} : Result (list Expression) :=
  match fuel with
  | O => OutOfFuel
  | S fuel =>
      match parseExpression fuel LOWEST Void p with
      | Fail _ p => Fail (errAt p (errorsNew "wrong paramater type")) p
      | Panic msg => Panic msg
      | OutOfFuel => OutOfFuel
      | Ok arg p =>
          let params := (params ++ [arg])%list in
          if peekTokenIs RPAREN p then Ok params (nextToken p)
          else
            perform (_u, p) <- consumeOrFail COMMA p;
            parseUnknownParams fuel params p
      end
  end.

(** ** Statements *)

Definition parseVarStatement (fuel : nat) (p : Parser) : Result VarStatement :=
  perform (_u, p) <- consumeOrFail IDENT p;
  let name := tok_Literal (curToken p) in
  perform (type, p) <-
    (if TokenType_eqb (tok_Type (peekToken p)) COLON then
       perform (_u, p) <- consumeOrFail RAWTYPE (nextToken p);
       match getTypeFromLiteral (tok_Literal (curToken p)) with
       | Some t => Ok t p
       | None => Panic "unreacheable"
       end
     else Ok Void p);
  perform (_u, p) <- consumeOrFail ASSIGN p;
  perform (expression, p) <- parseExpression fuel LOWEST type (nextToken p);
  let stmt := mkVarStatement name expression type in
  if negb (endOfStatement (tok_Type (peekToken p))) then
    Fail (errAfter p (errAfterExpectedEnd (tok_Literal (curToken p)))) p
  else Ok stmt (nextToken (setVar p name stmt)).

Definition parseReasignStatement (fuel : nat) (old : VarStatement)
    (p : Parser) : Result ReassignVarStatement :=
  perform (_u, p) <- consumeOrFail ASSIGN p;
  match parseExpression fuel LOWEST (var_Type old) (nextToken p) with
  | Fail err p => Fail (errAfter p err) p
  | Panic msg => Panic msg
  | OutOfFuel => OutOfFuel
  | Ok newExp p =>
      let reasign :=
        mkReassignVarStatement (var_Name old) (var_Type old) newExp in
      if negb (endOfStatement (tok_Type (peekToken p))) then
        Fail (errAfter p (errAfterExpectedEnd (tok_Literal (curToken p)))) p
      else Ok reasign (nextToken p)
  end.

Definition parseReturnStatement (fuel : nat) (tt : Type_) (p : Parser)
    : Result ReturnStatement :=
  perform (expression, p) <- parseExpression fuel LOWEST tt (nextToken p);
  let stmt := mkReturnStatement tt expression in
  if negb (endOfStatement (tok_Type (peekToken p))) then
    Fail (errAfter p (errAfterExpectedEnd (tok_Literal (curToken p)))) p
  else Ok stmt (nextToken p).

(** The argument loop of [parseFnStatement]. *)
Fixpoint parseFnArgs (fuel : nat) (args : list Argument) (p : Parser)
    : Result (list Argument) :=
  match fuel with
  | O => OutOfFuel
  | S fuel =>
      if peekTokenIs RPAREN p then Ok args (nextToken p)
      else
        perform (_u, p) <- consumeOrFail IDENT p;
        let name := tok_Literal (curToken p) in
        perform (_u, p) <- consumeOrFail COLON p;
        perform (_u, p) <- consumeOrFail RAWTYPE p;
        match getTypeFromLiteral (tok_Literal (curToken p)) with
        | None => Panic "unreacheable"
        | Some t =>
            let args := (args ++ [mkArgument name t])%list in
            if TokenType_eqb (tok_Type (peekToken p)) RPAREN then
              Ok args (nextToken p)
            else
              perform (_u, p) <- consumeOrFail COMMA p;
              parseFnArgs fuel args p
        end
  end.

(** The loop that verifies the expressions of an earlier call against the
    declared argument types; it runs only on lists of equal length. *)
Fixpoint verifyCaptured (p : Parser) (args : list Argument)
    (exprs : list Expression) : option error :=
  match args, exprs with
  | a :: args, e :: exprs =>
      match Verify (arg_Type a) e with
      | Some err => Some (errAt p err)
      | None => verifyCaptured p args exprs
      end
  | _, _ => None
  end.

(** The reconciliation of a declaration with the record an earlier call
    left in the function table. *)
Definition reconcile (p : Parser) (name : string) (args : list Argument)
    : option error :=
  match fns p !! name with
  | Some fnStmt =>
      if negb (Defined fnStmt) then
        if negb (length (ExpressionsToEvaluate fnStmt) =? length args)%nat
        then
          Some (errAt p (errorsNew
            "number of provided params do not match number of defined arguments"))
        else verifyCaptured p args (ExpressionsToEvaluate fnStmt)
      else None
  | None => None
  end.

(** The beginning of [parseFnStatement]: the name with the "already
    defined" check, and the arguments. *)
Definition parseFnSignature (fuel : nat) (p : Parser)
    : Result (string * list Argument) :=
  perform (_u, p) <- consumeOrFail IDENT p;
  let name := tok_Literal (curToken p) in
  if match fns p !! name with
     | Some fnStmt => Defined fnStmt
     | None => false
     end
  then Fail (errAt p (errorsNew "function already defined")) p
  else
    perform (_u, p) <- consumeOrFail LPAREN p;
    perform (args, p) <- parseFnArgs fuel [] p;
    Ok (name, args) p.

(** [parseFnStatement] up to the opening brace of the body: the signature,
    the reconciliation, the return type.  It gives the statement so far and
    [mustHaveReturn]. *)
Definition parseFnHead (fuel : nat) (p : Parser)
    : Result (FnStatement * bool) :=
  perform (sig, p) <- parseFnSignature fuel p;
  match reconcile p (fst sig) (snd sig) with
  | Some err => Fail err p
  | None =>
      perform (ret, p) <-
        (if TokenType_eqb (tok_Type (peekToken p)) COLON then
           perform (_u, p) <- consumeOrFail RAWTYPE (nextToken p);
           match getTypeFromLiteral (tok_Literal (curToken p)) with
           | Some t => Ok (t, true) p
           | None => Panic "unreacheable"
           end
         else Ok (Void, false) p);
      perform (_u, p) <- consumeOrFail LBRACE p;
      Ok (mkFnStatement (fst sig) (snd sig) [] (fst ret) false [], snd ret) p
  end.

(** The check that closes [parseFnStatement]. *)
Definition checkReturn (p : Parser) (mustHaveReturn : bool)
    (stmt : FnStatement) : option error :=
  if mustHaveReturn then
    match last (Body stmt) with
    | None => Some (errAt p (errorsNew "function must have a return"))
    | Some (ReturnStatementNode inner) =>
        if decide (ret_Type inner = ReturnType stmt) then None
        else Some (errAt p (errExpectedReturnType (ReturnType stmt)))
    | Some _ => Some (errAt p (errorsNew "function must have a return"))
    end
  else None.

Definition withBody (stmt : FnStatement) (body : list Node) : FnStatement :=
  mkFnStatement (Name stmt) (Args stmt) body (ReturnType stmt) (Defined stmt)
                (ExpressionsToEvaluate stmt).

(** [parseStatement], [parseFnStatement] and the body loop of the
    latter. *)
Fixpoint parseStatement (fuel : nat) (tt : Type_) (p : Parser) {struct fuel}
    : Result Node :=
  match fuel with
  | O => OutOfFuel
  | S fuel =>
      match tok_Type (curToken p) with
      | VAR =>
          perform (stmt, p) <- parseVarStatement fuel p;
          Ok (VarStatementNode stmt) p
      | FN =>
          perform (stmt, p) <- parseFnStatement fuel p;
          Ok (FnStatementNode stmt) p
      | RETURN =>
          perform (stmt, p) <- parseReturnStatement fuel tt p;
          Ok (ReturnStatementNode stmt) p
      | IDENT =>
          match vars p !! tok_Literal (curToken p) with
          | Some varStmt =>
              perform (stmt, p) <- parseReasignStatement fuel varStmt p;
              Ok (ReassignVarStatementNode stmt) p
          | None =>
              let ident := UnboundedIdentifier (tok_Literal (curToken p)) in
              perform (_u, p) <- consumeOrFail LPAREN p;
              perform (expr, p) <-
                parseFnCallExpression fuel ident Void (nextToken p);
              let p := nextToken p in
              if negb (endOfStatement (tok_Type (curToken p))) then
                Fail (errAfter p
                        (errAfterExpectedEnd (tok_Literal (curToken p)))) p
              else Ok (ExpressionNode expr) p
          end
      | _ => Fail (errAt p (errUnexpectedToken (tok_Literal (curToken p)))) p
      end
  end

with parseFnStatement (fuel : nat) (p : Parser) {struct fuel}
    : Result FnStatement :=
  match fuel with
  | O => OutOfFuel
  | S fuel =>
      perform (head, p) <- parseFnHead fuel p;
      perform (body, p) <-
        parseFnBody fuel (ReturnType (fst head)) [] (nextToken p);
      let stmt := withBody (fst head) body in
      match checkReturn p (snd head) stmt with
      | Some err => Fail err p
      | None => Ok stmt (setFn p (Name stmt) stmt)
      end
  end

with parseFnBody (fuel : nat) (tt : Type_) (body : list Node) (p : Parser)
    {struct fuel} : Result (list Node) :=
  match fuel with
  | O => OutOfFuel
  | S fuel =>
      if TokenType_eqb (tok_Type (curToken p)) RBRACE then Ok body p
      else if TokenType_eqb (tok_Type (curToken p)) NEXTLINE then
        parseFnBody fuel tt body (nextToken p)
      else
        perform (innerStmt, p) <- parseStatement fuel tt p;
        parseFnBody fuel tt (body ++ [innerStmt])%list (nextToken p)
  end.

(** The loop of [ParseProgram]. *)
Fixpoint parseProgramLoop (fuel : nat) (stmts : list Node) (p : Parser)
    : Result Program :=
  match fuel with
  | O => OutOfFuel
  | S fuel =>
      if TokenType_eqb (tok_Type (curToken p)) EOF then
        Ok (mkProgram stmts) p
      else if TokenType_eqb (tok_Type (curToken p)) NEXTLINE then
        parseProgramLoop fuel stmts (nextToken p)
      else
        perform (stmt, p) <- parseStatement fuel Void p;
        parseProgramLoop fuel (stmts ++ [stmt])%list (nextToken p)
  end.

Definition ParseProgram (fuel : nat) (p : Parser) : Result Program :=
  parseProgramLoop fuel [] p.

(** What the caller of [ParseProgram] gets: the program, the error, or the
    panic, without the parser. *)
Inductive Outcome : Set :=
| Parsed (program : Program)
| Rejected (err : error)
| Crashed (msg : string)
| Unfinished.

Definition outcome (res : Result Program) : Outcome :=
  match res with
  | Ok program _ => Parsed program
  | Fail err _ => Rejected err
  | Panic msg => Crashed msg
  | OutOfFuel => Unfinished
  end.

(** The token of an additive, respectively multiplicative, operator. *)
Definition additive (t : TokenType) : Prop := t = PLUS \/ t = MINUS.
Definition multiplicative (t : TokenType) : Prop := t = STAR \/ t = SLASH.

(** The token kinds that have a case in the first switch of
    [parseExpression]. *)
Definition beginsExpression (t : TokenType) : bool :=
  match t with
  | INT | STRING | FLOAT | IDENT | LPAREN => true
  | _ => false
  end.

(** The tokens of the optional type annotation of a [var] declaration, with
    the type the declaration gets. *)
Definition annotation (ty : Type_) (toks : list Token) : Prop :=
  (ty = Void /\ toks = []) \/
  (exists colon raw, toks = [colon; raw] /\ tok_Type colon = COLON /\
     tok_Type raw = RAWTYPE /\
     getTypeFromLiteral (tok_Literal raw) = Some ty).

(** A statement list whose last element is a [ReturnStatement] of type
    [tt]. *)
Definition endsWithReturn (tt : Type_) (body : list Node) : Prop :=
  exists init value,
    body = (init ++ [ReturnStatementNode (mkReturnStatement tt value)])%list.

(** The expressions of an earlier call agree with the declared arguments:
    as many, and each verified by the type of its argument. *)
Definition reconciled (args : list Argument) (exprs : list Expression)
    : Prop :=
  length exprs = length args /\
  Forall2 (fun a e => Verify (arg_Type a) e = None) args exprs.

(** The value a parsing function returns with a nil error. *)
Definition returned {A : Type} (res : Result A) : option A :=
  match res with
  | Ok a _ => Some a
  | _ => None
  end.

(** Lexing and parsing a source text, as [main] and the tests do. *)
Definition parseSource (fuel : nat) (input : string) : Outcome :=
  outcome (ParseProgram fuel (NewParser (NextToken (NewLexer input)))).

(** ** Vocabulary of the properties of the parser *)

(** [p'] has the variable table of [p] and every function record of [p]. *)
Definition keeps (p p' : Parser) : Prop :=
  vars p' = vars p /\
  forall name fnStmt, fns p !! name = Some fnStmt -> fns p' !! name = Some fnStmt.

(** A value that was parsed in the type context [tt]: nil, or accepted by
    [Verify]. *)
Definition soundValue (tt : Type_) (e : Expression) : Prop :=
  e = NilExpression \/ Verify tt e = None.

(** The types a source text can name. *)
Definition declarable (t : Type_) : Prop := t = Int32 \/ t = String.

(** A statement whose values are sound for their types, whose declared
    types are the ones a source text can name, and whose returns carry the
    type context [tt] they were parsed in. *)
Fixpoint sound (tt : Type_) (node : Node) : Prop :=
  match node with
  | VarStatementNode s =>
      var_Type s <> Float32 /\ soundValue (var_Type s) (var_Value s)
  | ReassignVarStatementNode s =>
      soundValue (reassign_Type s) (reassign_Value s)
  | ReturnStatementNode s => ret_Type s = tt /\ soundValue tt (ret_Value s)
  | ExpressionNode e => exists fnName params, e = FnCall fnName params
  | FnStatementNode (mkFnStatement _ args body rt defined _) =>
      rt <> Float32 /\ Forall (fun a => declarable (arg_Type a)) args /\
      defined = false /\
      (fix all (l : list Node) : Prop :=
         match l with
         | [] => True
         | n :: l => sound rt n /\ all l
         end) body
  end.

(** An expression with no call and no unbound identifier in it. *)
Fixpoint callFree (e : Expression) : Prop :=
  match e with
  | FnCall _ _ | UnboundedIdentifier _ => False
  | InfixExpression lhs _ rhs => callFree lhs /\ callFree rhs
  | PrefixExpression _ rhs => callFree rhs
  | _ => True
  end.

(** The current token is [EOF] only with the same token as next one. *)
Definition closed (p : Parser) : Prop :=
  tok_Type (curToken p) = EOF -> peekToken p = curToken p.

(** ** The measure of the parser's progress *)

(** A token that is not [EOF] is still to be read. *)
Definition pending (t : Token) : nat :=
  if TokenType_eqb (tok_Type t) EOF then 0%nat else 1%nat.

(** What is left to read: the tokens not yet taken from the lexer and the
    two the parser holds.  [nextToken] never raises it, and lowers it unless
    both tokens the parser holds are [EOF]. *)
Definition weight (p : Parser) : nat :=
  2 * (length (tokens p) + pending (peekToken p)) + pending (curToken p).

(** ** The spelling of the operator tokens *)

(** An operator token holds the character of its kind. *)
Definition spelled (tok : Token) : Prop :=
  match tok_Type tok with
  | PLUS => tok_Literal tok = "+"
  | MINUS => tok_Literal tok = "-"
  | STAR => tok_Literal tok = "*"
  | SLASH => tok_Literal tok = "/"
  | _ => True
  end.

(** All the tokens of the parser, the two it holds and the ones to come,
    are spelled. *)
Definition wellSpelled (p : Parser) : Prop :=
  spelled (curToken p) /\ spelled (peekToken p) /\ Forall spelled (tokens p).

(** ** The scope of the variables *)

(** The names a statement declares, with those of the statements inside a
    function. *)
Fixpoint declares (node : Node) : list string :=
  match node with
  | VarStatementNode stmt => [var_Name stmt]
  | FnStatementNode (mkFnStatement _ _ body _ _ _) => flat_map declares body
  | _ => []
  end.

(** [name] is in the variable table. *)
Definition bound (name : string) (p : Parser) : Prop :=
  is_Some (vars p !! name).

(** ** The errors that are reported *)

(** The error is, or wraps, the return-type error of [parseFnStatement]. *)
Fixpoint isReturnTypeError (err : error) : bool :=
  match err with
  | errExpectedReturnType _ => true
  | errVerifying err => isReturnTypeError err
  | ErrParser _ _ err => isReturnTypeError err
  | _ => false
  end.

(** A result that is not the return-type error. *)
Definition quiet {A : Type} (res : Result A) : Prop :=
  match res with
  | Fail err _ => isReturnTypeError err = false
  | _ => True
  end.

(** ** The panics *)

(** A [RAWTYPE] token names a type [getTypeFromLiteral] knows. *)
Definition knownType (tok : Token) : Prop :=
  tok_Type tok = RAWTYPE -> is_Some (getTypeFromLiteral (tok_Literal tok)).

Definition typesKnown (p : Parser) : Prop :=
  knownType (curToken p) /\ knownType (peekToken p) /\
  Forall knownType (tokens p).

(** The message of the run-time panic of a nil pointer dereference. *)
Definition nilDereference : string :=
  "invalid memory address or nil pointer dereference".

(** A result that is no panic but the nil dereference. *)
Definition calm {A : Type} (res : Result A) : Prop :=
  match res with
  | Panic msg => msg = nilDereference
  | _ => True
  end.

(** ** Induction on the statements *)

(** Induction on the statements, through the bodies of the functions. *)
Section NodeInduction.

Variable P : Node -> Prop.
Hypothesis Hvar : forall s, P (VarStatementNode s).
Hypothesis Hreassign : forall s, P (ReassignVarStatementNode s).
Hypothesis Hfn : forall name args body returnType defined exprs,
  Forall P body ->
  P (FnStatementNode (mkFnStatement name args body returnType defined exprs)).
Hypothesis Hreturn : forall s, P (ReturnStatementNode s).
Hypothesis Hexpression : forall e, P (ExpressionNode e).

Fixpoint Node_nested_ind (node : Node) : P node :=
  match node with
  | VarStatementNode s => Hvar s
  | ReassignVarStatementNode s => Hreassign s
  | FnStatementNode (mkFnStatement name args body returnType defined exprs) =>
      Hfn name args body returnType defined exprs
        ((fix all (l : list Node) : Forall P l :=
            match l with
            | [] => Forall_nil_2 P
            | n :: l => Forall_cons_2 P n l (Node_nested_ind n) (all l)
            end) body)
  | ReturnStatementNode s => Hreturn s
  | ExpressionNode e => Hexpression e
  end.

End NodeInduction.

End parser.


(* ===================================================================== *)
(** * Package [ir/llvm]: expression lowering *)
(* ===================================================================== *)

Module llvm.
Import parser.

(** An [llvm.Value], as the tree of the builder calls that made it.
    [ConstantInt bits n] is the constant of an integer type of [bits] bits
    whose bit pattern is [n]. *)
Inductive Value : Set :=
| NoValue
| ConstantInt (bits : Z) (n : Z)
| ConstantString (s : string) (dontNullTerminate : bool)
| ConstantFloat (text : string)
| Alloca (name : string)
| Load (ptr : Value) (name : string)
| Add (lhs rhs : Value) (name : string)
| Sub (lhs rhs : Value) (name : string)
| Mul (lhs rhs : Value) (name : string)
| SDiv (lhs rhs : Value) (name : string).

(** [llvm.ConstInt(t, N, signExtend)] for an integer type of [bits] bits:
    LLVM keeps the low [bits] bits of the 64-bit [N]. *)
Definition ConstInt (bits : Z) (N : Z) (signExtend : bool) : Value :=
  ConstantInt bits (N mod 2 ^ bits).

(** The conversion [uint64(x)] of an [int64]. *)
Definition uint64 (x : Z) : Z := x mod 2 ^ 64.

Record IRGenerator : Type := mkIRGenerator {
  globals : gmap string Value;
  locals : gmap string (gmap string Value)
}.

(** [gen.locals[fnName][name]]: a missing entry reads as the zero value. *)
Definition lookupLocal (gen : IRGenerator) (fnName name : string) : Value :=
  match locals gen !! fnName with
  | Some m => default NoValue (m !! name)
  | None => NoValue
  end.

(** [generateExpression]; [None] is one of its two panics. *)
Fixpoint generateExpression (gen : IRGenerator) (expr : Expression)
    (fnName : string) : option Value :=
  match expr with
  | IntegerLiteral value => Some (ConstInt 32 (uint64 value) false)
  | StringLiteral value => Some (ConstantString value true)
  | FloatLiteral value => Some (ConstantFloat value)
  | Identifier value _ => Some (Load (lookupLocal gen fnName value) value)
  | InfixExpression lhs operator rhs =>
      match generateExpression gen lhs fnName with
      | None => None
      | Some l =>
          match generateExpression gen rhs fnName with
          | None => None
          | Some r =>
              if String.eqb operator "+" then Some (Add l r "addtmp")
              else if String.eqb operator "-" then Some (Sub l r "subtmp")
              else if String.eqb operator "*" then Some (Mul l r "multmp")
              else if String.eqb operator "/" then Some (SDiv l r "divtmp")
              else None
          end
      end
  | _ => None
  end.

(** The operators [generateExpression] has a case for. *)
Definition arithmetic (operator : string) : bool :=
  String.eqb operator "+" || String.eqb operator "-"
  || String.eqb operator "*" || String.eqb operator "/".

(** The expressions [generateExpression] has a case for, all the way
    down. *)
Fixpoint lowerable (expr : Expression) : bool :=
  match expr with
  | IntegerLiteral _ | StringLiteral _ | FloatLiteral _ | Identifier _ _ =>
      true
  | InfixExpression lhs operator rhs =>
      lowerable lhs && lowerable rhs && arithmetic operator
  | _ => false
  end.

(** ** The lowering of statements *)

(** An [llvm.Type], as far as the generator builds them. *)
Inductive LType : Set :=
| Int8Type | Int32Type | FloatType | VoidType | stringType
| FunctionType (returnType : LType) (paramTypes : list LType).

(** The calls the generator makes on the module and on the builder for the
    statements, in the order it makes them.  The LLVM library is not
    interpreted: a call is recorded with its arguments. *)
Inductive Call : Set :=
| CreateAlloca (t : LType) (name : string)
| CreateStore (val ptr : Value)
| CreateRet (val : Value)
| CreateRetVoid
| AddFunction (name : string) (fnType : LType)
| SetFunctionCallConv (fn : string)
| AddBasicBlock (fn name : string)
| SetInsertPointAtEnd (fn block : string).

Definition NewIRGenerator : IRGenerator := mkIRGenerator ∅ ∅.

(** [fromRawTypeToLLVMType]; its [default] case is out of reach of the four
    constants of [Type]. *)
Definition fromRawTypeToLLVMType (rawType : Type_) : LType :=
  match rawType with
  | Int32 => Int32Type
  | String => stringType
  | Void => VoidType
  | Float32 => FloatType
  end.

Definition getFnSignatureType (stmt : FnStatement) : LType :=
  FunctionType (fromRawTypeToLLVMType (ReturnType stmt))
               (map (fun p => fromRawTypeToLLVMType (arg_Type p)) (Args stmt)).

(** The outcome of a generating function: the generator and the calls made,
    or [None] for a panic. *)
Definition Generated : Type := option (IRGenerator * list Call).

(** [generateVarStatement].  The assignment [gen.locals[fnName][stmt.Name] =
    alloca] panics when [gen.locals] has no map for [fnName]. *)
Definition generateVarStatement (gen : IRGenerator) (stmt : VarStatement)
    (fnName : string) : Generated :=
  let t := match var_Type stmt with
           | Void => Int8Type
           | t => fromRawTypeToLLVMType t
           end in
  let alloca := Alloca (var_Name stmt) in
  match
    match var_Value stmt with
    | NilExpression => Some []
    | value =>
        match generateExpression gen value fnName with
        | Some varValue => Some [CreateStore varValue alloca]
        | None => None
        end
    end
  with
  | None => None
  | Some store =>
      let calls := CreateAlloca t (var_Name stmt) :: store in
      if negb (String.eqb fnName "") then
        match locals gen !! fnName with
        | Some m =>
            Some (mkIRGenerator (globals gen)
                    (<[fnName := <[var_Name stmt := alloca]> m]> (locals gen)),
                  calls)
        | None => None
        end
      else
        Some (mkIRGenerator (<[var_Name stmt := alloca]> (globals gen))
                            (locals gen), calls)
  end.

(** [generateReturnStatement]. *)
Definition generateReturnStatement (gen : IRGenerator) (stmt : ReturnStatement)
    (fnName : string) : Generated :=
  match generateExpression gen (ret_Value stmt) fnName with
  | Some returnValue => Some (gen, [CreateRet returnValue])
  | None => None
  end.

Section ForEach.

Variable step : IRGenerator -> Node -> Generated.

(** A loop over statements, [step] being its body: the calls add up, a
    panic ends it. *)
Fixpoint forEach (gen : IRGenerator) (calls : list Call) (stmts : list Node)
    : Generated :=
  match stmts with
  | [] => Some (gen, calls)
  | stmt :: stmts =>
      match step gen stmt with
      | Some (gen, more) => forEach gen (calls ++ more)%list stmts
      | None => None
      end
  end.

End ForEach.

Section Generate.

(** [ReassignVarStatement.ToVarAssignment] is called by [generate] and is not
    part of the sources: it is left open. *)
Variable ToVarAssignment : ReassignVarStatement -> VarStatement.

(** The calls that open a function, and the generator with its fresh
    locals. *)
Definition opening (stmt : FnStatement) : list Call :=
  [AddFunction (Name stmt) (getFnSignatureType stmt);
   SetFunctionCallConv (Name stmt); AddBasicBlock (Name stmt) "entry";
   SetInsertPointAtEnd (Name stmt) "entry"].

Definition enter (gen : IRGenerator) (name : string) : IRGenerator :=
  mkIRGenerator (globals gen) (<[name := ∅]> ∅).

(** One round of the loop of [generate], with [generateFnStatement] in the
    case of a function. *)
Fixpoint generateNode (gen : IRGenerator) (stmt : Node) (fnName : string)
    {struct stmt} : Generated :=
  match stmt with
  | VarStatementNode stmt => generateVarStatement gen stmt fnName
  | ReassignVarStatementNode stmt =>
      generateVarStatement gen (ToVarAssignment stmt) fnName
  | FnStatementNode (mkFnStatement name args body returnType defined exprs) =>
      if negb (String.eqb fnName "") then
        None (* "functions cannot be inside other functions" *)
      else
        let stmt := mkFnStatement name args body returnType defined exprs in
        match body with
        | [] => Some (enter gen name, opening stmt ++ [CreateRetVoid])%list
        | _ =>
            forEach (fun gen inner => generateNode gen inner name)
                    (enter gen name) (opening stmt) body
        end
  | ReturnStatementNode stmt => generateReturnStatement gen stmt fnName
  | ExpressionNode _ => Some (gen, [])
  end.

(** [generate]. *)
Definition generate (gen : IRGenerator) (stmts : list Node) (fnName : string)
    : Generated :=
  forEach (fun gen stmt => generateNode gen stmt fnName) gen [] stmts.

(** [generateFnStatement]. *)
Definition generateFnStatement (gen : IRGenerator) (stmt : FnStatement)
    : Generated :=
  match Body stmt with
  | [] => Some (enter gen (Name stmt), opening stmt ++ [CreateRetVoid])%list
  | body =>
      forEach (fun gen inner => generateNode gen inner (Name stmt))
              (enter gen (Name stmt)) (opening stmt) body
  end.

Definition GenerateIR (gen : IRGenerator) (program : Program) : Generated :=
  generate gen (Statements program) "".

(** What the value of a declaration has to be for [generateVarStatement]. *)
Definition storable (value : Expression) : bool :=
  match value with
  | NilExpression => true
  | value => lowerable value
  end.

(** The statements [generate] has no panic for, in the function [fnName]
    (or at the top level, where [fnName] is empty). *)
Fixpoint generable (fnName : string) (stmt : Node) : bool :=
  match stmt with
  | VarStatementNode stmt => storable (var_Value stmt)
  | ReassignVarStatementNode stmt => storable (var_Value (ToVarAssignment stmt))
  | FnStatementNode (mkFnStatement name _ body _ _ _) =>
      String.eqb fnName "" && forallb (generable name) body
  | ReturnStatementNode stmt => lowerable (ret_Value stmt)
  | ExpressionNode _ => true
  end.

End Generate.

(** The generator has the map of the locals of [fnName], where it needs
    one. *)
Definition ready (gen : IRGenerator) (fnName : string) : Prop :=
  fnName = "" \/ is_Some (locals gen !! fnName).

(** An expression with no operand missing: no nil expression in it. *)
Fixpoint complete (expr : Expression) : bool :=
  match expr with
  | NilExpression => false
  | FnCall _ params => forallb complete params
  | InfixExpression lhs _ rhs => complete lhs && complete rhs
  | PrefixExpression _ rhs => complete rhs
  | _ => true
  end.

(** The expressions made of nil, literals, identifiers and the four
    arithmetic operators. *)
Fixpoint plain (expr : Expression) : bool :=
  match expr with
  | NilExpression | IntegerLiteral _ | StringLiteral _ | FloatLiteral _
  | Identifier _ _ => true
  | InfixExpression lhs operator rhs =>
      plain lhs && plain rhs && arithmetic operator
  | _ => false
  end.

(** A value [generateVarStatement] can store when it is plain: nil, or
    with no operand missing. *)
Definition assignable (value : Expression) : bool :=
  match value with
  | NilExpression => true
  | value => complete value
  end.

(** The statements with every value in place and no function inside a
    function, in the function [fnName] (or at the top level, where [fnName]
    is empty). *)
Fixpoint compiles (fnName : string) (stmt : Node) : bool :=
  match stmt with
  | VarStatementNode stmt => assignable (var_Value stmt)
  | ReassignVarStatementNode stmt => assignable (reassign_Value stmt)
  | FnStatementNode (mkFnStatement name _ body _ _ _) =>
      String.eqb fnName "" && forallb (compiles name) body
  | ReturnStatementNode stmt => complete (ret_Value stmt)
  | ExpressionNode _ => true
  end.

(** The statements whose values are plain, all the way down. *)
Fixpoint plainNode (stmt : Node) : bool :=
  match stmt with
  | VarStatementNode stmt => plain (var_Value stmt)
  | ReassignVarStatementNode stmt => plain (reassign_Value stmt)
  | FnStatementNode (mkFnStatement _ _ body _ _ _) => forallb plainNode body
  | ReturnStatementNode stmt => plain (ret_Value stmt)
  | ExpressionNode _ => true
  end.

End llvm.

(* ===================================================================== *)
(** * Package [internal/source] and [main] *)
(* ===================================================================== *)

(** What the program does to its environment, in order. *)
Module os.

Inductive Effect : Set :=
| ReadFile (path : string)
| Create (path : string)
| WriteFile (path : string) (contents : string)
| Stdout (text : string)
| Stderr (text : string)
| Crash (msg : string).

(** [filepath.Ext]: the suffix that starts at the last dot of the last
    element of the path, empty when that element has no dot.  [extScan] is
    its backward scan, [None] while neither a dot nor a separator was met. *)
Fixpoint extScan (path : string) : option string :=
  match path with
  | EmptyString => None
  | String.String c rest =>
      match extScan rest with
      | Some ext => Some ext
      | None =>
          if Ascii.eqb c "."%char then Some path
          else if Ascii.eqb c "/"%char then Some ""
          else None
      end
  end.

Definition Ext (path : string) : string := default "" (extScan path).

End os.

Module source.
Import os.

Definition allowedExtensions (ext : string) : bool := String.eqb ext ".lt".

Record SourceFile : Set := mkSourceFile {
  source : string;
  cursorAt : Z;
  path : string
}.

Inductive error : Set :=
| errExtensionNotAllowed (ext : string)
| errReadFile (path : string).

Section FileSystem.

(** The files that can be read, by path. *)
Variable fs : string -> option string.

(** [FromFile], with the effects it has. *)
Definition FromFile (sourcePath : string)
    : list Effect * (SourceFile + error) :=
  let ext := Ext sourcePath in
  if negb (allowedExtensions ext) then ([], inr (errExtensionNotAllowed ext))
  else
    match fs sourcePath with
    | None => ([ReadFile sourcePath], inr (errReadFile sourcePath))
    | Some contents =>
        ([ReadFile sourcePath], inl (mkSourceFile contents 0 sourcePath))
    end.

End FileSystem.

(** [SourceFile.Read] into a buffer of [size] bytes: the bytes copied and
    the file with its cursor moved; the error is always nil. *)
Definition Read (s : SourceFile) (size : nat)
    : string * SourceFile :=
  let chunk :=
    take size (drop (Z.to_nat (cursorAt s))
                    (list_ascii_of_string (source s))) in
  (string_of_list_ascii chunk,
   mkSourceFile (source s)
     (cursorAt s + Z.of_nat (length chunk)) (path s)).

(** Successive reads, one per buffer size. *)
Fixpoint readAll (s : SourceFile) (sizes : list nat)
    : list string * SourceFile :=
  match sizes with
  | [] => ([], s)
  | size :: sizes =>
      let '(chunk, s1) := Read s size in
      let '(chunks, s2) := readAll s1 sizes in
      (chunk :: chunks, s2)
  end.

End source.

Module cmd.
Import os.

Section Main.

Variable fs : string -> option string.

(** What follows the parser in [main]: [GenerateIR], [VerifyModule] and
    [Module.String] of the LLVM binding, as the text of the verified module,
    [inr] of a message when the lowering panics and [inl None] when the
    verifier rejects the module. *)
Variable backend : parser.Program -> option string + string.

(** [main], on [os.Args]. *)
Definition main (fuel : nat) (Args : list string) : list Effect :=
  match Args with
  | _ :: sourceFile :: _ =>
      match fs sourceFile with
      | None =>
          [ReadFile sourceFile; Stdout "Error reading source file"]
      | Some src =>
          ReadFile sourceFile ::
          match parser.parseSource fuel src with
          | parser.Rejected _ => [Stdout "Error parsing program"]
          | parser.Crashed msg => [Crash msg]
          | parser.Unfinished => []
          | parser.Parsed program =>
              match backend program with
              | inr msg => [Crash msg]
              | inl None => [Stdout "Error verifying module"]
              | inl (Some ir) =>
                  [Create "output.ll"; Stderr ir; WriteFile "output.ll" ir]
              end
          end
      end
  | _ => [Stdout "Usage: main <source file>"]
  end.

End Main.

End cmd.

(* ===================================================================== *)
(** * Parser states for the instances of the properties *)
(* ===================================================================== *)

Module examples.
Import lexer parser.

Definition eof : Token := mkToken EOF "" 0 0.

(** The declaration [var x: int32 = 1]. *)
Definition xInt : VarStatement := mkVarStatement "x" (IntegerLiteral 1) Int32.

(** At the literal of ["1;"]. *)
Definition atLiteral : Parser :=
  mkParser [eof] (mkToken INT "1" 1 8) (mkToken SEMICOLON ";" 1 9) ∅ ∅.

(** At the beginning of ["var x: int32 = 1;"], and after it. *)
Definition atVar : Parser :=
  mkParser [mkToken COLON ":" 1 5; mkToken RAWTYPE "int32" 1 7;
            mkToken ASSIGN "=" 1 13; mkToken INT "1" 1 15;
            mkToken SEMICOLON ";" 1 16; eof]
           (mkToken VAR "var" 1 0) (mkToken IDENT "x" 1 4) ∅ ∅.

Definition afterVar : Parser :=
  mkParser [] (mkToken SEMICOLON ";" 1 16) eof (<["x" := xInt]> ∅) ∅.

(** At the identifier of ["x;"], with [x] declared. *)
Definition atUse : Parser :=
  mkParser [eof] (mkToken IDENT "x" 2 0) (mkToken SEMICOLON ";" 2 1)
           (<["x" := xInt]> ∅) ∅.

(** At the beginning of ["x = 2;"], with [x] declared, and after it. *)
Definition atReassign : Parser :=
  mkParser [mkToken INT "2" 2 4; mkToken SEMICOLON ";" 2 5; eof]
           (mkToken IDENT "x" 2 0) (mkToken ASSIGN "=" 2 2)
           (<["x" := xInt]> ∅) ∅.

Definition afterReassign : Parser :=
  mkParser [] (mkToken SEMICOLON ";" 2 5) eof (<["x" := xInt]> ∅) ∅.

(** The record of [fn f(a: int32, b: int32) {}]. *)
Definition fTwo : FnStatement :=
  mkFnStatement "f" [mkArgument "a" Int32; mkArgument "b" Int32] [] Void
                false [].

(** At the argument of ["f(1)"], with [f] recorded, and after the call. *)
Definition atCall : Parser :=
  mkParser [eof] (mkToken INT "1" 3 2) (mkToken RPAREN ")" 3 3) ∅
           (<["f" := fTwo]> ∅).

Definition afterCall : Parser :=
  mkParser [] (mkToken RPAREN ")" 3 3) eof ∅ (<["f" := fTwo]> ∅).

(** A reassignment as the declaration of the same name, type and value. *)
Definition asDeclaration (stmt : ReassignVarStatement) : VarStatement :=
  mkVarStatement (reassign_VarName stmt) (reassign_Value stmt)
                 (reassign_Type stmt).

End examples.

(* ===================================================================== *)
(** * What the lexer guarantees of its tokens *)
(* ===================================================================== *)

Module tokenclass.
Import lexer.

(** A non-empty string of letters, as [readIdent] collects. *)
Definition letters (s : string) : Prop :=
  s <> "" /\ Forall (fun c => isLetter c = true) (list_ascii_of_string s).

(** What the lexer guarantees of a token, by its kind. *)
Definition classified (tok : Token) : Prop :=
  match tok_Type tok with
  | IDENT => letters (tok_Literal tok) /\ Keywords (tok_Literal tok) = None
  | VAR | FN | CONTINUE | IF | BREAK | RETURN =>
      Keywords (tok_Literal tok) = Some (tok_Type tok)
  | INT => strconv.digits (tok_Literal tok)
  | FLOAT =>
      exists whole frac,
        tok_Literal tok = whole ++ String "."%char frac /\
        strconv.digits whole /\
        Forall (fun c => isDigit c = true) (list_ascii_of_string frac)
  | ASSIGN => tok_Literal tok = "="
  | PLUS => tok_Literal tok = "+"
  | MINUS => tok_Literal tok = "-"
  | STAR => tok_Literal tok = "*"
  | SLASH => tok_Literal tok = "/"
  | LBRACE => tok_Literal tok = "{"
  | RBRACE => tok_Literal tok = "}"
  | LPAREN => tok_Literal tok = "("
  | RPAREN => tok_Literal tok = ")"
  | SEMICOLON => tok_Literal tok = ";"
  | COMMA => tok_Literal tok = ","
  | NEXTLINE => tok_Literal tok = String "010"%char ""
  | EOF => tok = mkToken EOF "" 0 0
  | ILLEGAL =>
      exists ch, tok = mkToken ILLEGAL (String ch "") 0 0 /\
                 isLetter ch = false /\ isDigit ch = false /\
                 isWhitespace ch = false
  | MAIN | COLON | RAWTYPE | STRING => False
  end.

(** The text up to the first NUL rune, which the lexer takes for the end of
    the input. *)
Fixpoint beforeNul (text : list ascii) : list ascii :=
  match text with
  | [] => []
  | ch :: rest => if Ascii.eqb ch Ascii.zero then [] else ch :: beforeNul rest
  end.

(** The runes of the literals of a token sequence, in order. *)
Definition literals (toks : list Token) : list ascii :=
  concat (map (fun tok => list_ascii_of_string (tok_Literal tok)) toks).

(** The runes that make it into a token: all but space, tab and carriage
    return. *)
Definition kept (ch : ascii) : bool := negb (isWhitespace ch).

(** What a round of the lexer yields, by the text it takes. *)
Definition yield (ot : option Token) : list ascii :=
  match ot with
  | Some tok => list_ascii_of_string (tok_Literal tok)
  | None => []
  end.

(** The line and the column of the rune that follows [text], when [text]
    begins at [line] and [column]: a newline begins a line at column 0. *)
Fixpoint position (line column : Z) (text : list ascii) : Z * Z :=
  match text with
  | [] => (line, column)
  | ch :: text =>
      if Ascii.eqb ch "010"%char then position (line + 1) 0 text
      else position line (column + 1) text
  end.

(** By how much the column of a token that ends the text falls short: the
    reads that fail at the end of the text do not advance the column, the
    [unread] that follows each of them still takes one off. *)
Definition shortfall (t : TokenType) : Z :=
  match t with
  | INT => 2
  | FLOAT | IDENT | VAR | FN | CONTINUE | IF | BREAK | RETURN => 1
  | _ => 0
  end.

(** A token whose line and column are those of an occurrence of its literal
    in the text; lines count from 1 and columns from 0.  The column of a
    [NEXTLINE] token is the one after the newline, and [ILLEGAL] tokens have
    no position. *)
Definition located (text : list ascii) (tok : Token) : Prop :=
  match tok_Type tok with
  | ILLEGAL | EOF => tok_Line tok = 0 /\ tok_Column tok = 0
  | NEXTLINE =>
      exists pre post,
        text = (pre ++ list_ascii_of_string (tok_Literal tok) ++ post)%list /\
        (tok_Line tok, tok_Column tok - 1) = position 1 0 pre
  | _ =>
      exists pre post,
        text = (pre ++ list_ascii_of_string (tok_Literal tok) ++ post)%list /\
        (tok_Line tok, tok_Column tok) = position 1 0 pre
  end.

End tokenclass.

(* ===================================================================== *)
(** * Properties *)
(* ===================================================================== *)

Import lexer parser.

(** ** The type verifier *)

(** The operators [verifyInt32] lets through in an infix expression. *)
Lemma ContainsAny_arith_single (op : string) :
  op = "+" \/ op = "-" \/ op = "*" \/ op = "/" -> ContainsAny op "+-*/" = true.
Proof. intros [-> | [-> | [-> | ->]]]; reflexivity. Qed.

(** What [verifyInt32] accepts, with the operator test as the code has it. *)
Lemma verifyInt32_accepts (e : Expression) :
  verifyInt32 e = None <->
  match e with
  | IntegerLiteral _ => True
  | Identifier _ t => t = Int32
  | InfixExpression lhs op rhs =>
      verifyInt32 lhs = None /\ ContainsAny op "+-*/" = true /\
      verifyInt32 rhs = None
  | PrefixExpression op rhs =>
      op <> "~" /\ op <> "++" /\ op <> "--" /\ verifyInt32 rhs = None
  | _ => False
  end.
Proof.
  destruct e as [ | f ps | v | v t | v | v | v | lhs op rhs | op rhs ]; simpl;
    try (split; [discriminate | tauto]); try tauto.
  - destruct (decide (t = Int32)); split; intros; congruence.
  - destruct (verifyInt32 lhs), (ContainsAny op "+-*/"), (verifyInt32 rhs);
      simpl; split; intros; try discriminate; intuition congruence.
  - destruct (String.eqb_spec op "~"), (String.eqb_spec op "++"),
      (String.eqb_spec op "--"), (verifyInt32 rhs);
      simpl; split; intros; try discriminate; intuition congruence.
Qed.

(** C4: [Verify(Int32, e)] is claimed to succeed on an infix expression only
    when its operator is one of [+ - * /].  The code tests the operator with
    [strings.ContainsAny], so an operator that merely contains one of these
    characters passes: [1 += 2] verifies as [Int32], although its own error
    message names the four operators only.  The other parts of the claim
    hold: [~x] is refused, and so is an integer literal as a [String]. *)
Theorem verifyInt32_lets_compound_operator_through :
  Verify Int32 (InfixExpression (IntegerLiteral 1) "+=" (IntegerLiteral 2))
    = None
  /\ "+=" <> "+" /\ "+=" <> "-" /\ "+=" <> "*" /\ "+=" <> "/"
  /\ Verify Int32 (PrefixExpression "~" (IntegerLiteral 1)) <> None
  /\ Verify String (IntegerLiteral 1) <> None.
Proof. repeat split; discriminate. Qed.

(** C5: [Verify(Void, e)] returns no error and [Verify(Float32, e)] returns
    the generic "wrong type assignment" error, whatever the expression. *)
Theorem verify_void_and_float32 (e : Expression) :
  Verify Void e = None /\ Verify Float32 e = Some ErrWrongTypeAssigment.
Proof. split; reflexivity. Qed.

(** ** Operator precedence *)

Lemma additive_below_multiplicative (a m : TokenType) :
  additive a -> multiplicative m ->
  exists pa pm, precedences a = Some pa /\ precedences m = Some pm /\ pa < pm.
Proof.
  intros [-> | ->] [-> | ->]; do 2 eexists; repeat split; reflexivity.
Qed.

(** In an expression of two operators over integer literals the
    multiplicative operator takes its operands first, on either side. *)
Lemma pratt_sum_then_product fuel vs fs (a op1 b op2 c semi : Token) rest :
  tok_Type a = INT -> tok_Type b = INT -> tok_Type c = INT ->
  additive (tok_Type op1) -> multiplicative (tok_Type op2) ->
  tok_Type semi = SEMICOLON ->
  returned (parseExpression (8 + fuel) LOWEST Void
              (mkParser (b :: op2 :: c :: semi :: rest) a op1 vs fs)) =
  Some (InfixExpression
          (IntegerLiteral (fst (strconv.ParseInt (tok_Literal a))))
          (tok_Literal op1)
          (InfixExpression
             (IntegerLiteral (fst (strconv.ParseInt (tok_Literal b))))
             (tok_Literal op2)
             (IntegerLiteral (fst (strconv.ParseInt (tok_Literal c)))))).
Proof.
  destruct a as [ta la ? ?], b as [tb lb ? ?], c as [tc lc ? ?],
    op1 as [t1 l1 ? ?], op2 as [t2 l2 ? ?], semi as [ts ls ? ?].
  cbn [tok_Type tok_Literal].
  intros -> -> -> [-> | ->] [-> | ->] ->;
    lazy -[strconv.ParseInt]; reflexivity.
Qed.

Lemma pratt_product_then_sum fuel vs fs (a op1 b op2 c semi : Token) rest :
  tok_Type a = INT -> tok_Type b = INT -> tok_Type c = INT ->
  multiplicative (tok_Type op1) -> additive (tok_Type op2) ->
  tok_Type semi = SEMICOLON ->
  returned (parseExpression (8 + fuel) LOWEST Void
              (mkParser (b :: op2 :: c :: semi :: rest) a op1 vs fs)) =
  Some (InfixExpression
          (InfixExpression
             (IntegerLiteral (fst (strconv.ParseInt (tok_Literal a))))
             (tok_Literal op1)
             (IntegerLiteral (fst (strconv.ParseInt (tok_Literal b)))))
          (tok_Literal op2)
          (IntegerLiteral (fst (strconv.ParseInt (tok_Literal c))))).
Proof.
  destruct a as [ta la ? ?], b as [tb lb ? ?], c as [tc lc ? ?],
    op1 as [t1 l1 ? ?], op2 as [t2 l2 ? ?], semi as [ts ls ? ?].
  cbn [tok_Type tok_Literal].
  intros -> -> -> [-> | ->] [-> | ->] ->;
    lazy -[strconv.ParseInt]; reflexivity.
Qed.

(** C6: ["var x = 1 + 2 * 3;"] parses to one [VarStatement] whose value is
    [1 + (2 * 3)] and not [(1 + 2) * 3], and ["var x = 2 * 3 + 1;"] to
    [(2 * 3) + 1].  Generally, in the loop of [parseExpression]: of an
    additive and a multiplicative operator between three integer literals,
    whatever the literals and the two operators, the multiplicative one takes
    its two neighbours as operands, be it the second operator
    ([a + b * c] is [a + (b * c)]) or the first ([a * b + c] is
    [(a * b) + c]); in the precedence table every additive operator is below
    every multiplicative one. *)
Theorem product_binds_tighter_than_sum :
  parseSource 50 "var x = 1 + 2 * 3;" =
    Parsed (mkProgram [VarStatementNode (mkVarStatement "x"
      (InfixExpression (IntegerLiteral 1) "+"
         (InfixExpression (IntegerLiteral 2) "*" (IntegerLiteral 3)))
      Void)])
  /\ parseSource 50 "var x = 1 + 2 * 3;" <>
    Parsed (mkProgram [VarStatementNode (mkVarStatement "x"
      (InfixExpression
         (InfixExpression (IntegerLiteral 1) "+" (IntegerLiteral 2))
         "*" (IntegerLiteral 3))
      Void)])
  /\ parseSource 50 "var x = 2 * 3 + 1;" =
    Parsed (mkProgram [VarStatementNode (mkVarStatement "x"
      (InfixExpression
         (InfixExpression (IntegerLiteral 2) "*" (IntegerLiteral 3))
         "+" (IntegerLiteral 1))
      Void)])
  /\ (forall fuel vs fs (a lo b hi c semi : Token) rest,
        tok_Type a = INT -> tok_Type b = INT -> tok_Type c = INT ->
        additive (tok_Type lo) -> multiplicative (tok_Type hi) ->
        tok_Type semi = SEMICOLON ->
        returned (parseExpression (8 + fuel) LOWEST Void
                    (mkParser (b :: hi :: c :: semi :: rest) a lo vs fs)) =
        Some (InfixExpression
                (IntegerLiteral (fst (strconv.ParseInt (tok_Literal a))))
                (tok_Literal lo)
                (InfixExpression
                   (IntegerLiteral (fst (strconv.ParseInt (tok_Literal b))))
                   (tok_Literal hi)
                   (IntegerLiteral (fst (strconv.ParseInt (tok_Literal c)))))))
  /\ (forall fuel vs fs (a hi b lo c semi : Token) rest,
        tok_Type a = INT -> tok_Type b = INT -> tok_Type c = INT ->
        multiplicative (tok_Type hi) -> additive (tok_Type lo) ->
        tok_Type semi = SEMICOLON ->
        returned (parseExpression (8 + fuel) LOWEST Void
                    (mkParser (b :: lo :: c :: semi :: rest) a hi vs fs)) =
        Some (InfixExpression
                (InfixExpression
                   (IntegerLiteral (fst (strconv.ParseInt (tok_Literal a))))
                   (tok_Literal hi)
                   (IntegerLiteral (fst (strconv.ParseInt (tok_Literal b)))))
                (tok_Literal lo)
                (IntegerLiteral (fst (strconv.ParseInt (tok_Literal c))))))
  /\ (forall lo hi, additive lo -> multiplicative hi ->
        exists plo phi,
          precedences lo = Some plo /\ precedences hi = Some phi /\
          plo < phi)
  /\ precedences PLUS = Some SUM /\ precedences MINUS = Some SUM
  /\ precedences STAR = Some PRODUCT /\ precedences SLASH = Some PRODUCT
  /\ SUM < PRODUCT.
Proof.
  assert (E : parseSource 50 "var x = 1 + 2 * 3;" =
    Parsed (mkProgram [VarStatementNode (mkVarStatement "x"
      (InfixExpression (IntegerLiteral 1) "+"
         (InfixExpression (IntegerLiteral 2) "*" (IntegerLiteral 3)))
      Void)])) by (vm_compute; reflexivity).
  split; [exact E |]. split; [rewrite E; discriminate |].
  split; [vm_compute; reflexivity |].
  split; [exact pratt_sum_then_product |].
  split; [exact pratt_product_then_sum |].
  split; [exact additive_below_multiplicative |].
  repeat split.
Qed.

(** [2 * 3 + 1] is [(2 * 3) + 1], and [1 - 2 / 3] is [1 - (2 / 3)]. *)
Lemma product_binds_tighter_than_sum_witness :
  returned (parseExpression 8 LOWEST Void
              (mkParser [mkToken INT "3" 1 12; mkToken PLUS "+" 1 14;
                         mkToken INT "1" 1 16; mkToken SEMICOLON ";" 1 17]
                        (mkToken INT "2" 1 8) (mkToken STAR "*" 1 10) ∅ ∅)) =
    Some (InfixExpression
            (InfixExpression (IntegerLiteral 2) "*" (IntegerLiteral 3))
            "+" (IntegerLiteral 1))
  /\ returned (parseExpression 8 LOWEST Void
              (mkParser [mkToken INT "2" 1 12; mkToken SLASH "/" 1 14;
                         mkToken INT "3" 1 16; mkToken SEMICOLON ";" 1 17]
                        (mkToken INT "1" 1 8) (mkToken MINUS "-" 1 10) ∅ ∅)) =
    Some (InfixExpression (IntegerLiteral 1) "-"
            (InfixExpression (IntegerLiteral 2) "/" (IntegerLiteral 3))).
Proof.
  destruct product_binds_tighter_than_sum
    as (_ & _ & _ & Hlow & Hhigh & _).
  split.
  - apply (Hhigh 0%nat ∅ ∅ (mkToken INT "2" 1 8) (mkToken STAR "*" 1 10)
             (mkToken INT "3" 1 12) (mkToken PLUS "+" 1 14)
             (mkToken INT "1" 1 16) (mkToken SEMICOLON ";" 1 17) []);
      try reflexivity; [left | left]; reflexivity.
  - apply (Hlow 0%nat ∅ ∅ (mkToken INT "1" 1 8) (mkToken MINUS "-" 1 10)
             (mkToken INT "2" 1 12) (mkToken SLASH "/" 1 14)
             (mkToken INT "3" 1 16) (mkToken SEMICOLON ";" 1 17) []);
      try reflexivity; [right | right]; reflexivity.
Defined.

(** ** Function redefinition *)

(** C1: the claim is that a second [fn f] is rejected with "function already
    defined" and that the recorded [FnStatement] has [Defined = true].  The
    code never sets [Defined]: both declarations of ["fn f() {} fn f() {}"]
    are accepted and both records have [Defined = false]. *)
Theorem redefinition_is_accepted :
  parseSource 50 "fn f() {} fn f() {}" =
    Parsed (mkProgram
      [FnStatementNode (mkFnStatement "f" [] [] Void false []);
       FnStatementNode (mkFnStatement "f" [] [] Void false [])]).
Proof. vm_compute; reflexivity. Qed.

(** ** Unbound identifiers *)

(** An identifier that is not in the variable table makes [parseExpression]
    read a field of a nil [*VarStatement]. *)
Lemma parseExpression_unbound_identifier fuel precedence tt (p : Parser) :
  tok_Type (curToken p) = IDENT ->
  vars p !! tok_Literal (curToken p) = None ->
  parseExpression (S fuel) precedence tt p =
    Panic "invalid memory address or nil pointer dereference".
Proof. intros Hty Hv. simpl. rewrite Hty, Hv. reflexivity. Qed.

(** C7: the claim is that an unbound identifier in expression position
    becomes an [UnboundedIdentifier] and parsing goes on.  On
    ["var x = y;"] the parser panics instead. *)
Theorem unbound_identifier_panics :
  parseSource 50 "var x = y;" =
    Crashed "invalid memory address or nil pointer dereference".
Proof. vm_compute; reflexivity. Qed.

(** ** Integer literals *)

Section IntegerLiterals.
Import strconv.

Lemma isDigit_digitOf (c : ascii) : isDigit c = true -> 0 <= digitOf c <= 9.
Proof.
  destruct c as [[] [] [] [] [] [] [] []]; intros H;
    try discriminate H; vm_compute; split; discriminate.
Qed.

Lemma decimal_step_ge (cs : list ascii) (n : Z) :
  Forall (fun c => isDigit c = true) cs -> 0 <= n ->
  n <= fold_left (fun n c => n * 10 + digitOf c) cs n.
Proof.
  intros Hd. revert n. induction Hd as [ | c cs Hc _ IH]; intros n Hn; simpl.
  - lia.
  - pose proof (isDigit_digitOf c Hc). specialize (IH (n * 10 + digitOf c)). lia.
Qed.

Lemma cutoff_value : maxUint64 / 10 + 1 = 1844674407370955162.
Proof. reflexivity. Qed.

Lemma maxUint64_value : maxUint64 = 18446744073709551615.
Proof. reflexivity. Qed.

(** The digit loop saturates at [maxUint64]. *)
Lemma parseUintLoop_digits (cs : list ascii) (n : Z) :
  Forall (fun c => isDigit c = true) cs -> 0 <= n <= maxUint64 ->
  fst (parseUintLoop cs n) =
    Z.min (fold_left (fun n c => n * 10 + digitOf c) cs n) maxUint64
  /\ snd (parseUintLoop cs n) <> Some ErrSyntax.
Proof.
  intros Hd. revert n. induction Hd as [ | c cs Hc Hcs IH]; intros n Hn; simpl.
  - split; [lia | discriminate].
  - rewrite Hc, cutoff_value.
    pose proof (isDigit_digitOf c Hc) as Hdig.
    pose proof (decimal_step_ge cs (n * 10 + digitOf c) Hcs) as Hge.
    rewrite maxUint64_value in *.
    destruct (Z.geb_spec n 1844674407370955162); simpl.
    + split; [lia | discriminate].
    + destruct (Z.gtb_spec (n * 10 + digitOf c) 18446744073709551615); simpl.
      * split; [lia | discriminate].
      * apply IH. lia.
Qed.

(** On a string of digits [ParseInt] gives the number, clamped to the
    largest [int64]. *)
Lemma ParseInt_digits (s : string) :
  digits s -> fst (ParseInt s) = Z.min (decimal s) maxInt64.
Proof.
  intros [Hne Hd]. unfold ParseInt, decimal.
  destruct s as [ | c rest]; [congruence |].
  assert (Hc : isDigit c = true) by (simpl in Hd; inversion Hd; assumption).
  assert (Hs : Ascii.eqb c "+" || Ascii.eqb c "-" = false).
  { destruct (Ascii.eqb_spec c "+") as [-> | _]; [discriminate Hc |].
    destruct (Ascii.eqb_spec c "-") as [-> | _]; [discriminate Hc |].
    reflexivity. }
  assert (Hm : Ascii.eqb c "-" = false).
  { destruct (Ascii.eqb_spec c "-") as [-> | _]; [discriminate Hc | reflexivity]. }
  rewrite Hs, Hm. unfold ParseUint.
  change (list_ascii_of_string (String.String c rest))
    with (c :: list_ascii_of_string rest) in *.
  destruct (parseUintLoop_digits (c :: list_ascii_of_string rest) 0 Hd)
    as [Hv Herr]; [rewrite maxUint64_value; lia |].
  pose proof (decimal_step_ge (c :: list_ascii_of_string rest) 0 Hd
                (Z.le_refl 0)) as Hge.
  set (total := fold_left _ (c :: list_ascii_of_string rest) 0) in *.
  clearbody total.
  destruct (parseUintLoop (c :: list_ascii_of_string rest) 0) as [un err].
  simpl fst in Hv. simpl snd in Herr.
  rewrite maxUint64_value in Hv. unfold maxInt64.
  change (2 ^ 63) with 9223372036854775808.
  destruct err as [[ | ] | ]; [congruence | | ];
    destruct (Z.geb_spec un 9223372036854775808); simpl; lia.
Qed.

(** The two conversions of the lowering keep the low 32 bits. *)
Lemma uint64_low32 (v : Z) : llvm.uint64 v mod 2 ^ 32 = v mod 2 ^ 32.
Proof.
  unfold llvm.uint64. apply Z.mod_mod_divide.
  exists (2 ^ 32). reflexivity.
Qed.

End IntegerLiterals.

(** C9: an integer-literal token never makes the parser report an error,
    whatever its magnitude: the literal becomes the number it denotes,
    clamped to the largest 64-bit value, and where the token ends the
    expression it is accepted in a [Void] or [Int32] context.  The lowering
    emits the stored value as a 32-bit constant, that is, modulo 2^32. *)
Theorem integer_literal_clamped_then_truncated
    (fuel : nat) (precedence : Z) (tt : Type_) (p : Parser)
    (gen : llvm.IRGenerator) (fnName : string) :
  tok_Type (curToken p) = INT ->
  strconv.digits (tok_Literal (curToken p)) ->
  exists v,
    v = Z.min (strconv.decimal (tok_Literal (curToken p))) (2 ^ 63 - 1)
    /\ parseIntegerLiteral p = IntegerLiteral v
    /\ (endOfStatement (tok_Type (peekToken p)) = true ->
        LOWEST <= precedence -> tt = Void \/ tt = Int32 ->
        parseExpression (S (S fuel)) precedence tt p = Ok (IntegerLiteral v) p)
    /\ llvm.generateExpression gen (IntegerLiteral v) fnName =
         Some (llvm.ConstantInt 32 (v mod 2 ^ 32))
    /\ 0 <= v mod 2 ^ 32 < 2 ^ 32.
Proof.
  intros Hty Hd. eexists. split; [reflexivity |].
  assert (Hp : parseIntegerLiteral p =
    IntegerLiteral (Z.min (strconv.decimal (tok_Literal (curToken p)))
                          (2 ^ 63 - 1))).
  { unfold parseIntegerLiteral. rewrite (ParseInt_digits _ Hd). reflexivity. }
  split; [exact Hp |]. split; [| split].
  - intros Hend Hprec Htt.
    cbn [parseExpression]. rewrite Hty. cbn [parseExpressionLoop].
    assert (Hloop : negb (peekTokenIs SEMICOLON p)
                    && (precedence <? peekPrecedence p)%Z = false).
    { unfold peekTokenIs, peekPrecedence, endOfStatement, TokenType_eqb in *.
      destruct (tok_Type (peekToken p)); try discriminate Hend; simpl;
        try reflexivity; apply Z.ltb_ge; exact Hprec. }
    rewrite Hloop, Hp.
    destruct Htt as [-> | ->]; reflexivity.
  - simpl. unfold llvm.ConstInt. rewrite uint64_low32. reflexivity.
  - apply Z.mod_pos_bound. lia.
Qed.

(** A literal beyond the 64-bit range: stored as 2^63 - 1, emitted as
    2^32 - 1. *)
Lemma integer_literal_clamped_then_truncated_witness :
  exists v,
    v = Z.min (strconv.decimal "99999999999999999999") (2 ^ 63 - 1)
    /\ parseIntegerLiteral
         (mkParser [] (mkToken INT "99999999999999999999" 1 8)
                   (mkToken SEMICOLON ";" 1 28) ∅ ∅) = IntegerLiteral v
    /\ llvm.generateExpression (llvm.mkIRGenerator ∅ ∅) (IntegerLiteral v)
         "main" = Some (llvm.ConstantInt 32 (v mod 2 ^ 32)).
Proof.
  destruct (integer_literal_clamped_then_truncated 0 LOWEST Int32
              (mkParser [] (mkToken INT "99999999999999999999" 1 8)
                        (mkToken SEMICOLON ";" 1 28) ∅ ∅)
              (llvm.mkIRGenerator ∅ ∅) "main")
    as (v & Hv & Hp & _ & Hg & _).
  - reflexivity.
  - split; [discriminate | repeat constructor].
  - exists v. repeat split; assumption.
Defined.

(** ** Tokens that cannot begin an expression *)

Lemma getTypeFromLiteral_Some (literal : string) (ty : Type_) :
  getTypeFromLiteral literal = Some ty ->
  (literal = "int32" /\ ty = Int32) \/ (literal = "string" /\ ty = String).
Proof.
  unfold getTypeFromLiteral.
  destruct (String.eqb_spec literal "int32") as [-> | _];
    [intros [= <-]; left; split; reflexivity |].
  destruct (String.eqb_spec literal "string") as [-> | _];
    [intros [= <-]; right; split; reflexivity | discriminate].
Qed.

(** On such a token [parseExpression] returns before its [Verify] call. *)
Lemma parseExpression_no_primary fuel precedence tt (p : Parser) :
  beginsExpression (tok_Type (curToken p)) = false ->
  parseExpression (S fuel) precedence tt p = Ok NilExpression p.
Proof.
  intros H. cbn [parseExpression].
  destruct (tok_Type (curToken p)); try discriminate H; reflexivity.
Qed.

(** A token that cannot begin an expression and is followed by a token that
    does not end the statement: the declaration is refused just after it. *)
Lemma parseVarStatement_no_end
    (fuel : nat) (vs : gmap string VarStatement) (fs : gmap string FnStatement)
    (kw name assign t term : Token) (ty : Type_) (annot rest : list Token) :
  tok_Type kw = VAR -> tok_Type name = IDENT -> tok_Type assign = ASSIGN ->
  annotation ty annot ->
  beginsExpression (tok_Type t) = false ->
  tok_Type t <> EOF -> endOfStatement (tok_Type term) = false ->
  exists p',
    parseVarStatement (S fuel)
      (mkParser (annot ++ assign :: t :: term :: rest) kw name vs fs) =
    Fail (ErrParser (tok_Line t) (tok_Column t + len (tok_Literal t))
            (errAfterExpectedEnd (tok_Literal t))) p'.
Proof.
  intros Hkw Hname Hassign Hannot Ht Heof Hterm.
  destruct kw as [tkw lkw ? ?], name as [tn ln ? ?], assign as [ta la ? ?],
    t as [tt lt ? ?], term as [tterm lterm ? ?].
  cbn [tok_Type tok_Literal tok_Line tok_Column] in *. subst tkw tn ta.
  destruct Hannot as [[-> ->] | (colon & raw & -> & Hc & Hr & Hty)].
  - destruct tt; try discriminate Ht; try (exfalso; apply Heof; reflexivity);
      (destruct tterm; try discriminate Hterm;
       eexists; lazy -[len]; reflexivity).
  - destruct colon as [tc lc ? ?], raw as [tr lr ? ?].
    cbn [tok_Type tok_Literal] in *. subst tc tr.
    destruct (getTypeFromLiteral_Some _ _ Hty) as [[-> ->] | [-> ->]];
      (destruct tt; try discriminate Ht;
       try (exfalso; apply Heof; reflexivity);
       (destruct tterm; try discriminate Hterm;
        eexists; lazy -[len]; reflexivity)).
Qed.

(** C10, as the code has it: on a token that cannot begin an expression
    [parseExpression] returns a nil expression and a nil error, in every type
    context, although [Verify] refuses the nil expression as [Int32] and as
    [String].  A [var] declaration with such a token where its initializer
    should be, with or without a type annotation, is accepted with a nil
    [Value] when that token is [EOF] or the token after it ends the
    statement; otherwise it is refused with "expected end of statement or
    new line", at the position after that token.  The claim leaves this
    condition out. *)
Theorem nil_initializer_is_accepted
    (fuel : nat) (vs : gmap string VarStatement) (fs : gmap string FnStatement)
    (kw name assign t term : Token) (ty : Type_) (annot rest : list Token) :
  tok_Type kw = VAR -> tok_Type name = IDENT -> tok_Type assign = ASSIGN ->
  annotation ty annot ->
  beginsExpression (tok_Type t) = false ->
  (forall precedence tt p,
      curToken p = t ->
      parseExpression (S fuel) precedence tt p = Ok NilExpression p)
  /\ Verify Int32 NilExpression <> None
  /\ Verify String NilExpression <> None
  /\ (tok_Type t = EOF \/ endOfStatement (tok_Type term) = true ->
      returned (parseVarStatement (S fuel)
                  (mkParser (annot ++ assign :: t :: term :: rest) kw name
                            vs fs)) =
        Some (mkVarStatement (tok_Literal name) NilExpression ty))
  /\ (tok_Type t <> EOF -> endOfStatement (tok_Type term) = false ->
      exists p',
        parseVarStatement (S fuel)
          (mkParser (annot ++ assign :: t :: term :: rest) kw name vs fs) =
        Fail (ErrParser (tok_Line t) (tok_Column t + len (tok_Literal t))
                (errAfterExpectedEnd (tok_Literal t))) p').
Proof.
  intros Hkw Hname Hassign Hannot Ht.
  split; [| split; [discriminate | split; [discriminate | split]]].
  { intros precedence tt p Hp. apply parseExpression_no_primary.
    rewrite Hp. exact Ht. }
  2:{ intros Heof Hterm.
      exact (parseVarStatement_no_end fuel vs fs kw name assign t term ty
               annot rest Hkw Hname Hassign Hannot Ht Heof Hterm). }
  intros Hterm.
  destruct kw as [tkw lkw ? ?], name as [tn ln ? ?], assign as [ta la ? ?],
    t as [tt lt ? ?], term as [tterm lterm ? ?].
  cbn [tok_Type tok_Literal] in *. subst tkw tn ta.
  destruct Hannot as [[-> ->] | (colon & raw & -> & Hc & Hr & Hty)].
  - destruct tt; try discriminate Ht;
      (destruct Hterm as [Hterm | Hterm];
       [try discriminate Hterm; lazy; reflexivity
       | destruct tterm; try discriminate Hterm; lazy; reflexivity]).
  - destruct colon as [tc lc ? ?], raw as [tr lr ? ?].
    cbn [tok_Type tok_Literal] in *. subst tc tr.
    destruct tt; try discriminate Ht;
      (destruct Hterm as [Hterm | Hterm];
       [try discriminate Hterm
       | destruct tterm; try discriminate Hterm]);
      (destruct (getTypeFromLiteral_Some _ _ Hty) as [[-> ->] | [-> ->]];
       lazy; reflexivity).
Qed.

(** ["var x: int32 = ;"]: the declaration is accepted with a nil value. *)
Lemma nil_initializer_is_accepted_witness :
  returned (parseVarStatement 1
    (mkParser [mkToken COLON ":" 1 5; mkToken RAWTYPE "int32" 1 7;
               mkToken ASSIGN "=" 1 13; mkToken SEMICOLON ";" 1 15;
               mkToken EOF "" 0 0]
              (mkToken VAR "var" 1 0) (mkToken IDENT "x" 1 4) ∅ ∅)) =
    Some (mkVarStatement "x" NilExpression Int32).
Proof.
  refine (proj1 (proj2 (proj2 (proj2
    (nil_initializer_is_accepted 0 ∅ ∅
       (mkToken VAR "var" 1 0) (mkToken IDENT "x" 1 4)
       (mkToken ASSIGN "=" 1 13) (mkToken SEMICOLON ";" 1 15)
       (mkToken EOF "" 0 0) Int32
       [mkToken COLON ":" 1 5; mkToken RAWTYPE "int32" 1 7] []
       _ _ _ _ _)))) _).
  - reflexivity.
  - reflexivity.
  - reflexivity.
  - right. exists (mkToken COLON ":" 1 5), (mkToken RAWTYPE "int32" 1 7).
    repeat split; reflexivity.
  - reflexivity.
  - right. reflexivity.
Defined.

(** C10, as it is claimed, fails: [+] cannot begin an expression, and
    [parseExpression] returns a nil expression for it, yet
    ["var x = + 1;"] is not accepted: [parseVarStatement] looks at the token
    after [+], finds [1] where the statement should end, and reports
    "after +: expected end of statement or new line".  So are
    ["var x = ; var y = 1;"], where [var] follows the semicolon that stands
    for the initializer, and the declaration with the annotation [: int32]. *)
Lemma nil_initializer_needs_end_of_statement :
  beginsExpression PLUS = false /\ beginsExpression SEMICOLON = false
  /\ parseSource 50 "var x = + 1;" =
       Rejected (ErrParser 1 9 (errAfterExpectedEnd "+"))
  /\ parseSource 50 "var x = ; var y = 1;" =
       Rejected (ErrParser 1 9 (errAfterExpectedEnd ";"))
  /\ (forall fuel,
        parseExpression (S fuel) LOWEST Int32
          (mkParser [mkToken SEMICOLON ";" 1 18; mkToken EOF "" 0 0]
                    (mkToken PLUS "+" 1 15) (mkToken INT "1" 1 17) ∅ ∅) =
        Ok NilExpression
          (mkParser [mkToken SEMICOLON ";" 1 18; mkToken EOF "" 0 0]
                    (mkToken PLUS "+" 1 15) (mkToken INT "1" 1 17) ∅ ∅))
  /\ (forall fuel,
        exists p,
          parseVarStatement (S fuel)
            (mkParser [mkToken COLON ":" 1 5; mkToken RAWTYPE "int32" 1 7;
                       mkToken ASSIGN "=" 1 13; mkToken PLUS "+" 1 15;
                       mkToken INT "1" 1 17; mkToken SEMICOLON ";" 1 18;
                       mkToken EOF "" 0 0]
                      (mkToken VAR "var" 1 0) (mkToken IDENT "x" 1 4) ∅ ∅) =
          Fail (ErrParser 1 16 (errAfterExpectedEnd "+")) p).
Proof.
  split; [reflexivity |]. split; [reflexivity |].
  split; [vm_compute; reflexivity |]. split; [vm_compute; reflexivity |].
  split; intros fuel; [reflexivity |].
  eexists. lazy. reflexivity.
Qed.

(** ** The extension of the source file *)

(** C8, as stated: every path whose extension is not [.lt] is rejected by
    the program before the file is read.  [main] reads the path it is given
    with [os.ReadFile], whatever its extension. *)
Lemma main_reads_any_extension :
  ~ (forall (fs : string -> option string)
            (backend : Program -> option string + string)
            (fuel : nat) (prog path : string),
        os.Ext path <> ".lt" ->
        ~ In (os.ReadFile path) (cmd.main fs backend fuel [prog; path])).
Proof.
  intros H.
  apply (H (fun _ => Some "var x = 1;") (fun _ => inl None) 50%nat
           "lotus" "prog.txt").
  - discriminate.
  - left. reflexivity.
Qed.

(** C8, amended: the extension check is the one of [source.FromFile], which
    rejects a path whose extension is not [.lt] without reading the file and
    gives no [SourceFile]; [main] does not call it, and what it does first
    with any path is to read it. *)
Theorem FromFile_rejects_before_reading
    (fs : string -> option string) (sourcePath : string) :
  os.Ext sourcePath <> ".lt" ->
  source.FromFile fs sourcePath =
    ([], inr (source.errExtensionNotAllowed (os.Ext sourcePath)))
  /\ (forall backend fuel prog rest,
        exists effects,
          cmd.main fs backend fuel (prog :: sourcePath :: rest) =
            os.ReadFile sourcePath :: effects).
Proof.
  intros Hext. split.
  - unfold source.FromFile, source.allowedExtensions.
    destruct (String.eqb_spec (os.Ext sourcePath) ".lt"); [contradiction |].
    reflexivity.
  - intros backend fuel prog rest. unfold cmd.main.
    destruct (fs sourcePath); eexists; reflexivity.
Qed.

Lemma FromFile_rejects_before_reading_witness :
  source.FromFile (fun _ => Some "var x = 1;") "prog.txt" =
    ([], inr (source.errExtensionNotAllowed ".txt")).
Proof.
  apply (FromFile_rejects_before_reading (fun _ => Some "var x = 1;")
           "prog.txt").
  discriminate.
Defined.

(** ** Inversion of the parsing functions *)

Lemma bind_Ok {A B : Type} (c : Result A) (k : A -> Parser -> Result B)
    (b : B) (p' : Parser) :
  bind c k = Ok b p' -> exists a p1, c = Ok a p1 /\ k a p1 = Ok b p'.
Proof. destruct c; simpl; intros H; try discriminate H; eauto. Qed.

Lemma Ok_inj {A : Type} (a a' : A) (p p' : Parser) :
  Ok a p = Ok a' p' -> a = a' /\ p = p'.
Proof. intros [= -> ->]. split; reflexivity. Qed.

Lemma returned_Some {A : Type} (res : Result A) (a : A) :
  returned res = Some a -> exists p', res = Ok a p'.
Proof. destruct res; simpl; intros [= ->]; eauto. Qed.

Ltac inv_bind H :=
  let a := fresh "a" in
  let q := fresh "q" in
  let E := fresh "E" in
  apply bind_Ok in H; destruct H as (a & q & E & H).

Tactic Notation "bind_inv" hyp(H) "as" ident(a) ident(q) ident(E) :=
  apply bind_Ok in H; destruct H as (a & q & E & H).

Lemma nextToken_cur (p : Parser) : curToken (nextToken p) = peekToken p.
Proof.
  unfold nextToken. destruct (TokenType_eqb _ _); [reflexivity |].
  destruct (tokens p); reflexivity.
Qed.

Lemma nextToken_fns (p : Parser) : fns (nextToken p) = fns p.
Proof.
  unfold nextToken. destruct (TokenType_eqb _ _); [reflexivity |].
  destruct (tokens p); reflexivity.
Qed.

Lemma consumeOrFail_Ok (expected : TokenType) (p p' : Parser) (u : unit) :
  consumeOrFail expected p = Ok u p' ->
  p' = nextToken p /\ tok_Type (peekToken p) = expected.
Proof.
  unfold consumeOrFail.
  destruct (TokenType_eqb _ _) eqn:E; simpl; [| discriminate].
  intros [= _ <-]. split; [reflexivity |].
  rewrite nextToken_cur in E. apply bool_decide_eq_true in E. exact E.
Qed.

Lemma parseFnArgs_fns (fuel : nat) (args args' : list Argument)
    (p p' : Parser) :
  parseFnArgs fuel args p = Ok args' p' -> fns p' = fns p.
Proof.
  revert args p. induction fuel as [ | fuel IH]; intros args p H;
    cbn [parseFnArgs] in H; [discriminate |].
  destruct (peekTokenIs RPAREN p).
  { apply Ok_inj in H as [_ <-]. apply nextToken_fns. }
  inv_bind H. apply consumeOrFail_Ok in E as [-> _].
  inv_bind H. apply consumeOrFail_Ok in E as [-> _].
  inv_bind H. apply consumeOrFail_Ok in E as [-> _].
  destruct (getTypeFromLiteral _); [| discriminate].
  destruct (TokenType_eqb _ _).
  { apply Ok_inj in H as [_ <-]. rewrite !nextToken_fns. reflexivity. }
  inv_bind H. apply consumeOrFail_Ok in E as [-> _].
  apply IH in H. rewrite H, !nextToken_fns. reflexivity.
Qed.

(** What a successful [parseFnSignature] tells: the name is the literal of
    the token after [fn], the function table is untouched, and a record of
    that name, if there is one, has [Defined = false]. *)
Lemma parseFnSignature_Ok (fuel : nat) (p p' : Parser) (name : string)
    (args : list Argument) :
  parseFnSignature fuel p = Ok (name, args) p' ->
  name = tok_Literal (peekToken p) /\ fns p' = fns p /\
  (forall fnStmt, fns p !! name = Some fnStmt -> Defined fnStmt = false).
Proof.
  unfold parseFnSignature. intros H.
  inv_bind H. apply consumeOrFail_Ok in E as [-> _].
  rewrite nextToken_cur, nextToken_fns in H.
  destruct (match fns p !! tok_Literal (peekToken p) with
            | Some fnStmt => Defined fnStmt
            | None => false
            end) eqn:Hdef; [discriminate |].
  inv_bind H. apply consumeOrFail_Ok in E as [-> _].
  inv_bind H. apply parseFnArgs_fns in E.
  injection H as <- <- <-.
  split; [reflexivity |]. split.
  - rewrite E, !nextToken_fns. reflexivity.
  - intros fnStmt Hl. rewrite Hl in Hdef. exact Hdef.
Qed.

(** ** Return enforcement *)

(** [mustHaveReturn] is set exactly when the declaration has a return type,
    which is then [Int32] or [String]; without one the type stays [Void]. *)
Lemma parseFnHead_flag (fuel : nat) (p p' : Parser)
    (head : FnStatement * bool) :
  parseFnHead fuel p = Ok head p' ->
  (snd head = true <-> ReturnType (fst head) <> Void) /\
  Body (fst head) = [].
Proof.
  unfold parseFnHead. intros H. inv_bind H.
  destruct (reconcile _ _ _); [discriminate |].
  inv_bind H. inv_bind H. injection H as <- _. simpl. split; [| reflexivity].
  destruct (TokenType_eqb _ _).
  - inv_bind E0.
    destruct (getTypeFromLiteral _) as [t | ] eqn:Ht; [| discriminate].
    injection E0 as <- _. simpl.
    destruct (getTypeFromLiteral_Some _ _ Ht) as [[_ ->] | [_ ->]];
      split; intros; (reflexivity || discriminate).
  - injection E0 as <- _. simpl. split; [discriminate | congruence].
Qed.

(** The closing check passes exactly on a body that ends with a return of
    the declared type. *)
Lemma checkReturn_passes (p : Parser) (stmt : FnStatement) :
  checkReturn p true stmt = None <->
  endsWithReturn (ReturnType stmt) (Body stmt).
Proof.
  unfold checkReturn, endsWithReturn. split.
  - destruct (last (Body stmt)) as [node | ] eqn:Hl; [| discriminate].
    destruct node as [ | | | inner | ]; try discriminate.
    destruct (decide _) as [Heq | ]; [| discriminate]. intros _.
    apply last_Some in Hl as [init ->].
    exists init, (ret_Value inner). destruct inner; simpl in *. subst.
    reflexivity.
  - intros (init & value & ->). rewrite last_snoc. simpl.
    destruct (decide _); [reflexivity | contradiction].
Qed.

(** Otherwise it gives one of the two errors of the code. *)
Lemma checkReturn_fails (p : Parser) (stmt : FnStatement) :
  ~ endsWithReturn (ReturnType stmt) (Body stmt) ->
  exists err,
    checkReturn p true stmt = Some (errAt p err) /\
    (err = errorsNew "function must have a return" \/
     err = errExpectedReturnType (ReturnType stmt)) /\
    (Body stmt = [] -> err = errorsNew "function must have a return").
Proof.
  intros Hn.
  destruct (checkReturn p true stmt) as [e | ] eqn:Hc;
    [| apply checkReturn_passes in Hc; contradiction].
  unfold checkReturn in Hc.
  destruct (last (Body stmt)) as [node | ] eqn:Hl.
  - assert (Hne : Body stmt <> []) by (intros E; rewrite E in Hl; discriminate).
    destruct node as [ | | | inner | ];
      try (injection Hc as <-; eexists; split; [reflexivity |];
           split; [left; reflexivity | intros; contradiction]).
    destruct (decide _); [discriminate |].
    injection Hc as <-. eexists. split; [reflexivity |].
    split; [right; reflexivity | intros; contradiction].
  - injection Hc as <-. eexists. split; [reflexivity |].
    split; [left; reflexivity | reflexivity].
Qed.

(** C3: a [fn] declaration with a declared return type is parsed
    successfully only if its body is not empty and ends with a
    [ReturnStatement] of the declared type; when the head and the body of
    such a declaration are parsed and the body is empty, does not end with a
    return, or ends with a return of another type, [parseFnStatement]
    returns the "function must have a return" or the return-type error. *)
Theorem declared_return_needs_final_return (fuel : nat) (p : Parser) :
  (forall stmt,
      returned (parseFnStatement fuel p) = Some stmt ->
      ReturnType stmt <> Void ->
      Body stmt <> [] /\ endsWithReturn (ReturnType stmt) (Body stmt))
  /\ (forall head p1,
        parseFnHead fuel p = Ok head p1 ->
        (snd head = true <-> ReturnType (fst head) <> Void))
  /\ (forall head p1 body p2,
        parseFnHead fuel p = Ok head p1 ->
        snd head = true ->
        parseFnBody fuel (ReturnType (fst head)) [] (nextToken p1)
          = Ok body p2 ->
        ~ endsWithReturn (ReturnType (fst head)) body ->
        exists err,
          parseFnStatement (S fuel) p = Fail (errAt p2 err) p2 /\
          (err = errorsNew "function must have a return" \/
           err = errExpectedReturnType (ReturnType (fst head))) /\
          (body = [] -> err = errorsNew "function must have a return")).
Proof.
  split; [| split].
  - intros stmt Hret Hty.
    apply returned_Some in Hret as [p' H].
    destruct fuel as [ | fuel]; [discriminate |]. cbn [parseFnStatement] in H.
    inv_bind H. inv_bind H.
    destruct (checkReturn _ _ _) eqn:Hc; [discriminate |].
    injection H as <- _. simpl in Hty.
    apply parseFnHead_flag in E as [Hflag _].
    apply Hflag in Hty. rewrite Hty in Hc.
    apply checkReturn_passes in Hc. simpl in Hc |- *.
    split; [| exact Hc].
    destruct Hc as (init & value & ->). intros E.
    destruct init; discriminate E.
  - intros head p1 H. apply (parseFnHead_flag _ _ _ _ H).
  - intros head p1 body p2 Hhead Hflag Hbody Hn.
    destruct (checkReturn_fails p2 (withBody (fst head) body) Hn)
      as (err & Hc & Herr & Hempty).
    exists err. split; [| split; [exact Herr | exact Hempty]].
    cbn [parseFnStatement]. rewrite Hhead. cbn [bind]. rewrite Hbody.
    cbn [bind]. rewrite Hflag, Hc. reflexivity.
Qed.

(** ["fn one(): int32 { return 1; }"], token by token. *)
Lemma declared_return_needs_final_return_witness :
  Body (mkFnStatement (N := Node) "one" []
          [ReturnStatementNode (mkReturnStatement Int32 (IntegerLiteral 1))]
          Int32 false []) <> []
  /\ endsWithReturn Int32
       [ReturnStatementNode (mkReturnStatement Int32 (IntegerLiteral 1))].
Proof.
  apply (proj1 (declared_return_needs_final_return 20
    (mkParser [mkToken LPAREN "(" 1 6; mkToken RPAREN ")" 1 7;
               mkToken COLON ":" 1 8; mkToken RAWTYPE "int32" 1 10;
               mkToken LBRACE "{" 1 16; mkToken RETURN "return" 1 18;
               mkToken INT "1" 1 25; mkToken SEMICOLON ";" 1 26;
               mkToken RBRACE "}" 1 28; mkToken EOF "" 0 0]
              (mkToken FN "fn" 1 0) (mkToken IDENT "one" 1 3) ∅ ∅))
    (mkFnStatement "one" []
       [ReturnStatementNode (mkReturnStatement Int32 (IntegerLiteral 1))]
       Int32 false [])).
  - vm_compute. reflexivity.
  - discriminate.
Defined.

(** ** Forward references *)

Lemma verifyCaptured_None (p : Parser) (args : list Argument)
    (exprs : list Expression) :
  length exprs = length args ->
  verifyCaptured p args exprs = None <->
  Forall2 (fun a e => Verify (arg_Type a) e = None) args exprs.
Proof.
  revert exprs. induction args as [ | a args IH]; intros [ | e exprs] Hlen;
    simpl in *; try discriminate Hlen.
  - split; [constructor | reflexivity].
  - injection Hlen as Hlen. specialize (IH exprs Hlen).
    destruct (Verify (arg_Type a) e) eqn:Hv.
    + split; [discriminate |]. intros HF. inversion HF; subst. congruence.
    + rewrite IH. split.
      * intros HF. constructor; assumption.
      * intros HF. inversion HF; subst. assumption.
Qed.

(** The reconciliation passes exactly when the record of the earlier call
    agrees with the declared arguments. *)
Lemma reconcile_None (p : Parser) (name : string) (args : list Argument)
    (fnStmt : FnStatement) :
  fns p !! name = Some fnStmt -> Defined fnStmt = false ->
  reconcile p name args = None <->
  reconciled args (ExpressionsToEvaluate fnStmt).
Proof.
  intros Hl Hd. unfold reconcile, reconciled. rewrite Hl, Hd. simpl.
  destruct (Nat.eqb_spec (length (ExpressionsToEvaluate fnStmt)) (length args))
    as [Hlen | Hlen]; simpl.
  - rewrite (verifyCaptured_None _ _ _ Hlen). tauto.
  - split; [discriminate | tauto].
Qed.

Lemma parseProgramLoop_prefix (fuel : nat) (stmts : list Node)
    (p p' : Parser) (program : Program) :
  parseProgramLoop fuel stmts p = Ok program p' ->
  exists rest, Statements program = (stmts ++ rest)%list.
Proof.
  revert stmts p. induction fuel as [ | fuel IH]; intros stmts p H;
    simpl in H; [discriminate |].
  destruct (TokenType_eqb (tok_Type (curToken p)) EOF).
  { injection H as <- _. exists []. simpl. rewrite app_nil_r. reflexivity. }
  destruct (TokenType_eqb (tok_Type (curToken p)) NEXTLINE).
  { apply IH in H. exact H. }
  inv_bind H. apply IH in H as [rest ->].
  exists (a :: rest). rewrite <- app_assoc. reflexivity.
Qed.

(** A call of a function that is not in the function table leaves there a
    record with [Defined = false] that holds the expressions of the call. *)
Lemma parseFnCallExpression_captures (fuel : nat) (fnName : string)
    (tt : Type_) (p p' : Parser) (call : Expression) :
  fns p !! fnName = None ->
  parseFnCallExpression fuel (UnboundedIdentifier fnName) tt p = Ok call p' ->
  exists params,
    call = FnCall fnName params /\
    fns p' !! fnName = Some (mkFnStatement fnName [] [] tt false params).
Proof.
  intros Hl H. destruct fuel as [ | fuel]; [discriminate |].
  cbn [parseFnCallExpression] in H. rewrite Hl in H.
  destruct (TokenType_eqb _ _).
  - injection H as <- <-. exists []. split; [reflexivity |].
    simpl. apply lookup_insert_eq.
  - inv_bind H. injection H as <- <-. exists a. split; [reflexivity |].
    simpl. apply lookup_insert_eq.
Qed.

(** C2: when the function table holds the record of an earlier call of a
    function that is not defined yet, parsing succeeds at the [fn]
    declaration of that function only if the record holds as many
    expressions as the declaration has parameters and each of them verifies
    against the type of its parameter; if the signature is parsed and one of
    the two checks fails, [ParseProgram] returns an error and no program.
    The record is the one the first call left: it holds the expressions of
    that call. *)
Theorem forward_reference_is_reconciled
    (fuel : nat) (p : Parser) (placeholder : FnStatement) :
  tok_Type (curToken p) = FN ->
  fns p !! tok_Literal (peekToken p) = Some placeholder ->
  (forall program,
      returned (ParseProgram fuel p) = Some program ->
      exists stmt rest,
        Statements program = FnStatementNode stmt :: rest /\
        Name stmt = tok_Literal (peekToken p) /\
        reconciled (Args stmt) (ExpressionsToEvaluate placeholder))
  /\ (forall name args p1,
        parseFnSignature fuel p = Ok (name, args) p1 ->
        ~ reconciled args (ExpressionsToEvaluate placeholder) ->
        exists err,
          ParseProgram (S (S (S fuel))) p = Fail err p1 /\
          outcome (ParseProgram (S (S (S fuel))) p) = Rejected err)
  /\ (forall fuel' fnName tt q q' call,
        fns q !! fnName = None ->
        parseFnCallExpression fuel' (UnboundedIdentifier fnName) tt q
          = Ok call q' ->
        exists params,
          call = FnCall fnName params /\
          fns q' !! fnName =
            Some (mkFnStatement fnName [] [] tt false params)).
Proof.
  intros Hfn Hl. split; [| split].
  - intros program Hret. apply returned_Some in Hret as [p' H].
    unfold ParseProgram in H.
    destruct fuel as [ | f1]; [discriminate |]. cbn [parseProgramLoop] in H.
    rewrite Hfn in H. change (TokenType_eqb FN EOF) with false in H.
    change (TokenType_eqb FN NEXTLINE) with false in H. cbn iota in H.
    bind_inv H as node pa Hstmt.
    apply parseProgramLoop_prefix in H as [rest Hrest].
    destruct f1 as [ | f2]; [discriminate |]. cbn [parseStatement] in Hstmt.
    rewrite Hfn in Hstmt. bind_inv Hstmt as stmt pb Hfnstmt.
    injection Hstmt as <- _.
    destruct f2 as [ | f3]; [discriminate |].
    cbn [parseFnStatement] in Hfnstmt.
    bind_inv Hfnstmt as head pc Hhead. bind_inv Hfnstmt as body pd Hbody.
    destruct (checkReturn _ _ _); [discriminate |].
    injection Hfnstmt as <- _.
    unfold parseFnHead in Hhead. bind_inv Hhead as sig pe Hsig.
    destruct sig as [name args].
    apply parseFnSignature_Ok in Hsig as (-> & Hfns & Hdef).
    destruct (reconcile _ _ _) eqn:Hrec; [discriminate |].
    bind_inv Hhead as ret pf Hret. bind_inv Hhead as u pg Hbrace.
    injection Hhead as <- _.
    eexists _, rest.
    split; [exact Hrest |]. split; [reflexivity |]. simpl.
    simpl in Hrec. rewrite <- Hfns in Hl.
    apply (reconcile_None _ _ args _ Hl); [| exact Hrec].
    apply Hdef. rewrite <- Hfns. exact Hl.
  - intros name args p1 Hsig Hn.
    pose proof (parseFnSignature_Ok _ _ _ _ _ Hsig) as (-> & Hfns & Hdef).
    assert (Hrec : exists err,
               reconcile p1 (tok_Literal (peekToken p)) args = Some err).
    { destruct (reconcile p1 (tok_Literal (peekToken p)) args) eqn:Hrec;
        [eauto |].
      exfalso. apply Hn. rewrite <- Hfns in Hl.
      apply (reconcile_None _ _ args _ Hl); [| exact Hrec].
      apply Hdef. rewrite <- Hfns. exact Hl. }
    destruct Hrec as [err Hrec]. exists err.
    assert (H : ParseProgram (S (S (S fuel))) p = Fail err p1).
    { unfold ParseProgram. cbn [parseProgramLoop]. rewrite Hfn.
      change (TokenType_eqb FN EOF) with false.
      change (TokenType_eqb FN NEXTLINE) with false. cbn iota.
      cbn [parseStatement]. rewrite Hfn. cbn [parseFnStatement].
      unfold parseFnHead. rewrite Hsig. cbn [bind fst snd].
      rewrite Hrec. reflexivity. }
    split; [exact H | rewrite H; reflexivity].
  - intros fuel' fnName tt q q' call Hnone Hcall.
    exact (parseFnCallExpression_captures _ _ _ _ _ _ Hnone Hcall).
Qed.

(** After [greet("a")], the declaration ["fn greet(name: string) {}"], token
    by token. *)
Lemma forward_reference_is_reconciled_witness :
  exists stmt rest,
    [FnStatementNode
       (mkFnStatement "greet" [mkArgument "name" String] [] Void false [])]
      = FnStatementNode stmt :: rest /\
    Name stmt = "greet" /\
    reconciled (Args stmt) [StringLiteral "a"].
Proof.
  refine (proj1 (forward_reference_is_reconciled 20
    (mkParser [mkToken LPAREN "(" 2 8; mkToken IDENT "name" 2 9;
               mkToken COLON ":" 2 13; mkToken RAWTYPE "string" 2 15;
               mkToken RPAREN ")" 2 21; mkToken LBRACE "{" 2 23;
               mkToken RBRACE "}" 2 24; mkToken EOF "" 0 0]
              (mkToken FN "fn" 2 0) (mkToken IDENT "greet" 2 3) ∅
              {[ "greet" :=
                   mkFnStatement "greet" [] [] Void false
                                 [StringLiteral "a"] ]})
    (mkFnStatement "greet" [] [] Void false [StringLiteral "a"])
    _ _)
    (mkProgram
       [FnStatementNode
          (mkFnStatement "greet" [mkArgument "name" String] [] Void false
                         [])]) _).
  - reflexivity.
  - vm_compute. reflexivity.
  - vm_compute. reflexivity.
Defined.

(** ** The [Defined] flag *)

(** No declaration is ever recorded as defined: the statement that
    [parseFnStatement] returns and stores has [Defined = false], which is
    why the "function already defined" guard of [parseFnSignature] never
    fires on a record left by a declaration. *)
Lemma parseFnStatement_never_defined (fuel : nat) (p p' : Parser)
    (stmt : FnStatement) :
  parseFnStatement fuel p = Ok stmt p' ->
  Defined stmt = false /\ fns p' !! Name stmt = Some stmt.
Proof.
  intros H. destruct fuel as [ | fuel]; [discriminate |].
  cbn [parseFnStatement] in H.
  bind_inv H as head p1 Hhead. bind_inv H as body p2 Hbody.
  destruct (checkReturn _ _ _); [discriminate |].
  apply Ok_inj in H as [<- <-].
  split; [| simpl; apply lookup_insert_eq].
  unfold parseFnHead in Hhead. bind_inv Hhead as sig p3 Hsig.
  destruct (reconcile _ _ _); [discriminate |].
  bind_inv Hhead as ret p4 Hret. bind_inv Hhead as u p5 Hbrace.
  apply Ok_inj in Hhead as [<- _]. reflexivity.
Qed.

(* ===================================================================== *)
(** * Further properties *)
(* ===================================================================== *)

Import tokenclass.

(** ** The lexer *)


Lemma unread_read (l : Lexer) : r (unread (snd (read l))) = r l.
Proof. unfold read, unread. destruct (r l); reflexivity. Qed.

Lemma read_length (l : Lexer) :
  (length (r (snd (read l))) <= length (r l))%nat.
Proof. unfold read. destruct (r l); simpl; lia. Qed.

Lemma readWhile_length accept fuel buf (l : Lexer) :
  (length (r (snd (readWhile accept fuel buf l))) <= length (r l))%nat.
Proof.
  revert buf l. induction fuel as [ | fuel IH]; intros buf l;
    cbn [readWhile]; [simpl; lia |].
  destruct (read l) as [ch l1] eqn:Hr.
  assert (Hl1 : l1 = snd (read l)) by (rewrite Hr; reflexivity).
  destruct (accept ch).
  - specialize (IH (buf ++ String.String ch "") l1).
    pose proof (read_length l). rewrite <- Hl1 in *. lia.
  - cbn [snd]. rewrite Hl1, unread_read. lia.
Qed.

Lemma append_cons (c : ascii) (a b : string) :
  String.String c a ++ b = String.String c (a ++ b).
Proof. reflexivity. Qed.

Lemma append_snoc (a : string) (ch : ascii) (b : string) :
  (a ++ String.String ch "") ++ b = a ++ String.String ch b.
Proof.
  induction a as [ | c a IH]; [reflexivity |].
  rewrite !append_cons, IH. reflexivity.
Qed.

Lemma append_empty_r (a : string) : a ++ "" = a.
Proof.
  induction a as [ | c a IH]; [reflexivity |].
  rewrite append_cons, IH. reflexivity.
Qed.

Lemma list_ascii_app (a b : string) :
  list_ascii_of_string (a ++ b) =
    (list_ascii_of_string a ++ list_ascii_of_string b)%list.
Proof.
  induction a as [ | c a IH]; [reflexivity |].
  rewrite append_cons. simpl. rewrite IH. reflexivity.
Qed.

(** What [readWhile] appends to the buffer satisfies [accept]. *)
Lemma readWhile_appends accept fuel buf (l : Lexer) :
  exists extra,
    fst (readWhile accept fuel buf l) = buf ++ extra /\
    Forall (fun c => accept c = true) (list_ascii_of_string extra).
Proof.
  revert buf l. induction fuel as [ | fuel IH]; intros buf l;
    cbn [readWhile].
  - exists "". split; [symmetry; apply append_empty_r | constructor].
  - destruct (read l) as [ch l1]. destruct (accept ch) eqn:Ha.
    + destruct (IH (buf ++ String.String ch "") l1) as (extra & -> & HF).
      exists (String.String ch extra). split; [apply append_snoc |].
      simpl. constructor; assumption.
    + exists "". split; [symmetry; apply append_empty_r | constructor].
Qed.

Lemma Keywords_Some (s : string) (kw : TokenType) :
  Keywords s = Some kw ->
  kw = VAR \/ kw = FN \/ kw = CONTINUE \/ kw = IF \/ kw = BREAK \/ kw = RETURN.
Proof.
  unfold Keywords.
  repeat (destruct (String.eqb s _); [intros [= <-]; tauto |]).
  discriminate.
Qed.

Lemma readIdent_spec (l l1 : Lexer) (tok : Token) (ch : ascii)
    (rest : list ascii) :
  r l = ch :: rest -> isLetter ch = true -> readIdent l = (tok, l1) ->
  tok_Type tok = IDENT /\ letters (tok_Literal tok) /\
  (length (r l1) <= length rest)%nat.
Proof.
  intros Hr Hch. unfold readIdent, read. rewrite Hr.
  set (l0 := mkLexer rest _ _ _).
  pose proof (readWhile_length isLetter (S (length (r l0))) (String.String ch "") l0)
    as Hlen.
  destruct (readWhile_appends isLetter (S (length (r l0))) (String.String ch "") l0)
    as (extra & Hbuf & Hextra).
  destruct (readWhile isLetter _ _ l0) as [buf l2].
  cbn [fst snd] in *. intros [= <- <-]. cbn [tok_Type tok_Literal].
  split; [reflexivity |]. split; [| exact Hlen].
  subst buf. split; [discriminate |].
  rewrite append_cons. simpl. constructor; assumption.
Qed.

Lemma peek_rest (l : Lexer) : r (snd (peek l)) = r l.
Proof.
  unfold peek. destruct (read l) as [ch l1] eqn:Hr. cbn [snd].
  replace l1 with (snd (read l)) by (rewrite Hr; reflexivity).
  apply unread_read.
Qed.

(** A rune that [peek] shows is the one the next [read] gives, unless it is
    the 0 of the end of the input. *)
Lemma peek_then_read (l : Lexer) :
  fst (peek l) <> Ascii.zero -> fst (read (snd (peek l))) = fst (peek l).
Proof.
  destruct l as [[ | c rest] last ln col]; unfold peek, read, unread; simpl.
  - congruence.
  - reflexivity.
Qed.

Lemma readNumber_spec (l l1 : Lexer) (tok : Token) (ch : ascii)
    (rest : list ascii) :
  r l = ch :: rest -> isDigit ch = true -> readNumber l = (tok, l1) ->
  (tok_Type tok = INT \/ tok_Type tok = FLOAT) /\ classified tok /\
  (length (r l1) <= length rest)%nat.
Proof.
  intros Hr Hch. unfold readNumber, read at 1. rewrite Hr.
  set (l0 := mkLexer rest _ _ _).
  pose proof (readWhile_length isDigit (S (length (r l0))) (String.String ch "") l0)
    as Hlen.
  destruct (readWhile_appends isDigit (S (length (r l0))) (String.String ch "") l0)
    as (extra & Hbuf & Hextra).
  destruct (readWhile isDigit _ _ l0) as [buf l2].
  subst l0. cbn [fst snd r] in *.
  assert (Hdigits : strconv.digits buf).
  { subst buf. split; [discriminate |].
    rewrite append_cons. simpl. constructor; assumption. }
  pose proof (f_equal (@length ascii) (peek_rest l2)) as Hpk.
  pose proof (peek_then_read l2) as Hdot.
  destruct (peek l2) as [pk l3]. cbn [fst snd] in Hpk, Hdot.
  destruct (Ascii.eqb_spec pk ".") as [-> | _].
  - pose proof (read_length l3) as Hrd.
    specialize (Hdot ltac:(discriminate)).
    destruct (read l3) as [dot l4]. cbn [fst snd] in Hrd, Hdot. subst dot.
    pose proof (readWhile_length isDigit (S (length (r l4)))
                  (buf ++ String.String "."%char "") l4) as Hlen2.
    destruct (readWhile_appends isDigit (S (length (r l4)))
                (buf ++ String.String "."%char "") l4) as (frac & Hbuf2 & Hfrac).
    destruct (readWhile isDigit _ _ l4) as [buf' l5]. cbn [fst snd] in *.
    intros [= <- <-]. split; [right; reflexivity |]. split; [| lia].
    unfold classified. cbn [tok_Type tok_Literal].
    exists buf, frac. rewrite Hbuf2, append_snoc. auto.
  - intros [= <- <-]. split; [left; reflexivity |].
    split; [exact Hdigits | lia].
Qed.

(** One round of the lexer: the token it yields is classified, and the round
    either yields the [EOF] token or consumes input. *)
Lemma scan_spec (l l' : Lexer) (ot : option Token) :
  scan l = (ot, l') ->
  (forall tok, ot = Some tok -> classified tok) /\
  (ot = Some (mkToken EOF "" 0 0) \/
   ((length (r l') < length (r l))%nat /\
    forall tok, ot = Some tok -> tok_Type tok <> EOF)).
Proof.
  unfold scan, read. destruct (r l) as [ | ch rest] eqn:Hr.
  { lazy. intros [= <- <-]. split; [| left; reflexivity].
    intros tok [= <-]. reflexivity. }
  set (l0 := mkLexer rest (Some ch) (line l) (column l + 1)).
  cbv zeta.
  destruct (Ascii.eqb_spec ch "010") as [-> | _].
  { intros [= <- <-]. split; [intros tok [= <-]; reflexivity |].
    right. simpl. split; [lia | intros tok [= <-]; discriminate]. }
  destruct (isWhitespace ch) eqn:Hws.
  { intros [= <- <-]. split; [discriminate |].
    right. simpl. split; [lia | discriminate]. }
  destruct (isLetter ch) eqn:Hlet.
  { destruct (readIdent (unread l0)) as [tok l1] eqn:Hid.
    apply (readIdent_spec _ _ _ ch rest) in Hid as (Hty & Hlit & Hlen);
      [| reflexivity | exact Hlet].
    intros [= <- <-]. split.
    - intros tok' [= <-]. unfold classified. cbn [tok_Type tok_Literal].
      destruct (Keywords (tok_Literal tok)) as [kw | ] eqn:Hkw.
      + destruct (Keywords_Some _ _ Hkw) as [-> | [-> | [-> | [-> | [-> | ->]]]]];
          reflexivity.
      + rewrite Hty. split; [exact Hlit | reflexivity].
    - right. cbn [length]. split; [lia |]. intros tok' [= <-].
      cbn [tok_Type].
      destruct (Keywords (tok_Literal tok)) as [kw | ] eqn:Hkw.
      + destruct (Keywords_Some _ _ Hkw) as [-> | [-> | [-> | [-> | [-> | ->]]]]];
          discriminate.
      + rewrite Hty. discriminate. }
  destruct (isDigit ch) eqn:Hdig.
  { destruct (readNumber (unread l0)) as [tok l1] eqn:Hnum.
    apply (readNumber_spec _ _ _ ch rest) in Hnum as (Hty & Hcl & Hlen);
      [| reflexivity | exact Hdig].
    intros [= <- <-]. split.
    - intros tok' [= <-]. unfold classified in *.
      cbn [tok_Type tok_Literal].
      destruct Hty as [Hty | Hty]; rewrite Hty in *; exact Hcl.
    - right. cbn [length]. split; [lia |]. intros tok' [= <-].
      cbn [tok_Type]. destruct Hty as [-> | ->]; discriminate. }
  repeat match goal with
    | |- context [Ascii.eqb ch ?c] =>
        destruct (Ascii.eqb_spec ch c) as [-> | _];
        [ intros [= <- <-]; split; [intros tok [= <-]; reflexivity |];
          first [ left; reflexivity
                | right; simpl; split;
                  [lia | intros tok [= <-]; discriminate] ] | ]
    end.
  intros [= <- <-]. split.
  - intros tok [= <-]. unfold classified. cbn [tok_Type].
    exists ch. repeat split; assumption.
  - right. simpl. split; [lia | intros tok [= <-]; discriminate].
Qed.

Lemma tokensFrom_spec (fuel : nat) (l : Lexer) :
  (length (r l) < fuel)%nat ->
  Forall classified (tokensFrom fuel l) /\
  exists toks,
    tokensFrom fuel l = (toks ++ [mkToken EOF "" 0 0])%list /\
    Forall (fun tok => tok_Type tok <> EOF) toks.
Proof.
  revert l. induction fuel as [ | fuel IH]; intros l Hfuel; [lia |].
  cbn [tokensFrom]. destruct (scan l) as [ot l1] eqn:Hscan.
  destruct (scan_spec _ _ _ Hscan) as [Hcl Hprog].
  destruct Hprog as [-> | [Hlen Hne]].
  - change (TokenType_eqb (tok_Type (mkToken EOF "" 0 0)) EOF) with true.
    cbn iota. split.
    + constructor; [reflexivity | constructor].
    + exists []. split; [reflexivity | constructor].
  - destruct (IH l1 ltac:(lia)) as (Hall & toks & Heq & Htoks).
    destruct ot as [tok | ].
    + assert (E : TokenType_eqb (tok_Type tok) EOF = false).
      { apply bool_decide_eq_false. apply Hne. reflexivity. }
      rewrite E. split.
      * constructor; [apply Hcl; reflexivity | exact Hall].
      * exists (tok :: toks). rewrite Heq. split; [reflexivity |].
        constructor; [apply Hne; reflexivity | exact Htoks].
    + split; [exact Hall |]. exists toks. split; assumption.
Qed.

(** X1: the token sequence of every source text ends with the [EOF] token
    and has no other [EOF] token: the lexer terminates on every input. *)
Theorem NextToken_ends_with_EOF (input : string) :
  exists toks,
    NextToken (NewLexer input) = (toks ++ [mkToken EOF "" 0 0])%list /\
    Forall (fun tok => tok_Type tok <> EOF) toks.
Proof.
  unfold NextToken. apply tokensFrom_spec. lia.
Qed.

(** X2: every token of every ASCII source text is classified: an identifier
    is a non-empty string of letters that is no keyword, a keyword token has
    the kind of its literal, an integer is a non-empty string of digits, a
    float is such a string, a dot and digits, a punctuation token has its
    character, an illegal token holds one rune that is no letter, digit or
    blank; no token has the kind [MAIN], [COLON], [RAWTYPE] or [STRING]. *)
Theorem NextToken_classified (input : string) :
  isASCII input ->
  Forall classified (NextToken (NewLexer input)).
Proof.
  intros _. unfold NextToken. apply tokensFrom_spec. lia.
Qed.

(** ** The text of the tokens *)

Lemma list_ascii_snoc (buf : string) (ch : ascii) :
  list_ascii_of_string (buf ++ String.String ch "") =
  (list_ascii_of_string buf ++ [ch])%list.
Proof.
  induction buf as [ | c buf IH]; [reflexivity |].
  rewrite append_cons. simpl. rewrite IH. reflexivity.
Qed.

(** What [readWhile] adds to the buffer is what it takes from the text. *)
Lemma readWhile_exact accept fuel buf (l : Lexer) :
  accept Ascii.zero = false ->
  exists pre,
    list_ascii_of_string (fst (readWhile accept fuel buf l)) =
      (list_ascii_of_string buf ++ pre)%list /\
    r l = (pre ++ r (snd (readWhile accept fuel buf l)))%list /\
    Forall (fun c => accept c = true) pre.
Proof.
  intros Hzero. revert buf l.
  induction fuel as [ | fuel IH]; intros buf l; cbn [readWhile].
  { exists []. rewrite app_nil_r. repeat split; constructor. }
  unfold read. destruct (r l) as [ | ch rest] eqn:Hr.
  { rewrite Hzero. exists []. rewrite app_nil_r. cbn [fst snd].
    unfold unread. cbn [r lastRune]. repeat split; constructor. }
  destruct (accept ch) eqn:Ha.
  - destruct (IH (buf ++ String.String ch "")
                (mkLexer rest (Some ch) (line l) (column l + 1)))
      as (pre & Hbuf & Hrest & Hpre).
    exists (ch :: pre). rewrite Hbuf, list_ascii_snoc, <- app_assoc.
    cbn [r] in Hrest. split; [reflexivity |]. split.
    + simpl. f_equal. exact Hrest.
    + constructor; assumption.
  - exists []. rewrite app_nil_r. cbn [fst snd]. unfold unread.
    cbn [r lastRune]. repeat split; constructor.
Qed.

Lemma letter_kept (ch : ascii) : isLetter ch = true -> kept ch = true.
Proof.
  destruct ch as [[] [] [] [] [] [] [] []]; vm_compute; congruence.
Qed.

Lemma digit_kept (ch : ascii) : isDigit ch = true -> kept ch = true.
Proof.
  destruct ch as [[] [] [] [] [] [] [] []]; vm_compute; congruence.
Qed.

Lemma letter_not_zero (ch : ascii) : isLetter ch = true -> ch <> Ascii.zero.
Proof. intros H ->. discriminate. Qed.

Lemma digit_not_zero (ch : ascii) : isDigit ch = true -> ch <> Ascii.zero.
Proof. intros H ->. discriminate. Qed.

Lemma readIdent_exact (l l1 : Lexer) (tok : Token) (ch : ascii)
    (rest : list ascii) :
  r l = ch :: rest -> isLetter ch = true -> readIdent l = (tok, l1) ->
  r l = (list_ascii_of_string (tok_Literal tok) ++ r l1)%list /\
  Forall (fun c => isLetter c = true) (list_ascii_of_string (tok_Literal tok)).
Proof.
  intros Hr Hch. unfold readIdent, read. rewrite Hr.
  set (l0 := mkLexer rest _ _ _).
  destruct (readWhile_exact isLetter (S (length (r l0)))
              (String.String ch "") l0 eq_refl) as (pre & Hbuf & Hrest & Hpre).
  destruct (readWhile isLetter _ _ l0) as [buf l2]. cbn [fst snd] in *.
  intros [= <- <-]. cbn [tok_Literal]. rewrite Hbuf.
  subst l0. cbn [r] in Hrest. split.
  - simpl. f_equal. exact Hrest.
  - constructor; assumption.
Qed.

Lemma readNumber_exact (l l1 : Lexer) (tok : Token) (ch : ascii)
    (rest : list ascii) :
  r l = ch :: rest -> isDigit ch = true -> readNumber l = (tok, l1) ->
  r l = (list_ascii_of_string (tok_Literal tok) ++ r l1)%list /\
  Forall (fun c => isDigit c = true \/ c = "."%char)
         (list_ascii_of_string (tok_Literal tok)).
Proof.
  intros Hr Hch. unfold readNumber, read at 1. rewrite Hr.
  set (l0 := mkLexer rest _ _ _).
  destruct (readWhile_exact isDigit (S (length (r l0)))
              (String.String ch "") l0 eq_refl) as (pre & Hbuf & Hrest & Hpre).
  destruct (readWhile isDigit _ _ l0) as [buf l2]. cbn [fst snd] in *.
  subst l0. cbn [r] in Hrest.
  assert (Hwhole : Forall (fun c => isDigit c = true \/ c = "."%char)
                          (ch :: pre)).
  { constructor; [left; exact Hch |].
    eapply Forall_impl; [exact Hpre |]. intros c Hc; left; exact Hc. }
  unfold peek, read at 1.
  destruct (r l2) as [ | pk rest2] eqn:Hr2.
  - (* the end of the text: [peek] gives 0 *)
    change (Ascii.eqb Ascii.zero ".") with false. cbn iota.
    intros [= <- <-]. cbn [tok_Literal]. rewrite Hbuf.
    unfold unread. cbn [r lastRune]. split; [| exact Hwhole].
    simpl. f_equal. exact Hrest.
  - destruct (Ascii.eqb_spec pk ".") as [-> | _].
    + unfold read at 1. unfold unread at 1. cbn [r lastRune].
      set (l4 := mkLexer rest2 _ _ _).
      destruct (readWhile_exact isDigit (S (length (r l4)))
                  (buf ++ String.String "."%char "") l4 eq_refl)
        as (frac & Hbuf2 & Hrest2 & Hfrac).
      destruct (readWhile isDigit _ _ l4) as [buf' l5]. cbn [fst snd] in *.
      subst l4. cbn [r] in Hrest2.
      intros [= <- <-]. cbn [tok_Literal].
      rewrite Hbuf2, list_ascii_snoc, Hbuf, <- !app_assoc. split.
      * rewrite Hrest, Hrest2. simpl. rewrite <- ?app_assoc. reflexivity.
      * change (Forall (fun c => isDigit c = true \/ c = "."%char)
                  ((ch :: pre) ++ "."%char :: frac)%list).
        apply Forall_app. split; [exact Hwhole |].
        constructor; [right; reflexivity |].
        eapply Forall_impl; [exact Hfrac |]. intros c Hc; left; exact Hc.
    + intros [= <- <-]. cbn [tok_Literal]. rewrite Hbuf.
      unfold unread. cbn [r lastRune]. split; [| exact Hwhole].
      simpl. f_equal. exact Hrest.
Qed.

Lemma filter_all {A : Type} (f : A -> bool) (l : list A) :
  Forall (fun x => f x = true) l -> List.filter f l = l.
Proof.
  induction 1 as [ | x l Hx _ IH]; [reflexivity |].
  simpl. rewrite Hx, IH. reflexivity.
Qed.

Lemma beforeNul_app (pre rest : list ascii) :
  Forall (fun c => c <> Ascii.zero) pre ->
  beforeNul (pre ++ rest) = (pre ++ beforeNul rest)%list.
Proof.
  induction 1 as [ | c pre Hc _ IH]; [reflexivity |].
  simpl. destruct (Ascii.eqb_spec c Ascii.zero) as [-> | _];
    [contradiction | rewrite IH; reflexivity].
Qed.

(** One round of the lexer either stops at the end of the text or at a NUL
    rune, or takes a piece of the text without NUL and yields what is kept
    of it. *)
Lemma scan_exact (l l' : Lexer) (ot : option Token) :
  scan l = (ot, l') ->
  (ot = Some (mkToken EOF "" 0 0) /\ beforeNul (r l) = []) \/
  (exists pre,
      r l = (pre ++ r l')%list /\
      Forall (fun c => c <> Ascii.zero) pre /\
      List.filter kept pre = yield ot /\
      (length (r l') < length (r l))%nat /\
      forall tok, ot = Some tok -> tok_Type tok <> EOF).
Proof.
  unfold scan, read. destruct (r l) as [ | ch rest] eqn:Hr.
  { lazy. intros [= <- <-]. left. split; reflexivity. }
  set (l0 := mkLexer rest (Some ch) (line l) (column l + 1)).
  cbv zeta.
  destruct (Ascii.eqb_spec ch "010") as [-> | _].
  { intros [= <- <-]. right. exists ["010"%char]. cbn [r].
    refine (conj eq_refl (conj _ (conj eq_refl (conj _ _)))).
    - constructor; [discriminate | constructor].
    - simpl. lia.
    - intros tok [= <-]. discriminate. }
  destruct (isWhitespace ch) eqn:Hws.
  { intros [= <- <-]. right. exists [ch]. cbn [r].
    refine (conj eq_refl (conj _ (conj _ (conj _ _)))).
    - constructor; [| constructor]. intros ->. discriminate.
    - unfold kept. simpl. rewrite Hws. reflexivity.
    - simpl. lia.
    - discriminate. }
  destruct (isLetter ch) eqn:Hlet.
  { destruct (readIdent (unread l0)) as [tok l1] eqn:Hid.
    pose proof (readIdent_spec (unread l0) _ _ ch rest eq_refl Hlet Hid)
      as (Hty & _ & Hlen).
    apply (readIdent_exact _ _ _ ch rest) in Hid as (Hrest & Hall);
      [| reflexivity | exact Hlet].
    intros [= <- <-]. right. cbn [yield tok_Literal].
    exists (list_ascii_of_string (tok_Literal tok)).
    refine (conj Hrest (conj _ (conj _ (conj _ _)))).
    - eapply Forall_impl; [exact Hall |]. apply letter_not_zero.
    - apply filter_all. eapply Forall_impl; [exact Hall |]. apply letter_kept.
    - simpl. lia.
    - intros tok' [= <-]. cbn [tok_Type].
      destruct (Keywords (tok_Literal tok)) as [kw | ] eqn:Hkw.
      + destruct (Keywords_Some _ _ Hkw) as [-> | [-> | [-> | [-> | [-> | ->]]]]];
          discriminate.
      + rewrite Hty. discriminate. }
  destruct (isDigit ch) eqn:Hdig.
  { destruct (readNumber (unread l0)) as [tok l1] eqn:Hnum.
    pose proof (readNumber_spec (unread l0) _ _ ch rest eq_refl Hdig Hnum)
      as (Hty & _ & Hlen).
    apply (readNumber_exact _ _ _ ch rest) in Hnum as (Hrest & Hall);
      [| reflexivity | exact Hdig].
    intros [= <- <-]. right. cbn [yield tok_Literal].
    exists (list_ascii_of_string (tok_Literal tok)).
    refine (conj Hrest (conj _ (conj _ (conj _ _)))).
    - eapply Forall_impl; [exact Hall |].
      intros c [Hc | ->]; [apply digit_not_zero; exact Hc | discriminate].
    - apply filter_all. eapply Forall_impl; [exact Hall |].
      intros c [Hc | ->]; [apply digit_kept; exact Hc | reflexivity].
    - simpl. lia.
    - intros tok' [= <-]. cbn [tok_Type].
      destruct Hty as [-> | ->]; discriminate. }
  repeat match goal with
    | |- context [Ascii.eqb ch ?c] =>
        destruct (Ascii.eqb_spec ch c) as [-> | ?];
        [ intros [= <- <-];
          first [ left; split; reflexivity
                | right; eexists [_]; cbn [r];
                  refine (conj eq_refl (conj _ (conj eq_refl (conj _ _))));
                  [ constructor; [discriminate | constructor]
                  | simpl; lia
                  | intros tok [= <-]; discriminate ] ] | ]
    end.
  intros [= <- <-]. right. exists [ch]. cbn [r yield tok_Literal].
  refine (conj eq_refl (conj _ (conj _ (conj _ _)))).
  - constructor; [assumption | constructor].
  - unfold kept. simpl. rewrite Hws. reflexivity.
  - simpl. lia.
  - intros tok [= <-]. discriminate.
Qed.

Lemma tokensFrom_exact (fuel : nat) (l : Lexer) :
  (length (r l) < fuel)%nat ->
  literals (tokensFrom fuel l) = List.filter kept (beforeNul (r l)).
Proof.
  revert l. induction fuel as [ | fuel IH]; intros l Hfuel; [lia |].
  cbn [tokensFrom]. destruct (scan l) as [ot l1] eqn:Hscan.
  destruct (scan_exact _ _ _ Hscan)
    as [[-> Hnul] | (pre & Hr & Hpre & Hkept & Hlen & Hne)].
  { rewrite Hnul. reflexivity. }
  rewrite Hr, beforeNul_app, List.filter_app, Hkept by exact Hpre.
  rewrite <- (IH l1) by lia.
  destruct ot as [tok | ]; [| reflexivity].
  assert (E : TokenType_eqb (tok_Type tok) EOF = false).
  { apply bool_decide_eq_false. apply Hne. reflexivity. }
  rewrite E. reflexivity.
Qed.

(** X19: the lexer loses nothing but blanks: the literals of the tokens of
    an ASCII source text, one after the other, are the text up to its first
    NUL rune (or all of it) without the spaces, tabs and carriage returns. *)
Theorem NextToken_keeps_the_text (input : string) :
  isASCII input ->
  literals (NextToken (NewLexer input)) =
  List.filter kept (beforeNul (list_ascii_of_string input)).
Proof. intros _. unfold NextToken. apply tokensFrom_exact. lia. Qed.

(** ** The verifier and the parser *)

(** X3: every [INT] token of every source text is stored by
    [parseIntegerLiteral] as the number it denotes, clamped to the largest
    64-bit value. *)
Theorem lexed_integer_is_clamped (input : string) :
  Forall (fun tok =>
            tok_Type tok = INT ->
            forall p, curToken p = tok ->
              parseIntegerLiteral p =
                IntegerLiteral
                  (Z.min (strconv.decimal (tok_Literal tok)) (2 ^ 63 - 1)))
         (NextToken (NewLexer input)).
Proof.
  unfold NextToken.
  destruct (tokensFrom_spec (S (length (r (NewLexer input))))
              (NewLexer input)) as [Hall _]; [lia |].
  eapply Forall_impl; [exact Hall |].
  intros tok Hcl Hty p Hp. unfold parseIntegerLiteral. rewrite Hp.
  unfold classified in Hcl. rewrite Hty in Hcl.
  rewrite (ParseInt_digits _ Hcl). reflexivity.
Qed.

(** X4: no expression verifies both as [Int32] and as [String]. *)
Theorem Int32_and_String_exclude_each_other (e : Expression) :
  ~ (Verify Int32 e = None /\ Verify String e = None).
Proof.
  simpl. induction e as [ | f ps | v | v t | v | v | v | lhs IHl op rhs IHr | op rhs IH ];
    simpl; intros [H1 H2]; try discriminate.
  - destruct (decide (t = Int32)) as [-> | ]; [| discriminate].
    destruct (decide (Int32 = String)); discriminate.
  - destruct (verifyInt32 lhs); [discriminate |].
    destruct (verifyString lhs); [discriminate |]. apply IHl. split; reflexivity.
Qed.

(** The operator loop returns only what [Verify] lets through. *)
Lemma parseExpressionLoop_verified (fuel : nat) (precedence : Z) (tt : Type_)
    (leftExp e : Expression) (p p' : Parser) :
  LOWEST <= precedence ->
  parseExpressionLoop fuel precedence tt leftExp p = Ok e p' ->
  Verify tt e = None.
Proof.
  intros Hprec. revert leftExp p.
  induction fuel as [ | fuel IH]; intros leftExp p H; [discriminate |].
  cbn [parseExpressionLoop] in H.
  destruct (negb (peekTokenIs SEMICOLON p)
            && (precedence <? peekPrecedence p)%Z) eqn:Hcond.
  - apply andb_true_iff in Hcond as [_ Hlt]. apply Z.ltb_lt in Hlt.
    unfold peekPrecedence, precedences, LOWEST in *.
    destruct (tok_Type (peekToken p)); try lia;
      (bind_inv H as exp q Hsub; exact (IH _ _ H)).
  - destruct (Verify tt leftExp) eqn:Hv; [discriminate |].
    apply Ok_inj in H as [<- _]. exact Hv.
Qed.

(** What [parseExpression] returns passed [Verify], unless it is the nil
    expression of the default case. *)
Lemma parseExpression_checked (fuel : nat) (precedence : Z) (tt : Type_)
    (e : Expression) (p p' : Parser) :
  LOWEST <= precedence ->
  parseExpression fuel precedence tt p = Ok e p' ->
  Verify tt e = None \/
  (e = NilExpression /\ p' = p /\
   beginsExpression (tok_Type (curToken p)) = false).
Proof.
  intros Hprec H. destruct fuel as [ | fuel]; [discriminate |].
  cbn [parseExpression] in H.
  destruct (tok_Type (curToken p)) eqn:Hty;
    try (apply Ok_inj in H as [<- <-]; right; repeat split; reflexivity);
    left.
  - destruct (vars p !! tok_Literal (curToken p)); [| discriminate].
    exact (parseExpressionLoop_verified _ _ _ _ _ _ _ Hprec H).
  - exact (parseExpressionLoop_verified _ _ _ _ _ _ _ Hprec H).
  - bind_inv H as expression q Hg.
    exact (parseExpressionLoop_verified _ _ _ _ _ _ _ Hprec H).
  - exact (parseExpressionLoop_verified _ _ _ _ _ _ _ Hprec H).
  - exact (parseExpressionLoop_verified _ _ _ _ _ _ _ Hprec H).
Qed.

(** X5: when a precedence of at least [LOWEST] is asked for, as every caller
    does, what [parseExpression] returns was accepted by [Verify] for the
    type context, or it is the nil expression of a token that cannot begin
    an expression, returned with nothing consumed. *)
Theorem parseExpression_verified (fuel : nat) (precedence : Z) (tt : Type_)
    (e : Expression) (p p' : Parser) :
  LOWEST <= precedence ->
  parseExpression fuel precedence tt p = Ok e p' ->
  Verify tt e = None \/
  (e = NilExpression /\ p' = p /\
   beginsExpression (tok_Type (curToken p)) = false).
Proof. exact (parseExpression_checked fuel precedence tt e p p'). Qed.

Lemma keeps_refl (p : Parser) : keeps p p.
Proof. split; [reflexivity | auto]. Qed.

Lemma keeps_trans (p q s : Parser) : keeps p q -> keeps q s -> keeps p s.
Proof. intros [Hv Hf] [Hv' Hf']. split; [congruence | auto]. Qed.

Lemma nextToken_vars (p : Parser) : vars (nextToken p) = vars p.
Proof.
  unfold nextToken. destruct (TokenType_eqb _ _); [reflexivity |].
  destruct (tokens p); reflexivity.
Qed.

Lemma keeps_nextToken (p : Parser) : keeps p (nextToken p).
Proof.
  split; [apply nextToken_vars |]. intros name s. rewrite nextToken_fns. auto.
Qed.

Lemma keeps_setFn (p q : Parser) (name : string) (fnStmt : FnStatement) :
  fns p !! name = None -> keeps p q -> keeps p (setFn q name fnStmt).
Proof.
  intros Hnone [Hv Hf]. split; [exact Hv |]. intros n s Hl. simpl.
  destruct (decide (name = n)) as [-> | Hne]; [congruence |].
  rewrite lookup_insert_ne by exact Hne. auto.
Qed.

Lemma keeps_consume (expected : TokenType) (p q : Parser) (u : unit) :
  consumeOrFail expected p = Ok u q -> keeps p q.
Proof. intros H. apply consumeOrFail_Ok in H as [-> _]. apply keeps_nextToken. Qed.

Lemma expression_parsing_keeps (fuel : nat) :
  (forall precedence tt p e p',
      parseExpression fuel precedence tt p = Ok e p' -> keeps p p') /\
  (forall precedence tt leftExp p e p',
      parseExpressionLoop fuel precedence tt leftExp p = Ok e p' ->
      keeps p p') /\
  (forall tt p e p', parseGroupedExpression fuel tt p = Ok e p' -> keeps p p') /\
  (forall left_ tt p e p',
      parseInfixExpression fuel left_ tt p = Ok e p' -> keeps p p') /\
  (forall left_ tt p e p',
      parseFnCallExpression fuel left_ tt p = Ok e p' -> keeps p p') /\
  (forall fnName args idx params p e p',
      parseKnownParams fuel fnName args idx params p = Ok e p' ->
      keeps p p') /\
  (forall params p ps p',
      parseUnknownParams fuel params p = Ok ps p' -> keeps p p').
Proof.
  induction fuel as [ | fuel (IHe & IHl & IHg & IHi & IHc & IHk & IHu)].
  { refine (conj _ (conj _ (conj _ (conj _ (conj _ (conj _ _))))));
      intros; discriminate. }
  refine (conj _ (conj _ (conj _ (conj _ (conj _ (conj _ _)))))).
  - intros precedence tt p e p' H. cbn [parseExpression] in H.
    destruct (tok_Type (curToken p));
      try (apply Ok_inj in H as [_ <-]; apply keeps_refl);
      try exact (IHl _ _ _ _ _ _ H).
    + destruct (vars p !! _); [exact (IHl _ _ _ _ _ _ H) | discriminate].
    + bind_inv H as expression q Hg.
      exact (keeps_trans _ _ _ (IHg _ _ _ _ Hg) (IHl _ _ _ _ _ _ H)).
  - intros precedence tt leftExp p e p' H. cbn [parseExpressionLoop] in H.
    destruct (negb _ && _).
    + destruct (tok_Type (peekToken p));
        try (apply Ok_inj in H as [_ <-]; apply keeps_refl);
        bind_inv H as exp q Hsub;
        (eapply keeps_trans; [apply keeps_nextToken |]);
        (eapply keeps_trans; [| exact (IHl _ _ _ _ _ _ H)]).
      all: first [exact (IHi _ _ _ _ _ Hsub) | exact (IHc _ _ _ _ _ Hsub)].
    + destruct (Verify tt leftExp); [discriminate |].
      apply Ok_inj in H as [_ <-]. apply keeps_refl.
  - intros tt p e p' H. cbn [parseGroupedExpression] in H.
    bind_inv H as exp q Hsub. bind_inv H as u q' Hc.
    apply Ok_inj in H as [_ <-].
    eapply keeps_trans; [apply keeps_nextToken |].
    eapply keeps_trans; [exact (IHe _ _ _ _ _ Hsub) |].
    exact (keeps_consume _ _ _ _ Hc).
  - intros left_ tt p e p' H. cbn [parseInfixExpression] in H.
    bind_inv H as exp q Hsub. apply Ok_inj in H as [_ <-].
    eapply keeps_trans; [apply keeps_nextToken | exact (IHe _ _ _ _ _ Hsub)].
  - intros left_ tt p e p' H. cbn [parseFnCallExpression] in H.
    destruct left_; try discriminate.
    destruct (fns p !! Value) as [fnStmt | ] eqn:Hl.
    + destruct (TokenType_eqb _ _).
      * apply Ok_inj in H as [_ <-]. apply keeps_nextToken.
      * exact (IHk _ _ _ _ _ _ _ H).
    + destruct (TokenType_eqb _ _).
      * apply Ok_inj in H as [_ <-].
        apply keeps_setFn; [exact Hl | apply keeps_nextToken].
      * bind_inv H as params q Hsub. apply Ok_inj in H as [_ <-].
        apply keeps_setFn; [exact Hl | exact (IHu _ _ _ _ Hsub)].
  - intros fnName args idx params p e p' H. cbn [parseKnownParams] in H.
    destruct args as [ | a args]; [discriminate |].
    destruct (parseExpression fuel LOWEST (arg_Type a) p) as [arg q | | | ] eqn:Hsub;
      try discriminate.
    eapply keeps_trans; [exact (IHe _ _ _ _ _ Hsub) |].
    destruct (peekTokenIs RPAREN q).
    + apply Ok_inj in H as [_ <-]. apply keeps_nextToken.
    + bind_inv H as u q' Hc.
      exact (keeps_trans _ _ _ (keeps_consume _ _ _ _ Hc)
               (IHk _ _ _ _ _ _ _ H)).
  - intros params p ps p' H. cbn [parseUnknownParams] in H.
    destruct (parseExpression fuel LOWEST Void p) as [arg q | | | ] eqn:Hsub;
      try discriminate.
    eapply keeps_trans; [exact (IHe _ _ _ _ _ Hsub) |].
    destruct (peekTokenIs RPAREN q).
    + apply Ok_inj in H as [_ <-]. apply keeps_nextToken.
    + bind_inv H as u q' Hc.
      exact (keeps_trans _ _ _ (keeps_consume _ _ _ _ Hc) (IHu _ _ _ _ H)).
Qed.


Lemma sound_fn (tt : Type_) (s : FnStatement) :
  sound tt (FnStatementNode s) <->
  ReturnType s <> Float32 /\
  Forall (fun a => declarable (arg_Type a)) (Args s) /\
  Defined s = false /\ Forall (sound (ReturnType s)) (Body s).
Proof.
  destruct s as [name args body rt defined exprs]. cbn [sound ReturnType Args Defined Body].
  assert (H : (fix all (l : list Node) : Prop :=
                 match l with
                 | [] => True
                 | n :: l => sound rt n /\ all l
                 end) body <-> Forall (sound rt) body).
  { induction body as [ | n body IH]; [split; constructor |].
    split.
    - intros [Hn Hb]. constructor; [exact Hn | apply IH; exact Hb].
    - intros HF. inversion HF; subst. split; [assumption | apply IH; assumption]. }
  rewrite H. reflexivity.
Qed.

Lemma parseExpression_soundValue fuel tt e (p p' : Parser) :
  parseExpression fuel LOWEST tt p = Ok e p' -> soundValue tt e.
Proof.
  intros H. destruct (parseExpression_checked _ _ _ _ _ _ (Z.le_refl _) H)
    as [Hv | (-> & _)]; [right; exact Hv | left; reflexivity].
Qed.

Lemma getTypeFromLiteral_declarable (literal : string) (t : Type_) :
  getTypeFromLiteral literal = Some t -> declarable t.
Proof.
  intros H. destruct (getTypeFromLiteral_Some _ _ H) as [[_ ->] | [_ ->]];
    [left | right]; reflexivity.
Qed.

(** What a successful [parseVarStatement] gives. *)
Lemma parseVarStatement_Ok (fuel : nat) (p p' : Parser)
    (stmt : VarStatement) :
  parseVarStatement fuel p = Ok stmt p' ->
  var_Name stmt = tok_Literal (peekToken p) /\
  (var_Type stmt = Void \/ declarable (var_Type stmt)) /\
  soundValue (var_Type stmt) (var_Value stmt) /\
  vars p' = <[var_Name stmt := stmt]> (vars p) /\
  (forall name fnStmt,
      fns p !! name = Some fnStmt -> fns p' !! name = Some fnStmt).
Proof.
  unfold parseVarStatement. intros H.
  bind_inv H as u1 p1 H1. apply consumeOrFail_Ok in H1 as [-> _].
  rewrite nextToken_cur in H.
  bind_inv H as type p2 Hty.
  assert (Ht : (type = Void \/ declarable type) /\ keeps (nextToken p) p2).
  { destruct (TokenType_eqb _ _).
    - bind_inv Hty as u2 p3 H3. apply keeps_consume in H3.
      destruct (getTypeFromLiteral _) eqn:Hg; [| discriminate].
      apply Ok_inj in Hty as [<- <-].
      split; [right; exact (getTypeFromLiteral_declarable _ _ Hg) |].
      exact (keeps_trans _ _ _ (keeps_nextToken _) H3).
    - apply Ok_inj in Hty as [<- <-]. split; [left; reflexivity |].
      apply keeps_refl. }
  destruct Ht as [Ht Hk2].
  bind_inv H as u3 p4 H4. apply keeps_consume in H4.
  bind_inv H as expression p5 He.
  destruct (negb _); [discriminate |].
  apply Ok_inj in H as [<- <-]. cbn [var_Name var_Type var_Value].
  pose proof (proj1 (expression_parsing_keeps fuel) _ _ _ _ _ He) as H5.
  assert (Hk : keeps p p5).
  { eapply keeps_trans; [apply keeps_nextToken |].
    eapply keeps_trans; [exact Hk2 |].
    eapply keeps_trans; [exact H4 |].
    eapply keeps_trans; [apply keeps_nextToken | exact H5]. }
  split; [reflexivity |]. split; [exact Ht |].
  split; [exact (parseExpression_soundValue _ _ _ _ _ He) |].
  destruct Hk as [Hv Hf]. split.
  - rewrite nextToken_vars. simpl. rewrite Hv. reflexivity.
  - intros name fnStmt Hl. rewrite nextToken_fns. simpl. auto.
Qed.

(** The type of an accepted [var] declaration is the one of its annotation:
    [Void] when the token after the name is no colon, and otherwise what
    [getTypeFromLiteral] makes of the raw-type token after the colon. *)
Lemma parseVarStatement_type (fuel : nat) (p p' : Parser)
    (stmt : VarStatement) :
  parseVarStatement fuel p = Ok stmt p' ->
  (tok_Type (peekToken (nextToken p)) <> COLON -> var_Type stmt = Void) /\
  (tok_Type (peekToken (nextToken p)) = COLON ->
   tok_Type (peekToken (nextToken (nextToken p))) = RAWTYPE /\
   getTypeFromLiteral (tok_Literal (peekToken (nextToken (nextToken p)))) =
     Some (var_Type stmt)).
Proof.
  unfold parseVarStatement. intros H.
  bind_inv H as u1 p1 H1. apply consumeOrFail_Ok in H1 as [-> _].
  bind_inv H as type p2 Hty.
  bind_inv H as u3 p4 H4. bind_inv H as expression p5 He.
  destruct (negb _); [discriminate |].
  apply Ok_inj in H as [<- <-]. cbn [var_Type].
  destruct (TokenType_eqb _ _) eqn:Hc.
  - apply bool_decide_eq_true in Hc.
    bind_inv Hty as u2 p3 H3. apply consumeOrFail_Ok in H3 as [-> Hraw].
    rewrite nextToken_cur in Hty.
    destruct (getTypeFromLiteral _) eqn:Hg; [| discriminate].
    apply Ok_inj in Hty as [<- <-].
    split; [intros Hn; contradiction | intros _].
    split; [exact Hraw | reflexivity].
  - apply bool_decide_eq_false in Hc. apply Ok_inj in Hty as [<- <-].
    split; [reflexivity | intros Hn; contradiction].
Qed.

(** X7: a [var] declaration that is accepted has the name of the token after
    [var].  Its type follows its annotation: it is [Void] when the token
    after the name is no colon; when it is a colon, the token after the
    colon is a raw-type token and the type is the one [getTypeFromLiteral]
    gives for its literal, [Int32] for ["int32"] and [String] for
    ["string"].  Its value is nil or was accepted by [Verify] for this type,
    and the declaration is what the variable table then holds under this
    name, in place of any earlier declaration; the other variables and the
    function records are kept. *)
Theorem var_declaration_registers (fuel : nat) (p p' : Parser)
    (stmt : VarStatement) :
  parseVarStatement fuel p = Ok stmt p' ->
  var_Name stmt = tok_Literal (peekToken p) /\
  (tok_Type (peekToken (nextToken p)) <> COLON -> var_Type stmt = Void) /\
  (tok_Type (peekToken (nextToken p)) = COLON ->
   tok_Type (peekToken (nextToken (nextToken p))) = RAWTYPE /\
   getTypeFromLiteral (tok_Literal (peekToken (nextToken (nextToken p)))) =
     Some (var_Type stmt) /\
   ((tok_Literal (peekToken (nextToken (nextToken p))) = "int32" /\
     var_Type stmt = Int32) \/
    (tok_Literal (peekToken (nextToken (nextToken p))) = "string" /\
     var_Type stmt = String))) /\
  (var_Type stmt = Void \/ declarable (var_Type stmt)) /\
  soundValue (var_Type stmt) (var_Value stmt) /\
  vars p' = <[var_Name stmt := stmt]> (vars p) /\
  (forall name fnStmt,
      fns p !! name = Some fnStmt -> fns p' !! name = Some fnStmt).
Proof.
  intros H.
  destruct (parseVarStatement_Ok fuel p p' stmt H) as (Hname & Hrest).
  destruct (parseVarStatement_type fuel p p' stmt H) as [Hvoid Hannot].
  split; [exact Hname |]. split; [exact Hvoid |]. split; [| exact Hrest].
  intros Hc. destruct (Hannot Hc) as [Hraw Hty].
  split; [exact Hraw |]. split; [exact Hty |].
  exact (getTypeFromLiteral_Some _ _ Hty).
Qed.

(** An identifier verifies exactly in a [Void] context or in the context of
    its own type, when that is [Int32] or [String]. *)
Lemma Verify_Identifier (tt t : Type_) (name : string) :
  Verify tt (Identifier name t) = None <->
  tt = Void \/ (tt = t /\ declarable t).
Proof.
  unfold declarable.
  destruct tt, t; simpl; split; intros H; try reflexivity; try discriminate;
    try (left; reflexivity); try (right; split; [reflexivity | tauto]);
    destruct H as [H | [H [H' | H']]]; discriminate.
Qed.

(** X8: an identifier that is in the variable table and ends the expression
    becomes an [Identifier] with the name and the type of its declaration
    when the type context is [Void], or is that type and the type is [Int32]
    or [String]; in every other type context the expression is refused with
    the "wrong type assignment" error. *)
Theorem bound_identifier_resolves (fuel : nat) (precedence : Z) (tt : Type_)
    (p : Parser) (varStmt : VarStatement) :
  tok_Type (curToken p) = IDENT ->
  vars p !! tok_Literal (curToken p) = Some varStmt ->
  endOfStatement (tok_Type (peekToken p)) = true ->
  LOWEST <= precedence ->
  (tt = Void \/ (tt = var_Type varStmt /\ declarable (var_Type varStmt)) ->
   parseExpression (S (S fuel)) precedence tt p =
     Ok (Identifier (var_Name varStmt) (var_Type varStmt)) p)
  /\ (~ (tt = Void \/ (tt = var_Type varStmt /\ declarable (var_Type varStmt))) ->
      parseExpression (S (S fuel)) precedence tt p =
        Fail (errAt p (errVerifying ErrWrongTypeAssigment)) p).
Proof.
  intros Hty Hl Hend Hprec.
  assert (Hloop : negb (peekTokenIs SEMICOLON p)
                  && (precedence <? peekPrecedence p)%Z = false).
  { unfold peekTokenIs, peekPrecedence, endOfStatement, TokenType_eqb in *.
    destruct (tok_Type (peekToken p)); try discriminate Hend; simpl;
      try reflexivity; apply Z.ltb_ge; exact Hprec. }
  cbn [parseExpression]. rewrite Hty, Hl. cbn [parseExpressionLoop].
  rewrite Hloop.
  pose proof (Verify_Identifier tt (var_Type varStmt) (var_Name varStmt)) as Hv.
  split; intros Hc.
  - apply Hv in Hc. rewrite Hc. reflexivity.
  - destruct (Verify tt (Identifier (var_Name varStmt) (var_Type varStmt)))
      as [err | ] eqn:E; [| exfalso; apply Hc, Hv; reflexivity].
    assert (err = ErrWrongTypeAssigment) as ->; [| reflexivity].
    destruct tt; simpl in E; try discriminate;
      try (destruct (decide _); [discriminate | congruence]); congruence.
Qed.

(** X9: a statement that begins with the name of a declared variable is
    accepted only as a reassignment: the name is followed by [=], the
    statement has the name and the type of the declaration, its value is nil
    or was accepted by [Verify] for that type, and the variable table is
    left as it was. *)
Theorem bound_name_starts_reassignment (fuel : nat) (tt : Type_)
    (p p' : Parser) (old : VarStatement) (node : Node) :
  tok_Type (curToken p) = IDENT ->
  vars p !! tok_Literal (curToken p) = Some old ->
  parseStatement fuel tt p = Ok node p' ->
  exists value,
    node = ReassignVarStatementNode
             (mkReassignVarStatement (var_Name old) (var_Type old) value) /\
    soundValue (var_Type old) value /\
    tok_Type (peekToken p) = ASSIGN /\
    vars p' = vars p.
Proof.
  intros Hty Hl H. destruct fuel as [ | fuel]; [discriminate |].
  cbn [parseStatement] in H. rewrite Hty, Hl in H.
  bind_inv H as stmt q Hre. apply Ok_inj in H as [<- <-].
  unfold parseReasignStatement in Hre.
  bind_inv Hre as u q1 Hc. apply consumeOrFail_Ok in Hc as [-> Hassign].
  destruct (parseExpression fuel LOWEST (var_Type old) (nextToken (nextToken p)))
    as [newExp q2 | | | ] eqn:He; try discriminate.
  destruct (negb _); [discriminate |].
  apply Ok_inj in Hre as [<- <-].
  exists newExp. split; [reflexivity |].
  split; [exact (parseExpression_soundValue _ _ _ _ _ He) |].
  split; [exact Hassign |].
  pose proof (proj1 (expression_parsing_keeps fuel) _ _ _ _ _ He) as [Hv _].
  rewrite nextToken_vars, Hv, !nextToken_vars. reflexivity.
Qed.

(** ** Calls *)

Lemma parseKnownParams_Ok (fuel : nat) (fnName : string)
    (allArgs args : list Argument) (idx : nat) (params : list Expression)
    (p p' : Parser) (call : Expression) :
  drop idx allArgs = args ->
  Forall2 (fun a e => soundValue (arg_Type a) e) allArgs params ->
  parseKnownParams fuel fnName args idx params p = Ok call p' ->
  exists params',
    call = FnCall fnName params' /\
    Forall2 (fun a e => soundValue (arg_Type a) e) allArgs params'.
Proof.
  revert args idx params p.
  induction fuel as [ | fuel IH]; intros args idx params p Hdrop HF H;
    [discriminate |].
  cbn [parseKnownParams] in H. destruct args as [ | a args]; [discriminate |].
  destruct (parseExpression fuel LOWEST (arg_Type a) p) as [arg q | | | ] eqn:He;
    try discriminate.
  assert (Hidx : allArgs !! idx = Some a).
  { rewrite <- (Nat.add_0_r idx), <- lookup_drop, Hdrop. reflexivity. }
  assert (HF' : Forall2 (fun a e => soundValue (arg_Type a) e) allArgs
                        (<[idx := arg]> params)).
  { rewrite <- (list_insert_id allArgs idx a Hidx).
    apply Forall2_insert; [exact HF |].
    exact (parseExpression_soundValue _ _ _ _ _ He). }
  destruct (peekTokenIs RPAREN q).
  - apply Ok_inj in H as [<- _]. eauto.
  - bind_inv H as u q' Hc.
    eapply (IH args (S idx)); [| exact HF' | exact H].
    replace (S idx) with (idx + 1)%nat by lia.
    rewrite <- drop_drop, Hdrop. reflexivity.
Qed.

Lemma Forall2_nil_params (args : list Argument) :
  Forall2 (fun a e => soundValue (arg_Type a) e) args
          (makeExpressions (length args)).
Proof.
  induction args as [ | a args IH]; simpl; constructor;
    [left; reflexivity | exact IH].
Qed.

(** What [parseFnCallExpression] returns is a call. *)
Lemma parseFnCallExpression_FnCall (fuel : nat) (left_ : Expression)
    (tt : Type_) (p p' : Parser) (call : Expression) :
  parseFnCallExpression fuel left_ tt p = Ok call p' ->
  exists fnName params, left_ = UnboundedIdentifier fnName /\
                        call = FnCall fnName params.
Proof.
  intros H. destruct fuel as [ | fuel]; [discriminate |].
  cbn [parseFnCallExpression] in H. destruct left_; try discriminate.
  exists Value. destruct (fns p !! Value) as [fnStmt | ].
  - destruct (TokenType_eqb _ _).
    + apply Ok_inj in H as [<- _]. eauto.
    + destruct (parseKnownParams_Ok _ _ (Args fnStmt) _ 0 _ _ _ _ eq_refl
                  (Forall2_nil_params _) H) as (params & -> & _). eauto.
  - destruct (TokenType_eqb _ _).
    + apply Ok_inj in H as [<- _]. eauto.
    + bind_inv H as params q Hu. apply Ok_inj in H as [<- _]. eauto.
Qed.

(** No call is ever accepted inside an expression: the callee would have to
    be an [UnboundedIdentifier], which [parseExpression] cannot build. *)
Lemma expressions_are_call_free (fuel : nat) :
  (forall precedence tt p e p',
      parseExpression fuel precedence tt p = Ok e p' ->
      callFree e /\ vars p' = vars p /\ fns p' = fns p) /\
  (forall precedence tt leftExp p e p',
      callFree leftExp ->
      parseExpressionLoop fuel precedence tt leftExp p = Ok e p' ->
      callFree e /\ vars p' = vars p /\ fns p' = fns p) /\
  (forall tt p e p',
      parseGroupedExpression fuel tt p = Ok e p' ->
      callFree e /\ vars p' = vars p /\ fns p' = fns p) /\
  (forall left_ tt p e p',
      callFree left_ ->
      parseInfixExpression fuel left_ tt p = Ok e p' ->
      callFree e /\ vars p' = vars p /\ fns p' = fns p).
Proof.
  induction fuel as [ | fuel (IHe & IHl & IHg & IHi)].
  { refine (conj _ (conj _ (conj _ _))); intros; discriminate. }
  refine (conj _ (conj _ (conj _ _))).
  - intros precedence tt p e p' H. cbn [parseExpression] in H.
    destruct (tok_Type (curToken p));
      try (apply Ok_inj in H as [<- <-]; repeat split; reflexivity);
      try (refine (IHl _ _ _ _ _ _ _ H); exact I).
    + destruct (vars p !! _); [(refine (IHl _ _ _ _ _ _ _ H); exact I) | discriminate].
    + bind_inv H as expression q Hg.
      destruct (IHg _ _ _ _ Hg) as (Hcf & Hv & Hf).
      destruct (IHl _ _ _ _ _ _ Hcf H) as (Hcf' & Hv' & Hf').
      repeat split; [exact Hcf' | congruence | congruence].
  - intros precedence tt leftExp p e p' Hleft H.
    cbn [parseExpressionLoop] in H.
    destruct (negb _ && _).
    + destruct (tok_Type (peekToken p));
        try (apply Ok_inj in H as [<- <-]; repeat split; [exact Hleft | ..];
             reflexivity);
        bind_inv H as exp q Hsub.
      5:{ (* a call: the callee is never an [UnboundedIdentifier] *)
          destruct (parseFnCallExpression_FnCall _ _ _ _ _ _ Hsub)
            as (fnName & params & -> & _). destruct Hleft. }
      all: destruct (IHi _ _ _ _ _ Hleft Hsub) as (Hcf & Hv & Hf);
        destruct (IHl _ _ _ _ _ _ Hcf H) as (Hcf' & Hv' & Hf');
        rewrite nextToken_vars in Hv; rewrite nextToken_fns in Hf;
        repeat split; [exact Hcf' | congruence | congruence].
    + destruct (Verify tt leftExp); [discriminate |].
      apply Ok_inj in H as [<- <-]. repeat split; [exact Hleft | ..]; reflexivity.
  - intros tt p e p' H. cbn [parseGroupedExpression] in H.
    bind_inv H as exp q Hsub. bind_inv H as u q' Hc.
    apply Ok_inj in H as [<- <-].
    apply consumeOrFail_Ok in Hc as [-> _].
    destruct (IHe _ _ _ _ _ Hsub) as (Hcf & Hv & Hf).
    rewrite nextToken_vars in Hv. rewrite nextToken_fns in Hf.
    rewrite nextToken_vars, nextToken_fns.
    repeat split; [exact Hcf | congruence | congruence].
  - intros left_ tt p e p' Hleft H. cbn [parseInfixExpression] in H.
    bind_inv H as exp q Hsub. apply Ok_inj in H as [<- <-].
    destruct (IHe _ _ _ _ _ Hsub) as (Hcf & Hv & Hf).
    rewrite nextToken_vars in Hv. rewrite nextToken_fns in Hf.
    repeat split; [exact Hleft | exact Hcf | congruence | congruence].
Qed.

(** X6: [parseExpression] never accepts a call: the expression it returns
    holds no [FnCall] and no [UnboundedIdentifier] at any depth, and the
    variable table and the function table are left as they were. *)
Theorem expression_has_no_call (fuel : nat) (precedence : Z) (tt : Type_)
    (e : Expression) (p p' : Parser) :
  parseExpression fuel precedence tt p = Ok e p' ->
  callFree e /\ vars p' = vars p /\ fns p' = fns p.
Proof. exact (proj1 (expressions_are_call_free fuel) precedence tt p e p'). Qed.

(** X10: a call of a function that the function table knows is accepted
    either with no argument at all, whatever the declaration, or with
    exactly as many parameters as the record has arguments, each nil or
    accepted by [Verify] for the type of its argument; the record is left as
    it was. *)
Theorem known_call_is_checked (fuel : nat) (fnName : string) (tt : Type_)
    (p p' : Parser) (fnStmt : FnStatement) (call : Expression) :
  fns p !! fnName = Some fnStmt ->
  parseFnCallExpression fuel (UnboundedIdentifier fnName) tt p = Ok call p' ->
  exists params,
    call = FnCall fnName params /\
    ((tok_Type (curToken p) = RPAREN /\ params = []) \/
     (tok_Type (curToken p) <> RPAREN /\
      length params = length (Args fnStmt) /\
      Forall2 (fun a e => soundValue (arg_Type a) e) (Args fnStmt) params)) /\
    fns p' !! fnName = Some fnStmt.
Proof.
  intros Hl H.
  pose proof (proj1 (proj2 (proj2 (proj2 (proj2
                (expression_parsing_keeps fuel))))) _ _ _ _ _ H) as [_ Hk].
  specialize (Hk _ _ Hl).
  destruct fuel as [ | fuel]; [discriminate |].
  cbn [parseFnCallExpression] in H. rewrite Hl in H.
  destruct (TokenType_eqb _ _) eqn:Hcur.
  - apply Ok_inj in H as [<- _]. exists []. split; [reflexivity |].
    split; [| exact Hk]. left. split; [| reflexivity].
    apply bool_decide_eq_true in Hcur. exact Hcur.
  - destruct (parseKnownParams_Ok _ _ (Args fnStmt) _ 0 _ _ _ _ eq_refl
                (Forall2_nil_params _) H) as (params & -> & HF).
    exists params. split; [reflexivity |]. split; [| exact Hk]. right.
    split; [apply bool_decide_eq_false in Hcur; exact Hcur |].
    split; [symmetry; exact (Forall2_length _ _ _ HF) | exact HF].
Qed.

(** ** The arguments of a call *)

Lemma consume_COMMA (p p' : Parser) (u : unit) :
  consumeOrFail COMMA p = Ok u p' -> tok_Type (curToken p') = COMMA.
Proof.
  intros H. apply consumeOrFail_Ok in H as [-> H].
  rewrite nextToken_cur. exact H.
Qed.

Lemma parseExpression_at_COMMA (fuel : nat) (precedence : Z) (tt : Type_)
    (p q : Parser) (arg : Expression) :
  tok_Type (curToken p) = COMMA ->
  parseExpression fuel precedence tt p = Ok arg q ->
  arg = NilExpression /\ q = p.
Proof.
  intros Hcur H. destruct fuel as [ | fuel]; [discriminate |].
  rewrite parseExpression_no_primary in H by (rewrite Hcur; reflexivity).
  apply Ok_inj in H as [<- <-]. split; reflexivity.
Qed.

(** After a comma the loops of [parseFnCallExpression] stand on the comma,
    where [parseExpression] gives the nil expression and reads nothing: every
    further parameter is nil. *)
Lemma parseKnownParams_after_COMMA (fuel : nat) (fnName : string)
    (args : list Argument) (idx : nat) (params : list Expression)
    (p p' : Parser) (call : Expression) :
  tok_Type (curToken p) = COMMA ->
  parseKnownParams fuel fnName args idx params p = Ok call p' ->
  exists params',
    call = FnCall fnName params' /\
    forall i e, params' !! i = Some e ->
                e = NilExpression \/ params !! i = Some e.
Proof.
  revert args idx params p.
  induction fuel as [ | fuel IH]; intros args idx params p Hcur H;
    [discriminate |].
  cbn [parseKnownParams] in H. destruct args as [ | a args]; [discriminate |].
  destruct (parseExpression fuel LOWEST (arg_Type a) p) as [arg q | | | ] eqn:He;
    try discriminate.
  apply (parseExpression_at_COMMA _ _ _ _ _ _ Hcur) in He as [-> ->].
  assert (Hins : forall i e, <[idx := NilExpression]> params !! i = Some e ->
                             e = NilExpression \/ params !! i = Some e).
  { intros i e Hi. apply list_lookup_insert_Some in Hi
      as [(_ & <- & _) | (_ & Hi)]; [left; reflexivity | right; exact Hi]. }
  destruct (peekTokenIs RPAREN p).
  - apply Ok_inj in H as [<- _]. eexists. split; [reflexivity | exact Hins].
  - bind_inv H as u q' Hc.
    destruct (IH _ _ _ _ (consume_COMMA _ _ _ Hc) H) as (params' & -> & Hall).
    exists params'. split; [reflexivity |].
    intros i e Hi. destruct (Hall i e Hi) as [-> | Hi'];
      [left; reflexivity | exact (Hins i e Hi')].
Qed.

Lemma parseUnknownParams_after_COMMA (fuel : nat)
    (params ps : list Expression) (p p' : Parser) :
  tok_Type (curToken p) = COMMA ->
  parseUnknownParams fuel params p = Ok ps p' ->
  exists extra,
    ps = (params ++ extra)%list /\
    Forall (fun e => e = NilExpression) extra.
Proof.
  revert params p.
  induction fuel as [ | fuel IH]; intros params p Hcur H; [discriminate |].
  cbn [parseUnknownParams] in H.
  destruct (parseExpression fuel LOWEST Void p) as [arg q | | | ] eqn:He;
    try discriminate.
  apply (parseExpression_at_COMMA _ _ _ _ _ _ Hcur) in He as [-> ->].
  destruct (peekTokenIs RPAREN p).
  - apply Ok_inj in H as [<- _]. exists [NilExpression].
    split; [reflexivity | repeat constructor].
  - bind_inv H as u q' Hc.
    destruct (IH _ _ (consume_COMMA _ _ _ Hc) H) as (extra & -> & Hall).
    exists (NilExpression :: extra). rewrite <- app_assoc.
    split; [reflexivity | constructor; [reflexivity | exact Hall]].
Qed.

(** X25: in every call that [parseFnCallExpression] accepts, all the
    parameters after the first are nil.  After the comma that follows a
    parameter the parser stands on the comma itself, where [parseExpression]
    gives the nil expression and reads nothing; only a closing parenthesis
    or another comma can follow, so a call with two arguments is refused. *)
Theorem call_arguments_after_the_first_are_nil (fuel : nat)
    (left_ : Expression) (tt : Type_) (p p' : Parser) (call : Expression) :
  parseFnCallExpression fuel left_ tt p = Ok call p' ->
  exists fnName params,
    call = FnCall fnName params /\
    Forall (fun e => e = NilExpression) (drop 1 params).
Proof.
  intros H. destruct fuel as [ | fuel]; [discriminate |].
  cbn [parseFnCallExpression] in H. destruct left_; try discriminate.
  exists Value. destruct (fns p !! Value) as [fnStmt | ].
  - destruct (TokenType_eqb _ _).
    { apply Ok_inj in H as [<- _]. exists []. split; [reflexivity | constructor]. }
    destruct fuel as [ | fuel]; [discriminate |].
    cbn [parseKnownParams] in H.
    destruct (Args fnStmt) as [ | a args] eqn:Hargs; [discriminate |].
    destruct (parseExpression fuel LOWEST (arg_Type a) p) as [arg q | | | ] eqn:He;
      try discriminate.
    set (params := <[0%nat := arg]> (makeExpressions (length (a :: args)))) in H.
    assert (Hrest : forall i e, params !! S i = Some e -> e = NilExpression).
    { intros i e Hi. subst params. unfold makeExpressions in Hi.
      simpl in Hi. apply lookup_replicate in Hi as [-> _]. reflexivity. }
    destruct (peekTokenIs RPAREN q).
    + apply Ok_inj in H as [<- _]. exists params. split; [reflexivity |].
      apply Forall_lookup_2. intros i e Hi. rewrite lookup_drop in Hi.
      exact (Hrest i e Hi).
    + bind_inv H as u q' Hc.
      destruct (parseKnownParams_after_COMMA _ _ _ _ _ _ _ _
                  (consume_COMMA _ _ _ Hc) H) as (params' & -> & Hall).
      exists params'. split; [reflexivity |].
      apply Forall_lookup_2. intros i e Hi. rewrite lookup_drop in Hi.
      destruct (Hall _ _ Hi) as [-> | Hi']; [reflexivity |].
      exact (Hrest i e Hi').
  - destruct (TokenType_eqb _ _).
    { apply Ok_inj in H as [<- _]. exists []. split; [reflexivity | constructor]. }
    bind_inv H as params q Hu. apply Ok_inj in H as [<- _].
    exists params. split; [reflexivity |].
    destruct fuel as [ | fuel]; [discriminate |].
    cbn [parseUnknownParams] in Hu.
    destruct (parseExpression fuel LOWEST Void p) as [arg q0 | | | ] eqn:He;
      try discriminate.
    destruct (peekTokenIs RPAREN q0).
    + apply Ok_inj in Hu as [<- _]. constructor.
    + bind_inv Hu as u q' Hc.
      destruct (parseUnknownParams_after_COMMA _ _ _ _ _
                  (consume_COMMA _ _ _ Hc) Hu) as (extra & -> & Hall).
      exact Hall.
Qed.

(** ** Soundness of the statements *)

Lemma parseFnArgs_declarable (fuel : nat) (args args' : list Argument)
    (p p' : Parser) :
  parseFnArgs fuel args p = Ok args' p' ->
  Forall (fun a => declarable (arg_Type a)) args ->
  Forall (fun a => declarable (arg_Type a)) args'.
Proof.
  revert args p. induction fuel as [ | fuel IH]; intros args p H HF;
    cbn [parseFnArgs] in H; [discriminate |].
  destruct (peekTokenIs RPAREN p).
  { apply Ok_inj in H as [<- _]. exact HF. }
  bind_inv H as u1 p1 H1. bind_inv H as u2 p2 H2. bind_inv H as u3 p3 H3.
  destruct (getTypeFromLiteral _) as [t | ] eqn:Ht; [| discriminate].
  assert (HF' : Forall (fun a => declarable (arg_Type a))
                  (args ++ [mkArgument (tok_Literal (curToken p1)) t])).
  { apply Forall_app. split; [exact HF |]. constructor; [| constructor].
    exact (getTypeFromLiteral_declarable _ _ Ht). }
  destruct (TokenType_eqb _ _).
  { apply Ok_inj in H as [<- _]. exact HF'. }
  bind_inv H as u4 p4 H4. exact (IH _ _ H HF').
Qed.

Lemma parseFnHead_Ok (fuel : nat) (p p' : Parser)
    (head : FnStatement * bool) :
  parseFnHead fuel p = Ok head p' ->
  (ReturnType (fst head) = Void \/ declarable (ReturnType (fst head))) /\
  Forall (fun a => declarable (arg_Type a)) (Args (fst head)) /\
  Defined (fst head) = false /\ Body (fst head) = [].
Proof.
  unfold parseFnHead. intros H. bind_inv H as sig p1 Hsig.
  destruct (reconcile _ _ _); [discriminate |].
  bind_inv H as ret p2 Hret. bind_inv H as u p3 Hb.
  apply Ok_inj in H as [<- _]. cbn [fst ReturnType Args Defined Body].
  split; [| split; [| split; reflexivity]].
  - destruct (TokenType_eqb _ _).
    + bind_inv Hret as u2 p4 H4.
      destruct (getTypeFromLiteral _) eqn:Ht; [| discriminate].
      apply Ok_inj in Hret as [<- _]. right.
      exact (getTypeFromLiteral_declarable _ _ Ht).
    + apply Ok_inj in Hret as [<- _]. left. reflexivity.
  - unfold parseFnSignature in Hsig. bind_inv Hsig as u1 q1 H1.
    destruct (match fns q1 !! _ with Some _ => _ | None => _ end);
      [discriminate |].
    bind_inv Hsig as u2 q2 H2. bind_inv Hsig as args q3 H3.
    apply Ok_inj in Hsig as [<- _]. cbn [snd].
    exact (parseFnArgs_declarable _ _ _ _ _ H3 (Forall_nil_2 _)).
Qed.

Lemma not_Float32 (t : Type_) : t = Void \/ declarable t -> t <> Float32.
Proof. intros [-> | [-> | ->]]; discriminate. Qed.

Lemma statements_sound (fuel : nat) :
  (forall tt p node p',
      parseStatement fuel tt p = Ok node p' -> sound tt node) /\
  (forall p stmt p',
      parseFnStatement fuel p = Ok stmt p' ->
      forall tt, sound tt (FnStatementNode stmt)) /\
  (forall tt body p body' p',
      parseFnBody fuel tt body p = Ok body' p' ->
      Forall (sound tt) body -> Forall (sound tt) body').
Proof.
  induction fuel as [ | fuel (IHs & IHf & IHb)].
  { refine (conj _ (conj _ _)); intros; discriminate. }
  refine (conj _ (conj _ _)).
  - intros tt p node p' H. cbn [parseStatement] in H.
    destruct (tok_Type (curToken p)); try discriminate.
    + bind_inv H as stmt q Hv. apply Ok_inj in H as [<- _].
      destruct (parseVarStatement_Ok _ _ _ _ Hv)
        as (_ & Hty & Hval & _).
      split; [exact (not_Float32 _ Hty) | exact Hval].
    + destruct (vars p !! _) as [old | ].
      * bind_inv H as stmt q Hre. apply Ok_inj in H as [<- _].
        unfold parseReasignStatement in Hre. bind_inv Hre as u q1 Hc.
        destruct (parseExpression fuel LOWEST (var_Type old) (nextToken q1))
          as [newExp q2 | | | ] eqn:He; try discriminate.
        destruct (negb _); [discriminate |].
        apply Ok_inj in Hre as [<- _].
        exact (parseExpression_soundValue _ _ _ _ _ He).
      * bind_inv H as u q1 Hc. bind_inv H as expr q2 Hcall.
        destruct (negb _); [discriminate |].
        apply Ok_inj in H as [<- _].
        destruct (parseFnCallExpression_FnCall _ _ _ _ _ _ Hcall)
          as (fnName & params & _ & ->).
        simpl. eauto.
    + bind_inv H as stmt q Hf. apply Ok_inj in H as [<- _].
      exact (IHf _ _ _ Hf tt).
    + bind_inv H as stmt q Hr. apply Ok_inj in H as [<- _].
      unfold parseReturnStatement in Hr. bind_inv Hr as expression q1 He.
      destruct (negb _); [discriminate |].
      apply Ok_inj in Hr as [<- _].
      split; [reflexivity | exact (parseExpression_soundValue _ _ _ _ _ He)].
  - intros p stmt p' H tt. cbn [parseFnStatement] in H.
    bind_inv H as head p1 Hhead. bind_inv H as body p2 Hbody.
    destruct (checkReturn _ _ _); [discriminate |].
    apply Ok_inj in H as [<- _].
    destruct (parseFnHead_Ok _ _ _ _ Hhead) as (Hrt & Hargs & Hdef & _).
    apply sound_fn. cbn [withBody ReturnType Args Defined Body].
    split; [exact (not_Float32 _ Hrt) |]. split; [exact Hargs |].
    split; [exact Hdef |].
    exact (IHb _ _ _ _ _ Hbody (Forall_nil_2 _)).
  - intros tt body p body' p' H HF. cbn [parseFnBody] in H.
    destruct (TokenType_eqb (tok_Type (curToken p)) RBRACE).
    { apply Ok_inj in H as [<- _]. exact HF. }
    destruct (TokenType_eqb (tok_Type (curToken p)) NEXTLINE).
    { exact (IHb _ _ _ _ _ H HF). }
    bind_inv H as innerStmt q Hs.
    apply (IHb _ _ _ _ _ H). apply Forall_app. split; [exact HF |].
    constructor; [exact (IHs _ _ _ _ Hs) | constructor].
Qed.

Lemma parseProgramLoop_sound (fuel : nat) (stmts : list Node)
    (p p' : Parser) (program : Program) :
  parseProgramLoop fuel stmts p = Ok program p' ->
  Forall (sound Void) stmts -> Forall (sound Void) (Statements program).
Proof.
  revert stmts p. induction fuel as [ | fuel IH]; intros stmts p H HF;
    cbn [parseProgramLoop] in H; [discriminate |].
  destruct (TokenType_eqb (tok_Type (curToken p)) EOF).
  { apply Ok_inj in H as [<- _]. exact HF. }
  destruct (TokenType_eqb (tok_Type (curToken p)) NEXTLINE).
  { exact (IH _ _ H HF). }
  bind_inv H as stmt q Hs. apply (IH _ _ H). apply Forall_app.
  split; [exact HF |]. constructor; [| constructor].
  exact (proj1 (statements_sound fuel) _ _ _ _ Hs).
Qed.

(** X11: every statement of a program that [ParseProgram] returns is sound,
    at any depth: the value of a declaration, of a reassignment and of a
    return is nil or was accepted by [Verify] for its type, a return has the
    return type of the function it is in ([Void] at the top level), the
    declared types are [Int32] or [String] (or [Void] where there is no
    annotation, never [Float32]), every function has [Defined = false], and
    an expression used as a statement is a call. *)
Theorem parsed_program_is_sound (fuel : nat) (p : Parser) (program : Program) :
  returned (ParseProgram fuel p) = Some program ->
  Forall (sound Void) (Statements program).
Proof.
  intros H. apply returned_Some in H as [p' H].
  exact (parseProgramLoop_sound _ _ _ _ _ H (Forall_nil_2 _)).
Qed.

(** ** The end of the token sequence *)

Lemma nextToken_closed (p : Parser) : closed (nextToken p).
Proof.
  unfold closed, nextToken.
  destruct (TokenType_eqb (tok_Type (peekToken p)) EOF) eqn:E.
  - reflexivity.
  - apply bool_decide_eq_false in E.
    destruct (tokens p); simpl; intros H; contradiction.
Qed.

Lemma nextToken_at_EOF (p : Parser) :
  closed p -> tok_Type (curToken p) = EOF -> nextToken p = p.
Proof.
  intros Hc He. specialize (Hc He). unfold nextToken.
  rewrite Hc, He. change (TokenType_eqb EOF EOF) with true. cbn iota.
  destruct p as [ts cur pk vs fs]. cbn in *. subst pk. reflexivity.
Qed.

(** X12: once the current token of a parser made by [NewParser] is [EOF],
    advancing, any number of times, changes nothing. *)
Theorem advancing_stops_at_EOF (toks : list Token) (n m : nat) :
  tok_Type (curToken (Nat.iter n nextToken (NewParser toks))) = EOF ->
  Nat.iter m nextToken (Nat.iter n nextToken (NewParser toks)) =
    Nat.iter n nextToken (NewParser toks).
Proof.
  set (p := Nat.iter n nextToken (NewParser toks)). intros He.
  assert (Hc : closed p).
  { subst p. destruct n as [ | n]; [apply nextToken_closed |].
    simpl. apply nextToken_closed. }
  induction m as [ | m IH]; [reflexivity |].
  simpl. rewrite IH. exact (nextToken_at_EOF _ Hc He).
Qed.

(** ** The lowering of expressions *)

(** The two panics of [generateExpression] are its only way not to return a
    value. *)
Lemma generateExpression_lowerable (gen : llvm.IRGenerator)
    (expr : Expression) (fnName : string) :
  is_Some (llvm.generateExpression gen expr fnName) <-> llvm.lowerable expr = true.
Proof.
  induction expr as [ | f ps | v | v t | v | v | v | lhs IHl op rhs IHr | op rhs IH ];
    simpl; try (split; [intros [x Hx]; discriminate | discriminate]);
    try (split; [reflexivity | eauto]).
  destruct (llvm.generateExpression gen lhs fnName) as [l | ];
    destruct (llvm.lowerable lhs); simpl;
    try (destruct IHl as [IHl1 IHl2];
         first [ discriminate (IHl1 (ex_intro _ _ eq_refl))
               | destruct (IHl2 eq_refl); discriminate ]).
  - destruct (llvm.generateExpression gen rhs fnName) as [r0 | ];
      destruct (llvm.lowerable rhs); simpl;
      try (destruct IHr as [IHr1 IHr2];
           first [ discriminate (IHr1 (ex_intro _ _ eq_refl))
                 | destruct (IHr2 eq_refl); discriminate ]).
    + unfold llvm.arithmetic.
      destruct (String.eqb op "+"), (String.eqb op "-"), (String.eqb op "*"),
        (String.eqb op "/"); simpl; split; intros H; eauto;
        try discriminate; destruct H; discriminate.
    + split; [intros [x Hx]; discriminate | discriminate].
  - split; [intros [x Hx]; discriminate | discriminate].
Qed.

(** X13: [generateExpression] returns a value exactly on the expressions
    made of integer, string and float literals, bound identifiers and infix
    expressions with one of the operators [+ - * /]; on every other
    expression (nil, a call, an unbound identifier, a prefix expression,
    another operator, anywhere inside) it panics. *)
Theorem generateExpression_succeeds_iff (gen : llvm.IRGenerator)
    (expr : Expression) (fnName : string) :
  is_Some (llvm.generateExpression gen expr fnName) <-> llvm.lowerable expr = true.
Proof. apply generateExpression_lowerable. Qed.

(** X14: [generateExpression] reads the generator only through the locals
    of the function it is lowering: the globals and the locals of other
    functions do not matter. *)
Theorem generateExpression_reads_own_locals (gen gen' : llvm.IRGenerator)
    (expr : Expression) (fnName : string) :
  llvm.locals gen !! fnName = llvm.locals gen' !! fnName ->
  llvm.generateExpression gen expr fnName =
    llvm.generateExpression gen' expr fnName.
Proof.
  intros Hl.
  induction expr as [ | f ps | v | v t | v | v | v | lhs IHl op rhs IHr | op rhs IH ];
    simpl; try reflexivity.
  - unfold llvm.lookupLocal. rewrite Hl. reflexivity.
  - rewrite IHl, IHr. reflexivity.
Qed.

(** ** The lowering of statements *)

Section GenerateProperties.
Import llvm.

Variable ToVarAssignment : ReassignVarStatement -> VarStatement.


Lemma generateNode_fn (gen : IRGenerator) (stmt : FnStatement)
    (fnName : string) :
  generateNode ToVarAssignment gen (FnStatementNode stmt) fnName =
  if negb (String.eqb fnName "") then None
  else generateFnStatement ToVarAssignment gen stmt.
Proof. destruct stmt as [name args [ | s body] rt d e]; reflexivity. Qed.

Lemma storable_spec (gen : IRGenerator) (value : Expression)
    (fnName : string) :
  storable value = true <->
  value = NilExpression \/ is_Some (generateExpression gen value fnName).
Proof.
  rewrite generateExpression_lowerable.
  destruct value; simpl; split; intros H; auto;
    try (destruct H as [H | H]; [discriminate | exact H]).
Qed.

Lemma generateVarStatement_ready (gen : IRGenerator) (stmt : VarStatement)
    (fnName : string) :
  ready gen fnName ->
  (is_Some (generateVarStatement gen stmt fnName) <->
   storable (var_Value stmt) = true) /\
  (forall gen' calls,
      generateVarStatement gen stmt fnName = Some (gen', calls) ->
      ready gen' fnName).
Proof.
  intros Hready. unfold generateVarStatement.
  rewrite (storable_spec gen (var_Value stmt) fnName).
  set (store := match var_Value stmt with
                | NilExpression => Some []
                | _ => _
                end).
  assert (Hstore : is_Some store <->
            var_Value stmt = NilExpression \/
            is_Some (generateExpression gen (var_Value stmt) fnName)).
  { subst store. destruct (var_Value stmt) eqn:Hv;
      try (split; [intros _; left; reflexivity | intros _; eexists; reflexivity]);
      (destruct (generateExpression gen _ fnName) as [v | ];
       [ split; [intros _; right; eexists; reflexivity
                | intros _; eexists; reflexivity]
       | split; [intros [x Hx]; discriminate
                | intros [Hn | [x Hx]]; discriminate] ]). }
  rewrite <- Hstore. clear Hstore.
  destruct store as [calls | ].
  2:{ split; [| discriminate]. split; intros [x Hx]; discriminate. }
  destruct (String.eqb_spec fnName "") as [-> | Hne]; cbn [negb].
  - split; [split; intros _; eexists; reflexivity |].
    intros gen' calls' _. left. reflexivity.
  - destruct Hready as [-> | [m Hm]]; [contradiction |].
    rewrite Hm. split; [split; intros _; eexists; reflexivity |].
    intros gen' calls' [= <- _]. right. cbn [locals].
    rewrite lookup_insert_eq. eexists; reflexivity.
Qed.

Lemma forEach_generable (stmts : list Node) :
  Forall (fun node =>
    forall gen fnName, ready gen fnName ->
      (is_Some (generateNode ToVarAssignment gen node fnName) <->
       generable ToVarAssignment fnName node = true) /\
      (forall gen' calls,
          generateNode ToVarAssignment gen node fnName = Some (gen', calls) ->
          ready gen' fnName)) stmts ->
  forall gen calls fnName, ready gen fnName ->
    is_Some (forEach (fun gen stmt =>
                        generateNode ToVarAssignment gen stmt fnName)
                     gen calls stmts) <->
    forallb (generable ToVarAssignment fnName) stmts = true.
Proof.
  induction 1 as [ | node stmts Hnode _ IH]; intros gen calls fnName Hready.
  { simpl. split; [reflexivity | intros _; eexists; reflexivity]. }
  cbn [forEach forallb].
  destruct (Hnode gen fnName Hready) as [Hiff Hnext].
  destruct (generateNode ToVarAssignment gen node fnName) as [[gen' more] | ].
  - rewrite (proj1 Hiff (ex_intro _ _ eq_refl)). cbn [andb].
    apply IH. exact (Hnext _ _ eq_refl).
  - destruct (generable ToVarAssignment fnName node).
    + destruct (proj2 Hiff eq_refl) as [x Hx]. discriminate.
    + split; [intros [x Hx]; discriminate | discriminate].
Qed.

Lemma generateNode_generable (node : Node) (gen : IRGenerator)
    (fnName : string) :
  ready gen fnName ->
  (is_Some (generateNode ToVarAssignment gen node fnName) <-> generable ToVarAssignment fnName node = true) /\
  (forall gen' calls,
      generateNode ToVarAssignment gen node fnName = Some (gen', calls) -> ready gen' fnName).
Proof.
  revert gen fnName.
  induction node as [s | s | name args body returnType defined exprs IH | s | e]
    using Node_nested_ind; intros gen fnName Hready.
  - apply generateVarStatement_ready. exact Hready.
  - apply generateVarStatement_ready. exact Hready.
  - rewrite generateNode_fn. cbn [generable].
    destruct (String.eqb_spec fnName "") as [-> | Hne]; cbn [negb andb].
    2:{ split; [| discriminate]. split; [intros [x Hx]; discriminate | discriminate]. }
    split; [| intros; left; reflexivity].
    unfold generateFnStatement. cbn [Name Body].
    destruct body as [ | stmt body].
    { simpl. split; [reflexivity | intros _; eexists; reflexivity]. }
    apply (forEach_generable _ IH). right. unfold enter. cbn [locals].
    rewrite lookup_insert_eq. eexists; reflexivity.
  - cbn [generateNode generable]. unfold generateReturnStatement.
    rewrite <- (generateExpression_lowerable gen (ret_Value s) fnName).
    destruct (generateExpression gen (ret_Value s) fnName) as [v | ].
    + split; [split; intros _; eexists; reflexivity |].
      intros gen' calls [= <- _]. exact Hready.
    + split; [| discriminate]. split; intros [x Hx]; discriminate.
  - cbn [generateNode generable].
    split; [split; [reflexivity | intros _; eexists; reflexivity] |].
    intros gen' calls [= <- _]. exact Hready.
Qed.

Lemma generate_generable (gen : IRGenerator) (stmts : list Node)
    (fnName : string) :
  ready gen fnName ->
  is_Some (generate ToVarAssignment gen stmts fnName) <->
  forallb (generable ToVarAssignment fnName) stmts = true.
Proof.
  intros Hready. unfold generate.
  apply forEach_generable; [| exact Hready].
  apply Forall_forall. intros node _ g f. apply generateNode_generable.
Qed.

(** X20: [GenerateIR] reaches a panic of the generator exactly when, at some
    depth of the program, the value of a declaration or of a reassignment is
    neither nil nor an expression [generateExpression] has a case for, a
    return has such a value or none, or a function is declared inside a
    function of non-empty name; whatever the generator held before. *)
Theorem GenerateIR_succeeds_iff (gen : IRGenerator) (program : Program) :
  is_Some (GenerateIR ToVarAssignment gen program) <->
  forallb (generable ToVarAssignment "") (Statements program) = true.
Proof. apply generate_generable. left. reflexivity. Qed.

End GenerateProperties.

(** ** From the parser to the generator *)

Lemma plain_lowerable (expr : Expression) :
  llvm.plain expr = true -> llvm.lowerable expr = llvm.complete expr.
Proof.
  induction expr as [ | f ps | v | v t | v | v | v | lhs IHl op rhs IHr | op rhs IH ];
    simpl; try reflexivity; try discriminate.
  intros H. apply andb_prop in H as [H Hop]. apply andb_prop in H as [Hl Hr].
  rewrite (IHl Hl), (IHr Hr), Hop. apply andb_true_r.
Qed.

Lemma nextToken_wellSpelled (p : Parser) :
  wellSpelled p -> wellSpelled (nextToken p).
Proof.
  intros (Hc & Hp & Ht). unfold nextToken, wellSpelled.
  destruct (TokenType_eqb _ _); [simpl; auto |].
  destruct (tokens p) as [ | tok rest] eqn:E; simpl.
  - repeat split; [exact Hp | constructor].
  - inversion Ht; subst. auto.
Qed.

Lemma consume_wellSpelled (expected : TokenType) (p p' : Parser) (u : unit) :
  wellSpelled p -> consumeOrFail expected p = Ok u p' -> wellSpelled p'.
Proof.
  intros Hp H. apply consumeOrFail_Ok in H as [-> _].
  apply nextToken_wellSpelled. exact Hp.
Qed.

Lemma spelled_arithmetic (tok : Token) :
  spelled tok ->
  tok_Type tok = PLUS \/ tok_Type tok = MINUS \/ tok_Type tok = SLASH \/
  tok_Type tok = STAR ->
  llvm.arithmetic (tok_Literal tok) = true.
Proof.
  unfold spelled. intros Hs [H | [H | [H | H]]]; rewrite H in Hs; rewrite Hs;
    reflexivity.
Qed.

(** What [parseExpression] returns is plain, and the tokens stay
    spelled. *)
Lemma expressions_are_plain (fuel : nat) :
  (forall precedence tt p e p',
      wellSpelled p ->
      parseExpression fuel precedence tt p = Ok e p' ->
      llvm.plain e = true /\ wellSpelled p') /\
  (forall precedence tt leftExp p e p',
      wellSpelled p -> llvm.plain leftExp = true ->
      parseExpressionLoop fuel precedence tt leftExp p = Ok e p' ->
      llvm.plain e = true /\ wellSpelled p') /\
  (forall tt p e p',
      wellSpelled p ->
      parseGroupedExpression fuel tt p = Ok e p' ->
      llvm.plain e = true /\ wellSpelled p') /\
  (forall left_ tt p e p',
      wellSpelled p -> llvm.plain left_ = true ->
      llvm.arithmetic (tok_Literal (curToken p)) = true ->
      parseInfixExpression fuel left_ tt p = Ok e p' ->
      llvm.plain e = true /\ wellSpelled p').
Proof.
  induction fuel as [ | fuel (IHe & IHl & IHg & IHi)].
  { refine (conj _ (conj _ (conj _ _))); intros; discriminate. }
  refine (conj _ (conj _ (conj _ _))).
  - intros precedence tt p e p' Hp H. cbn [parseExpression] in H.
    destruct (tok_Type (curToken p));
      try (apply Ok_inj in H as [<- <-]; split; [reflexivity | exact Hp]);
      try (refine (IHl _ _ _ _ _ _ Hp _ H); reflexivity).
    + destruct (vars p !! _); [| discriminate].
      refine (IHl _ _ _ _ _ _ Hp _ H); reflexivity.
    + bind_inv H as expression q Hg.
      destruct (IHg _ _ _ _ Hp Hg) as (Hplain & Hq).
      exact (IHl _ _ _ _ _ _ Hq Hplain H).
  - intros precedence tt leftExp p e p' Hp Hleft H.
    cbn [parseExpressionLoop] in H.
    destruct (negb _ && _).
    + destruct (tok_Type (peekToken p)) eqn:Hpk;
        try (apply Ok_inj in H as [<- <-]; split; [exact Hleft | exact Hp]);
        bind_inv H as exp q Hsub.
      5:{ destruct (parseFnCallExpression_FnCall _ _ _ _ _ _ Hsub)
            as (fnName & params & -> & _). discriminate. }
      all: assert (Harith : llvm.arithmetic
                     (tok_Literal (curToken (nextToken p))) = true)
          by (rewrite nextToken_cur; apply spelled_arithmetic;
              [apply Hp | rewrite Hpk; tauto]);
        destruct (IHi _ _ _ _ _ (nextToken_wellSpelled _ Hp) Hleft Harith Hsub)
          as (Hplain & Hq);
        exact (IHl _ _ _ _ _ _ Hq Hplain H).
    + destruct (Verify tt leftExp); [discriminate |].
      apply Ok_inj in H as [<- <-]. split; [exact Hleft | exact Hp].
  - intros tt p e p' Hp H. cbn [parseGroupedExpression] in H.
    bind_inv H as exp q Hsub. bind_inv H as u q' Hc.
    apply Ok_inj in H as [<- <-].
    destruct (IHe _ _ _ _ _ (nextToken_wellSpelled _ Hp) Hsub) as (Hplain & Hq).
    split; [exact Hplain | exact (consume_wellSpelled _ _ _ _ Hq Hc)].
  - intros left_ tt p e p' Hp Hleft Harith H. cbn [parseInfixExpression] in H.
    bind_inv H as exp q Hsub. apply Ok_inj in H as [<- <-].
    destruct (IHe _ _ _ _ _ (nextToken_wellSpelled _ Hp) Hsub) as (Hplain & Hq).
    split; [| exact Hq]. simpl. rewrite Hleft, Hplain, Harith. reflexivity.
Qed.

(** X21: of the expressions [parseExpression] returns, when the operator
    tokens hold their characters (as the tokens of the lexer do),
    [generateExpression] fails exactly on those with an operand missing: the
    operators are the four it has a case for, and there is no call, no
    unbound identifier and no prefix expression in them. *)
Theorem parsed_expression_lowers (fuel : nat) (precedence : Z) (tt : Type_)
    (e : Expression) (p p' : Parser) (gen : llvm.IRGenerator)
    (fnName : string) :
  wellSpelled p ->
  parseExpression fuel precedence tt p = Ok e p' ->
  is_Some (llvm.generateExpression gen e fnName) <-> llvm.complete e = true.
Proof.
  intros Hp H.
  destruct (proj1 (expressions_are_plain fuel) _ _ _ _ _ Hp H) as [Hplain _].
  rewrite <- (plain_lowerable _ Hplain).
  apply generateExpression_lowerable.
Qed.

Lemma classified_spelled (tok : Token) : classified tok -> spelled tok.
Proof.
  unfold classified, spelled. destruct (tok_Type tok); auto.
Qed.

Lemma NewParser_wellSpelled (toks : list Token) :
  Forall spelled toks -> wellSpelled (NewParser toks).
Proof.
  intros H. unfold NewParser. do 2 apply nextToken_wellSpelled.
  exact (conj I (conj I H)).
Qed.

(** ** What every parsing function keeps *)

Section Preservation.

(** A property of the parser that moving to the next token and recording a
    variable or a function keep. *)
Variable Q : Parser -> Prop.
Hypothesis Q_nextToken : forall p, Q p -> Q (nextToken p).
Hypothesis Q_setVar : forall p name stmt, Q p -> Q (setVar p name stmt).
Hypothesis Q_setFn : forall p name stmt, Q p -> Q (setFn p name stmt).

Lemma consume_preserves (expected : TokenType) (p p' : Parser) (u : unit) :
  Q p -> consumeOrFail expected p = Ok u p' -> Q p'.
Proof.
  intros Hp H. apply consumeOrFail_Ok in H as [-> _]. auto.
Qed.

Lemma expression_preserves (fuel : nat) :
  (forall precedence tt p e p',
      Q p -> parseExpression fuel precedence tt p = Ok e p' -> Q p') /\
  (forall precedence tt leftExp p e p',
      Q p -> parseExpressionLoop fuel precedence tt leftExp p = Ok e p' ->
      Q p') /\
  (forall tt p e p',
      Q p -> parseGroupedExpression fuel tt p = Ok e p' -> Q p') /\
  (forall left_ tt p e p',
      Q p -> parseInfixExpression fuel left_ tt p = Ok e p' -> Q p') /\
  (forall left_ tt p e p',
      Q p -> parseFnCallExpression fuel left_ tt p = Ok e p' -> Q p') /\
  (forall fnName args idx params p e p',
      Q p -> parseKnownParams fuel fnName args idx params p = Ok e p' ->
      Q p') /\
  (forall params p ps p',
      Q p -> parseUnknownParams fuel params p = Ok ps p' -> Q p').
Proof.
  induction fuel as [ | fuel (IHe & IHl & IHg & IHi & IHc & IHk & IHu)].
  { refine (conj _ (conj _ (conj _ (conj _ (conj _ (conj _ _))))));
      intros; discriminate. }
  refine (conj _ (conj _ (conj _ (conj _ (conj _ (conj _ _)))))).
  - intros precedence tt p e p' Hp H. cbn [parseExpression] in H.
    destruct (tok_Type (curToken p));
      try (apply Ok_inj in H as [_ <-]; exact Hp);
      try exact (IHl _ _ _ _ _ _ Hp H).
    + destruct (vars p !! _); [exact (IHl _ _ _ _ _ _ Hp H) | discriminate].
    + bind_inv H as expression q Hg.
      exact (IHl _ _ _ _ _ _ (IHg _ _ _ _ Hp Hg) H).
  - intros precedence tt leftExp p e p' Hp H. cbn [parseExpressionLoop] in H.
    destruct (negb _ && _).
    + destruct (tok_Type (peekToken p));
        try (apply Ok_inj in H as [_ <-]; exact Hp);
        bind_inv H as exp q Hsub; refine (IHl _ _ _ _ _ _ _ H);
        first [ exact (IHi _ _ _ _ _ (Q_nextToken _ Hp) Hsub)
              | exact (IHc _ _ _ _ _ (Q_nextToken _ Hp) Hsub) ].
    + destruct (Verify tt leftExp); [discriminate |].
      apply Ok_inj in H as [_ <-]. exact Hp.
  - intros tt p e p' Hp H. cbn [parseGroupedExpression] in H.
    bind_inv H as exp q Hsub. bind_inv H as u q' Hc.
    apply Ok_inj in H as [_ <-].
    exact (consume_preserves _ _ _ _ (IHe _ _ _ _ _ (Q_nextToken _ Hp) Hsub) Hc).
  - intros left_ tt p e p' Hp H. cbn [parseInfixExpression] in H.
    bind_inv H as exp q Hsub. apply Ok_inj in H as [_ <-].
    exact (IHe _ _ _ _ _ (Q_nextToken _ Hp) Hsub).
  - intros left_ tt p e p' Hp H. cbn [parseFnCallExpression] in H.
    destruct left_; try discriminate.
    destruct (fns p !! Value) as [fnStmt | ].
    + destruct (TokenType_eqb _ _).
      * apply Ok_inj in H as [_ <-]. auto.
      * exact (IHk _ _ _ _ _ _ _ Hp H).
    + destruct (TokenType_eqb _ _).
      * apply Ok_inj in H as [_ <-]. auto.
      * bind_inv H as params q Hsub. apply Ok_inj in H as [_ <-].
        apply Q_setFn. exact (IHu _ _ _ _ Hp Hsub).
  - intros fnName args idx params p e p' Hp H. cbn [parseKnownParams] in H.
    destruct args as [ | a args]; [discriminate |].
    destruct (parseExpression fuel LOWEST (arg_Type a) p) as [arg q | | | ] eqn:Hsub;
      try discriminate.
    pose proof (IHe _ _ _ _ _ Hp Hsub) as Hq.
    destruct (peekTokenIs RPAREN q).
    + apply Ok_inj in H as [_ <-]. auto.
    + bind_inv H as u q' Hc.
      exact (IHk _ _ _ _ _ _ _ (consume_preserves _ _ _ _ Hq Hc) H).
  - intros params p ps p' Hp H. cbn [parseUnknownParams] in H.
    destruct (parseExpression fuel LOWEST Void p) as [arg q | | | ] eqn:Hsub;
      try discriminate.
    pose proof (IHe _ _ _ _ _ Hp Hsub) as Hq.
    destruct (peekTokenIs RPAREN q).
    + apply Ok_inj in H as [_ <-]. auto.
    + bind_inv H as u q' Hc.
      exact (IHu _ _ _ _ (consume_preserves _ _ _ _ Hq Hc) H).
Qed.

(** The state in which [parseVarStatement] parses the value, and what it
    does with the state the value leaves. *)
Lemma parseVarStatement_value (fuel : nat) (p p' : Parser)
    (stmt : VarStatement) :
  Q p -> parseVarStatement fuel p = Ok stmt p' ->
  Q p' /\
  exists q q',
    Q q /\ parseExpression fuel LOWEST (var_Type stmt) q =
           Ok (var_Value stmt) q'.
Proof.
  unfold parseVarStatement. intros Hp H.
  bind_inv H as u1 p1 E1. pose proof (consume_preserves _ _ _ _ Hp E1) as Hp1.
  bind_inv H as type p2 Ety.
  assert (Hp2 : Q p2).
  { destruct (TokenType_eqb _ _).
    - bind_inv Ety as u2 p3 E3.
      destruct (getTypeFromLiteral _); [| discriminate].
      apply Ok_inj in Ety as [_ <-].
      exact (consume_preserves _ _ _ _ (Q_nextToken _ Hp1) E3).
    - apply Ok_inj in Ety as [_ <-]. exact Hp1. }
  bind_inv H as u3 p4 E4. pose proof (consume_preserves _ _ _ _ Hp2 E4) as Hp4.
  bind_inv H as expression p5 He.
  pose proof (proj1 (expression_preserves fuel) _ _ _ _ _
                (Q_nextToken _ Hp4) He) as Hp5.
  destruct (negb _); [discriminate |].
  apply Ok_inj in H as [<- <-]. split; [auto |].
  exists (nextToken p4), p5. split; [auto | exact He].
Qed.

Lemma parseReasignStatement_value (fuel : nat) (old : VarStatement)
    (p p' : Parser) (stmt : ReassignVarStatement) :
  Q p -> parseReasignStatement fuel old p = Ok stmt p' ->
  Q p' /\
  exists q q',
    Q q /\ parseExpression fuel LOWEST (var_Type old) q =
           Ok (reassign_Value stmt) q'.
Proof.
  unfold parseReasignStatement. intros Hp H.
  bind_inv H as u1 p1 E1. pose proof (consume_preserves _ _ _ _ Hp E1) as Hp1.
  destruct (parseExpression fuel LOWEST (var_Type old) (nextToken p1))
    as [newExp q | | | ] eqn:He; try discriminate.
  pose proof (proj1 (expression_preserves fuel) _ _ _ _ _
                (Q_nextToken _ Hp1) He) as Hq.
  destruct (negb _); [discriminate |].
  apply Ok_inj in H as [<- <-]. split; [auto |].
  exists (nextToken p1), q. split; [auto | exact He].
Qed.

Lemma parseReturnStatement_value (fuel : nat) (tt : Type_) (p p' : Parser)
    (stmt : ReturnStatement) :
  Q p -> parseReturnStatement fuel tt p = Ok stmt p' ->
  Q p' /\
  exists q q',
    Q q /\ parseExpression fuel LOWEST tt q = Ok (ret_Value stmt) q'.
Proof.
  unfold parseReturnStatement. intros Hp H.
  bind_inv H as expression q He.
  pose proof (proj1 (expression_preserves fuel) _ _ _ _ _
                (Q_nextToken _ Hp) He) as Hq.
  destruct (negb _); [discriminate |].
  apply Ok_inj in H as [<- <-]. split; [auto |].
  exists (nextToken p), q. split; [auto | exact He].
Qed.

Lemma parseFnArgs_preserves (fuel : nat) (args args' : list Argument)
    (p p' : Parser) :
  Q p -> parseFnArgs fuel args p = Ok args' p' -> Q p'.
Proof.
  revert args p. induction fuel as [ | fuel IH]; intros args p Hp H;
    cbn [parseFnArgs] in H; [discriminate |].
  destruct (peekTokenIs RPAREN p).
  { apply Ok_inj in H as [_ <-]. auto. }
  bind_inv H as u1 p1 E1. bind_inv H as u2 p2 E2. bind_inv H as u3 p3 E3.
  pose proof (consume_preserves _ _ _ _
                (consume_preserves _ _ _ _
                   (consume_preserves _ _ _ _ Hp E1) E2) E3) as Hp3.
  destruct (getTypeFromLiteral _); [| discriminate].
  destruct (TokenType_eqb _ _).
  { apply Ok_inj in H as [_ <-]. auto. }
  bind_inv H as u4 p4 E4.
  exact (IH _ _ (consume_preserves _ _ _ _ Hp3 E4) H).
Qed.

Lemma parseFnHead_preserves (fuel : nat) (p p' : Parser)
    (head : FnStatement * bool) :
  Q p -> parseFnHead fuel p = Ok head p' -> Q p'.
Proof.
  unfold parseFnHead, parseFnSignature. intros Hp H.
  bind_inv H as sig p1 Hsig. bind_inv Hsig as u1 q1 E1.
  pose proof (consume_preserves _ _ _ _ Hp E1) as Hq1.
  destruct (match fns q1 !! _ with Some _ => _ | None => _ end);
    [discriminate |].
  bind_inv Hsig as u2 q2 E2.
  pose proof (consume_preserves _ _ _ _ Hq1 E2) as Hq2.
  bind_inv Hsig as args q3 E3.
  pose proof (parseFnArgs_preserves _ _ _ _ _ Hq2 E3) as Hq3.
  apply Ok_inj in Hsig as [_ <-].
  destruct (reconcile _ _ _); [discriminate |].
  bind_inv H as ret p2 Hret.
  assert (Hp2 : Q p2).
  { destruct (TokenType_eqb _ _).
    - bind_inv Hret as u3 p3 E4.
      destruct (getTypeFromLiteral _); [| discriminate].
      apply Ok_inj in Hret as [_ <-].
      exact (consume_preserves _ _ _ _ (Q_nextToken _ Hq3) E4).
    - apply Ok_inj in Hret as [_ <-]. exact Hq3. }
  bind_inv H as u5 p5 E5.
  apply Ok_inj in H as [_ <-].
  exact (consume_preserves _ _ _ _ Hp2 E5).
Qed.

End Preservation.

(** ** From the parser to the generator: programs *)

Lemma setVar_wellSpelled (p : Parser) name stmt :
  wellSpelled p -> wellSpelled (setVar p name stmt).
Proof. intros H. exact H. Qed.

Lemma setFn_wellSpelled (p : Parser) name stmt :
  wellSpelled p -> wellSpelled (setFn p name stmt).
Proof. intros H. exact H. Qed.

Lemma parseExpression_plain (fuel : nat) (precedence : Z) (tt : Type_)
    (e : Expression) (p p' : Parser) :
  wellSpelled p -> parseExpression fuel precedence tt p = Ok e p' ->
  llvm.plain e = true.
Proof.
  intros Hp H. exact (proj1 (proj1 (expressions_are_plain fuel) _ _ _ _ _ Hp H)).
Qed.

(** The values of the statements the parser returns are plain, at any depth,
    and the tokens stay spelled. *)
Lemma statements_plain (fuel : nat) :
  (forall tt p node p',
      wellSpelled p -> parseStatement fuel tt p = Ok node p' ->
      llvm.plainNode node = true /\ wellSpelled p') /\
  (forall p stmt p',
      wellSpelled p -> parseFnStatement fuel p = Ok stmt p' ->
      llvm.plainNode (FnStatementNode stmt) = true /\ wellSpelled p') /\
  (forall tt body p body' p',
      wellSpelled p -> forallb llvm.plainNode body = true ->
      parseFnBody fuel tt body p = Ok body' p' ->
      forallb llvm.plainNode body' = true /\ wellSpelled p').
Proof.
  pose proof nextToken_wellSpelled as Hn.
  pose proof setVar_wellSpelled as Hv.
  pose proof setFn_wellSpelled as Hf.
  induction fuel as [ | fuel (IHs & IHf & IHb)].
  { refine (conj _ (conj _ _)); intros; discriminate. }
  refine (conj _ (conj _ _)).
  - intros tt p node p' Hp H. cbn [parseStatement] in H.
    destruct (tok_Type (curToken p)); try discriminate.
    + bind_inv H as stmt q Hs. apply Ok_inj in H as [<- <-].
      destruct (parseVarStatement_value _ Hn Hv Hf _ _ _ _ Hp Hs)
        as (Hq & q1 & q2 & Hq1 & He).
      split; [exact (parseExpression_plain _ _ _ _ _ _ Hq1 He) | exact Hq].
    + destruct (vars p !! _) as [old | ].
      * bind_inv H as stmt q Hs. apply Ok_inj in H as [<- <-].
        destruct (parseReasignStatement_value _ Hn Hf _ _ _ _ _ Hp Hs)
          as (Hq & q1 & q2 & Hq1 & He).
        split; [exact (parseExpression_plain _ _ _ _ _ _ Hq1 He) | exact Hq].
      * bind_inv H as u q1 Hc. bind_inv H as expr q2 Hcall.
        destruct (negb _); [discriminate |].
        apply Ok_inj in H as [<- <-]. split; [reflexivity |].
        apply Hn.
        refine (proj1 (proj2 (proj2 (proj2 (proj2
                  (expression_preserves _ Hn Hf fuel))))) _ _ _ _ _ _ Hcall).
        apply Hn. exact (consume_preserves _ Hn _ _ _ _ Hp Hc).
    + bind_inv H as stmt q Hs. apply Ok_inj in H as [<- <-].
      exact (IHf _ _ _ Hp Hs).
    + bind_inv H as stmt q Hs. apply Ok_inj in H as [<- <-].
      destruct (parseReturnStatement_value _ Hn Hf _ _ _ _ _ Hp Hs)
        as (Hq & q1 & q2 & Hq1 & He).
      split; [exact (parseExpression_plain _ _ _ _ _ _ Hq1 He) | exact Hq].
  - intros p stmt p' Hp H. cbn [parseFnStatement] in H.
    bind_inv H as head p1 Hhead. bind_inv H as body p2 Hbody.
    destruct (checkReturn _ _ _); [discriminate |].
    apply Ok_inj in H as [<- <-].
    pose proof (parseFnHead_preserves _ Hn _ _ _ _ Hp Hhead) as Hp1.
    destruct (IHb _ [] _ _ _ (Hn _ Hp1) eq_refl Hbody) as (Hplain & Hp2).
    split; [exact Hplain | apply Hf; exact Hp2].
  - intros tt body p body' p' Hp Hbody H. cbn [parseFnBody] in H.
    destruct (TokenType_eqb (tok_Type (curToken p)) RBRACE).
    { apply Ok_inj in H as [<- <-]. split; assumption. }
    destruct (TokenType_eqb (tok_Type (curToken p)) NEXTLINE).
    { exact (IHb _ _ _ _ _ (Hn _ Hp) Hbody H). }
    bind_inv H as innerStmt q Hs.
    destruct (IHs _ _ _ _ Hp Hs) as (Hplain & Hq).
    refine (IHb _ _ _ _ _ (Hn _ Hq) _ H).
    rewrite forallb_app, Hbody. simpl. rewrite Hplain. reflexivity.
Qed.

Lemma parseProgramLoop_plain (fuel : nat) (stmts : list Node)
    (p p' : Parser) (program : Program) :
  wellSpelled p -> forallb llvm.plainNode stmts = true ->
  parseProgramLoop fuel stmts p = Ok program p' ->
  forallb llvm.plainNode (Statements program) = true.
Proof.
  revert stmts p. induction fuel as [ | fuel IH]; intros stmts p Hp Hs H;
    cbn [parseProgramLoop] in H; [discriminate |].
  destruct (TokenType_eqb (tok_Type (curToken p)) EOF).
  { apply Ok_inj in H as [<- _]. exact Hs. }
  destruct (TokenType_eqb (tok_Type (curToken p)) NEXTLINE).
  { exact (IH _ _ (nextToken_wellSpelled _ Hp) Hs H). }
  bind_inv H as stmt q Hstmt.
  destruct (proj1 (statements_plain fuel) _ _ _ _ Hp Hstmt) as (Hplain & Hq).
  refine (IH _ _ (nextToken_wellSpelled _ Hq) _ H).
  rewrite forallb_app, Hs. simpl. rewrite Hplain. reflexivity.
Qed.

Lemma forallb_agree {A : Type} (f g : A -> bool) (l : list A) :
  Forall (fun x => f x = g x) l -> forallb f l = forallb g l.
Proof.
  induction 1 as [ | x l Hx _ IH]; [reflexivity |].
  simpl. rewrite Hx, IH. reflexivity.
Qed.

Lemma forallb_Forall_true {A : Type} (f : A -> bool) (l : list A) :
  forallb f l = true -> Forall (fun x => f x = true) l.
Proof.
  induction l as [ | x l IH]; [constructor |].
  simpl. intros H. apply andb_prop in H as [Hx Hl]. constructor; auto.
Qed.

Section Composition.

Variable ToVarAssignment : ReassignVarStatement -> VarStatement.

(** The statement [ToVarAssignment] gives has the value of the
    reassignment. *)
Hypothesis ToVarAssignment_Value :
  forall stmt, var_Value (ToVarAssignment stmt) = reassign_Value stmt.

Lemma storable_assignable (value : Expression) :
  llvm.plain value = true -> llvm.storable value = llvm.assignable value.
Proof.
  intros H. destruct value; try reflexivity; try discriminate.
  apply (plain_lowerable _ H).
Qed.

Lemma generable_compiles (node : Node) (fnName : string) :
  llvm.plainNode node = true ->
  llvm.generable ToVarAssignment fnName node = llvm.compiles fnName node.
Proof.
  revert fnName.
  induction node as [s | s | name args body returnType defined exprs IH | s | e]
    using Node_nested_ind; intros fnName Hplain; simpl in *.
  - apply storable_assignable. exact Hplain.
  - rewrite ToVarAssignment_Value. apply storable_assignable. exact Hplain.
  - f_equal. apply forallb_agree.
    apply forallb_Forall_true in Hplain.
    revert Hplain. induction IH as [ | n l Hn _ IHl]; intros Hplain;
      [constructor |].
    inversion Hplain; subst. constructor; [apply Hn; assumption | auto].
  - apply plain_lowerable. exact Hplain.
  - reflexivity.
Qed.

(** X22: parser and generator, on programs: when the operator tokens hold
    their characters and [ToVarAssignment] keeps the value of the
    reassignment, [GenerateIR] panics on a program [ParseProgram] returned
    exactly when, at some depth, a declaration or a reassignment has a value
    with an operand missing, a return has such a value or none, or a
    function is declared inside a function. *)
Theorem parsed_program_generates (fuel : nat) (p : Parser)
    (program : Program) (gen : llvm.IRGenerator) :
  wellSpelled p ->
  returned (ParseProgram fuel p) = Some program ->
  is_Some (llvm.GenerateIR ToVarAssignment gen program) <->
  forallb (llvm.compiles "") (Statements program) = true.
Proof.
  intros Hp H. apply returned_Some in H as [p' H].
  pose proof (parseProgramLoop_plain _ [] _ _ _ Hp eq_refl H) as Hplain.
  unfold llvm.GenerateIR.
  rewrite generate_generable by (left; reflexivity).
  rewrite (forallb_agree (llvm.generable ToVarAssignment "") (llvm.compiles ""));
    [reflexivity |].
  apply forallb_Forall_true in Hplain.
  eapply Forall_impl; [exact Hplain |].
  intros node Hnode. apply generable_compiles. exact Hnode.
Qed.

End Composition.

(** ** The scope of the variables *)

Section StatementPreservation.

Variable Q : Parser -> Prop.
Hypothesis Q_nextToken : forall p, Q p -> Q (nextToken p).
Hypothesis Q_setVar : forall p name stmt, Q p -> Q (setVar p name stmt).
Hypothesis Q_setFn : forall p name stmt, Q p -> Q (setFn p name stmt).

Lemma statement_preserves (fuel : nat) :
  (forall tt p node p',
      Q p -> parseStatement fuel tt p = Ok node p' -> Q p') /\
  (forall p stmt p',
      Q p -> parseFnStatement fuel p = Ok stmt p' -> Q p') /\
  (forall tt body p body' p',
      Q p -> parseFnBody fuel tt body p = Ok body' p' -> Q p').
Proof.
  induction fuel as [ | fuel (IHs & IHf & IHb)].
  { refine (conj _ (conj _ _)); intros; discriminate. }
  refine (conj _ (conj _ _)).
  - intros tt p node p' Hp H. cbn [parseStatement] in H.
    destruct (tok_Type (curToken p)); try discriminate.
    + bind_inv H as stmt q Hs. apply Ok_inj in H as [_ <-].
      exact (proj1 (parseVarStatement_value Q Q_nextToken Q_setVar Q_setFn
                      _ _ _ _ Hp Hs)).
    + destruct (vars p !! _) as [old | ].
      * bind_inv H as stmt q Hs. apply Ok_inj in H as [_ <-].
        exact (proj1 (parseReasignStatement_value Q Q_nextToken Q_setFn
                        _ _ _ _ _ Hp Hs)).
      * bind_inv H as u q1 Hc. bind_inv H as expr q2 Hcall.
        destruct (negb _); [discriminate |].
        apply Ok_inj in H as [_ <-]. apply Q_nextToken.
        refine (proj1 (proj2 (proj2 (proj2 (proj2
                  (expression_preserves Q Q_nextToken Q_setFn fuel)))))
                  _ _ _ _ _ _ Hcall).
        apply Q_nextToken.
        exact (consume_preserves Q Q_nextToken _ _ _ _ Hp Hc).
    + bind_inv H as stmt q Hs. apply Ok_inj in H as [_ <-].
      exact (IHf _ _ _ Hp Hs).
    + bind_inv H as stmt q Hs. apply Ok_inj in H as [_ <-].
      exact (proj1 (parseReturnStatement_value Q Q_nextToken Q_setFn
                      _ _ _ _ _ Hp Hs)).
  - intros p stmt p' Hp H. cbn [parseFnStatement] in H.
    bind_inv H as head p1 Hhead. bind_inv H as body p2 Hbody.
    destruct (checkReturn _ _ _); [discriminate |].
    apply Ok_inj in H as [_ <-]. apply Q_setFn.
    refine (IHb _ _ _ _ _ _ Hbody). apply Q_nextToken.
    exact (parseFnHead_preserves Q Q_nextToken _ _ _ _ Hp Hhead).
  - intros tt body p body' p' Hp H. cbn [parseFnBody] in H.
    destruct (TokenType_eqb (tok_Type (curToken p)) RBRACE).
    { apply Ok_inj in H as [_ <-]. exact Hp. }
    destruct (TokenType_eqb (tok_Type (curToken p)) NEXTLINE).
    { exact (IHb _ _ _ _ _ (Q_nextToken _ Hp) H). }
    bind_inv H as innerStmt q Hs.
    exact (IHb _ _ _ _ _ (Q_nextToken _ (IHs _ _ _ _ Hp Hs)) H).
Qed.

End StatementPreservation.

Lemma bound_nextToken (name : string) (p : Parser) :
  bound name p -> bound name (nextToken p).
Proof. unfold bound. rewrite nextToken_vars. auto. Qed.

Lemma bound_setVar (name : string) (p : Parser) other stmt :
  bound name p -> bound name (setVar p other stmt).
Proof.
  unfold bound, setVar. cbn [vars]. intros H.
  destruct (decide (other = name)) as [-> | Hne].
  - rewrite lookup_insert_eq. eexists; reflexivity.
  - rewrite lookup_insert_ne by exact Hne. exact H.
Qed.

Lemma bound_setFn (name : string) (p : Parser) other stmt :
  bound name p -> bound name (setFn p other stmt).
Proof. intros H. exact H. Qed.

(** A name that is bound stays bound, whatever is parsed. *)
Lemma statement_keeps_bound (fuel : nat) (name : string) :
  (forall tt p node p',
      bound name p -> parseStatement fuel tt p = Ok node p' -> bound name p') /\
  (forall p stmt p',
      bound name p -> parseFnStatement fuel p = Ok stmt p' -> bound name p') /\
  (forall tt body p body' p',
      bound name p -> parseFnBody fuel tt body p = Ok body' p' ->
      bound name p').
Proof.
  apply statement_preserves.
  - apply bound_nextToken.
  - intros p other stmt. apply bound_setVar.
  - intros p other stmt. apply bound_setFn.
Qed.

Lemma declares_fn (stmt : FnStatement) :
  declares (FnStatementNode stmt) = flat_map declares (Body stmt).
Proof. destruct stmt; reflexivity. Qed.

(** What a statement declares is bound after it, also what the statements
    inside a function declare. *)
Lemma statements_declare (fuel : nat) :
  (forall tt p node p',
      parseStatement fuel tt p = Ok node p' ->
      Forall (fun name => bound name p') (declares node)) /\
  (forall p stmt p',
      parseFnStatement fuel p = Ok stmt p' ->
      Forall (fun name => bound name p') (flat_map declares (Body stmt))) /\
  (forall tt body p body' p',
      parseFnBody fuel tt body p = Ok body' p' ->
      Forall (fun name => bound name p) (flat_map declares body) ->
      Forall (fun name => bound name p') (flat_map declares body')).
Proof.
  induction fuel as [ | fuel (IHs & IHf & IHb)].
  { refine (conj _ (conj _ _)); intros; discriminate. }
  refine (conj _ (conj _ _)).
  - intros tt p node p' H. cbn [parseStatement] in H.
    destruct (tok_Type (curToken p)); try discriminate.
    + bind_inv H as stmt q Hs. apply Ok_inj in H as [<- <-].
      destruct (parseVarStatement_Ok _ _ _ _ Hs) as (_ & _ & _ & Hvars & _).
      constructor; [| constructor]. unfold bound. rewrite Hvars.
      rewrite lookup_insert_eq. eexists; reflexivity.
    + destruct (vars p !! _) as [old | ].
      * bind_inv H as stmt q Hs. apply Ok_inj in H as [<- _]. constructor.
      * bind_inv H as u q1 Hc. bind_inv H as expr q2 Hcall.
        destruct (negb _); [discriminate |].
        apply Ok_inj in H as [<- _]. constructor.
    + bind_inv H as stmt q Hs. apply Ok_inj in H as [<- <-].
      rewrite declares_fn. exact (IHf _ _ _ Hs).
    + bind_inv H as stmt q Hs. apply Ok_inj in H as [<- _]. constructor.
  - intros p stmt p' H. cbn [parseFnStatement] in H.
    bind_inv H as head p1 Hhead. bind_inv H as body p2 Hbody.
    destruct (checkReturn _ _ _); [discriminate |].
    apply Ok_inj in H as [<- <-]. cbn [withBody Body].
    exact (IHb _ _ _ _ _ Hbody (Forall_nil_2 _)).
  - intros tt body p body' p' H Hbody. cbn [parseFnBody] in H.
    destruct (TokenType_eqb (tok_Type (curToken p)) RBRACE).
    { apply Ok_inj in H as [<- <-]. exact Hbody. }
    destruct (TokenType_eqb (tok_Type (curToken p)) NEXTLINE).
    { apply (IHb _ _ _ _ _ H).
      eapply Forall_impl; [exact Hbody |]. intros name. apply bound_nextToken. }
    bind_inv H as innerStmt q Hs.
    apply (IHb _ _ _ _ _ H).
    rewrite flat_map_app. apply Forall_app. split.
    + eapply Forall_impl; [exact Hbody |]. intros name Hb.
      apply bound_nextToken.
      exact (proj1 (statement_keeps_bound fuel name) _ _ _ _ Hb Hs).
    + simpl. rewrite app_nil_r.
      eapply Forall_impl; [exact (IHs _ _ _ _ Hs) |].
      intros name. apply bound_nextToken.
Qed.

Lemma parseProgramLoop_declares (fuel : nat) (stmts : list Node)
    (p p' : Parser) (program : Program) :
  parseProgramLoop fuel stmts p = Ok program p' ->
  (forall name, bound name p -> bound name p') /\
  (Forall (fun name => bound name p) (flat_map declares stmts) ->
   Forall (fun name => bound name p')
          (flat_map declares (Statements program))).
Proof.
  revert stmts p. induction fuel as [ | fuel IH]; intros stmts p H;
    cbn [parseProgramLoop] in H; [discriminate |].
  destruct (TokenType_eqb (tok_Type (curToken p)) EOF).
  { apply Ok_inj in H as [<- <-]. split; auto. }
  destruct (TokenType_eqb (tok_Type (curToken p)) NEXTLINE).
  { destruct (IH _ _ H) as [Hkeep Hdecl]. split.
    - intros name Hb. apply Hkeep, bound_nextToken, Hb.
    - intros Hs. apply Hdecl. eapply Forall_impl; [exact Hs |].
      intros name. apply bound_nextToken. }
  bind_inv H as stmt q Hs.
  destruct (IH _ _ H) as [Hkeep Hdecl]. split.
  - intros name Hb. apply Hkeep, bound_nextToken.
    exact (proj1 (statement_keeps_bound fuel name) _ _ _ _ Hb Hs).
  - intros Hstmts. apply Hdecl.
    rewrite flat_map_app. apply Forall_app. split.
    + eapply Forall_impl; [exact Hstmts |]. intros name Hb.
      apply bound_nextToken.
      exact (proj1 (statement_keeps_bound fuel name) _ _ _ _ Hb Hs).
    + simpl. rewrite app_nil_r.
      eapply Forall_impl; [exact (proj1 (statements_declare fuel) _ _ _ _ Hs) |].
      intros name. apply bound_nextToken.
Qed.

(** X26: the variables have one scope, the program: when [ParseProgram]
    returns, every name that was declared by a [var] statement, at the top
    level or inside a function at any depth, is in the variable table, and
    so is every name that was in it before. *)
Theorem declarations_are_global (fuel : nat) (p p' : Parser)
    (program : Program) :
  ParseProgram fuel p = Ok program p' ->
  (forall name, bound name p -> bound name p') /\
  Forall (fun name => bound name p') (flat_map declares (Statements program)).
Proof.
  intros H. destruct (parseProgramLoop_declares _ _ _ _ _ H) as [Hkeep Hdecl].
  split; [exact Hkeep | exact (Hdecl (Forall_nil_2 _))].
Qed.

(** ** The verifier and the generator *)

Lemma verifyInt32_complete (e : Expression) :
  verifyInt32 e = None -> llvm.complete e = true /\ callFree e.
Proof.
  induction e as [ | f ps | v | v t | v | v | v | lhs IHl op rhs IHr | op rhs IH ];
    simpl; try discriminate; try (intros _; split; [reflexivity | exact I]).
  - destruct (verifyInt32 lhs); [discriminate |].
    destruct (negb _); [discriminate |].
    destruct (verifyInt32 rhs); [discriminate |]. intros _.
    destruct (IHl eq_refl) as [-> Hl], (IHr eq_refl) as [-> Hr].
    split; [reflexivity | split; assumption].
  - destruct (_ || _); [discriminate |].
    destruct (verifyInt32 rhs); [discriminate |]. intros _.
    exact (IH eq_refl).
Qed.

Lemma verifyString_lowerable (e : Expression) :
  verifyString e = None ->
  llvm.complete e = true /\ callFree e /\ llvm.lowerable e = true.
Proof.
  induction e as [ | f ps | v | v t | v | v | v | lhs IHl op rhs IHr | op rhs IH ];
    simpl; try discriminate;
    try (intros _; split; [reflexivity | split; [exact I | reflexivity]]).
  destruct (verifyString lhs); [discriminate |].
  destruct (String.eqb_spec op "+") as [-> | _]; [| discriminate]. cbn [negb].
  destruct (verifyString rhs); [discriminate |]. intros _.
  destruct (IHl eq_refl) as (-> & Hl & ->), (IHr eq_refl) as (-> & Hr & ->).
  split; [reflexivity |]. split; [split; assumption | reflexivity].
Qed.

(** X27: what [Verify] accepts as [Int32] or as [String] has no operand
    missing, no call and no unbound identifier in it, at any depth; and what
    it accepts as [String] is lowered by [generateExpression] without a
    panic.  (What it accepts as [Int32] need not be: the operator test of
    [verifyInt32] lets other operators through.) *)
Theorem verified_expression_is_complete (tt : Type_) (e : Expression) :
  declarable tt -> Verify tt e = None ->
  llvm.complete e = true /\ callFree e /\
  (tt = String -> forall gen fnName,
      is_Some (llvm.generateExpression gen e fnName)).
Proof.
  intros [-> | ->] H; unfold Verify in H.
  - destruct (verifyInt32_complete e H) as [Hc Hf].
    split; [exact Hc |]. split; [exact Hf | discriminate].
  - destruct (verifyString_lowerable e H) as (Hc & Hf & Hl).
    split; [exact Hc |]. split; [exact Hf |].
    intros _ gen fnName. apply generateExpression_lowerable. exact Hl.
Qed.

(** ** The errors of the parser *)

Lemma bind_quiet {A B : Type} (c : Result A) (k : A -> Parser -> Result B) :
  quiet c -> (forall a q, c = Ok a q -> quiet (k a q)) -> quiet (bind c k).
Proof.
  intros Hc Hk. destruct c as [a q | err q | msg | ]; simpl;
    [exact (Hk a q eq_refl) | exact Hc | exact I | exact I].
Qed.

Lemma consume_quiet (expected : TokenType) (p : Parser) :
  quiet (consumeOrFail expected p).
Proof. unfold consumeOrFail. destruct (negb _); reflexivity. Qed.

Lemma verifyInt32_quiet (e : Expression) (err : error) :
  verifyInt32 e = Some err -> isReturnTypeError err = false.
Proof.
  revert err.
  induction e as [ | f ps | v | v t | v | v | v | lhs IHl op rhs IHr | op rhs IH ];
    intros err; simpl; try (intros [= <-]; reflexivity).
  - destruct (decide _); [discriminate | intros [= <-]; reflexivity].
  - destruct (verifyInt32 lhs) as [e1 | ]; [intros [= <-]; auto |].
    destruct (negb _); [intros [= <-]; reflexivity |].
    destruct (verifyInt32 rhs) as [e2 | ]; [intros [= <-]; auto | discriminate].
  - destruct (_ || _); [intros [= <-]; reflexivity |].
    destruct (verifyInt32 rhs) as [e2 | ]; [intros [= <-]; auto | discriminate].
Qed.

Lemma verifyString_quiet (e : Expression) (err : error) :
  verifyString e = Some err -> isReturnTypeError err = false.
Proof.
  revert err.
  induction e as [ | f ps | v | v t | v | v | v | lhs IHl op rhs IHr | op rhs IH ];
    intros err; simpl; try (intros [= <-]; reflexivity).
  - destruct (decide _); [discriminate | intros [= <-]; reflexivity].
  - destruct (verifyString lhs) as [e1 | ]; [intros [= <-]; auto |].
    destruct (negb _); [intros [= <-]; reflexivity |].
    destruct (verifyString rhs) as [e2 | ]; [intros [= <-]; auto | discriminate].
Qed.

Lemma Verify_quiet (tt : Type_) (e : Expression) (err : error) :
  Verify tt e = Some err -> isReturnTypeError err = false.
Proof.
  destruct tt; simpl.
  - discriminate.
  - apply verifyInt32_quiet.
  - apply verifyString_quiet.
  - intros [= <-]. reflexivity.
Qed.

Lemma expression_quiet (fuel : nat) :
  (forall precedence tt p, quiet (parseExpression fuel precedence tt p)) /\
  (forall precedence tt leftExp p,
      quiet (parseExpressionLoop fuel precedence tt leftExp p)) /\
  (forall tt p, quiet (parseGroupedExpression fuel tt p)) /\
  (forall left_ tt p, quiet (parseInfixExpression fuel left_ tt p)) /\
  (forall left_ tt p, quiet (parseFnCallExpression fuel left_ tt p)) /\
  (forall fnName args idx params p,
      quiet (parseKnownParams fuel fnName args idx params p)) /\
  (forall params p, quiet (parseUnknownParams fuel params p)).
Proof.
  induction fuel as [ | fuel (IHe & IHl & IHg & IHi & IHc & IHk & IHu)].
  { refine (conj _ (conj _ (conj _ (conj _ (conj _ (conj _ _))))));
      intros; exact I. }
  refine (conj _ (conj _ (conj _ (conj _ (conj _ (conj _ _)))))).
  - intros precedence tt p. cbn [parseExpression].
    destruct (tok_Type (curToken p)); try exact I; try apply IHl.
    + destruct (vars p !! _); [apply IHl | exact I].
    + apply bind_quiet; [apply IHg |]. intros. apply IHl.
  - intros precedence tt leftExp p. cbn [parseExpressionLoop].
    destruct (negb _ && _).
    + destruct (tok_Type (peekToken p)); try exact I;
        (apply bind_quiet; [first [apply IHi | apply IHc] |]);
        intros; apply IHl.
    + destruct (Verify tt leftExp) as [err | ] eqn:Hv; [| exact I].
      simpl. exact (Verify_quiet _ _ _ Hv).
  - intros tt p. cbn [parseGroupedExpression].
    apply bind_quiet; [apply IHe |]. intros.
    apply bind_quiet; [apply consume_quiet |]. intros. exact I.
  - intros left_ tt p. cbn [parseInfixExpression].
    apply bind_quiet; [apply IHe |]. intros. exact I.
  - intros left_ tt p. cbn [parseFnCallExpression].
    destruct left_; try reflexivity.
    destruct (fns p !! Value) as [fnStmt | ].
    + destruct (TokenType_eqb _ _); [exact I | apply IHk].
    + destruct (TokenType_eqb _ _); [exact I |].
      apply bind_quiet; [apply IHu |]. intros. exact I.
  - intros fnName args idx params p. cbn [parseKnownParams].
    destruct args as [ | a args]; [reflexivity |].
    destruct (parseExpression fuel LOWEST (arg_Type a) p) as [arg q | | | ];
      try exact I; [| reflexivity].
    destruct (peekTokenIs RPAREN q); [exact I |].
    apply bind_quiet; [apply consume_quiet |]. intros. apply IHk.
  - intros params p. cbn [parseUnknownParams].
    destruct (parseExpression fuel LOWEST Void p) as [arg q | | | ];
      try exact I; [| reflexivity].
    destruct (peekTokenIs RPAREN q); [exact I |].
    apply bind_quiet; [apply consume_quiet |]. intros. apply IHu.
Qed.

Lemma parseExpression_quiet fuel precedence tt (p : Parser) :
  quiet (parseExpression fuel precedence tt p).
Proof. apply expression_quiet. Qed.

Lemma parseVarStatement_quiet (fuel : nat) (p : Parser) :
  quiet (parseVarStatement fuel p).
Proof.
  unfold parseVarStatement.
  apply bind_quiet; [apply consume_quiet |]. intros u1 p1 _.
  apply bind_quiet.
  { destruct (TokenType_eqb _ _); [| exact I].
    apply bind_quiet; [apply consume_quiet |]. intros.
    destruct (getTypeFromLiteral _); exact I. }
  intros type p2 _.
  apply bind_quiet; [apply consume_quiet |]. intros u3 p4 _.
  apply bind_quiet; [apply parseExpression_quiet |]. intros.
  destruct (negb _); [reflexivity | exact I].
Qed.

Lemma parseReasignStatement_quiet (fuel : nat) old (p : Parser) :
  quiet (parseReasignStatement fuel old p).
Proof.
  unfold parseReasignStatement.
  apply bind_quiet; [apply consume_quiet |]. intros u1 p1 _.
  pose proof (parseExpression_quiet fuel LOWEST (var_Type old) (nextToken p1))
    as He.
  destruct (parseExpression fuel LOWEST (var_Type old) (nextToken p1));
    [destruct (negb _); [reflexivity | exact I] | exact He | exact I | exact I].
Qed.

Lemma parseReturnStatement_quiet (fuel : nat) tt (p : Parser) :
  quiet (parseReturnStatement fuel tt p).
Proof.
  unfold parseReturnStatement.
  apply bind_quiet; [apply parseExpression_quiet |]. intros.
  destruct (negb _); [reflexivity | exact I].
Qed.

Lemma parseFnArgs_quiet (fuel : nat) args (p : Parser) :
  quiet (parseFnArgs fuel args p).
Proof.
  revert args p. induction fuel as [ | fuel IH]; intros args p; [exact I |].
  cbn [parseFnArgs]. destruct (peekTokenIs RPAREN p); [exact I |].
  apply bind_quiet; [apply consume_quiet |]. intros u1 p1 _.
  apply bind_quiet; [apply consume_quiet |]. intros u2 p2 _.
  apply bind_quiet; [apply consume_quiet |]. intros u3 p3 _.
  destruct (getTypeFromLiteral _); [| exact I].
  destruct (TokenType_eqb _ _); [exact I |].
  apply bind_quiet; [apply consume_quiet |]. intros. apply IH.
Qed.

Lemma verifyCaptured_quiet (p : Parser) args exprs (err : error) :
  verifyCaptured p args exprs = Some err -> isReturnTypeError err = false.
Proof.
  revert exprs. induction args as [ | a args IH]; intros exprs;
    [discriminate |].
  destruct exprs as [ | e exprs]; [discriminate |]. simpl.
  destruct (Verify (arg_Type a) e) as [e1 | ] eqn:Hv; [| apply IH].
  intros [= <-]. simpl. exact (Verify_quiet _ _ _ Hv).
Qed.

Lemma reconcile_quiet (p : Parser) name args (err : error) :
  reconcile p name args = Some err -> isReturnTypeError err = false.
Proof.
  unfold reconcile. destruct (fns p !! name) as [fnStmt | ]; [| discriminate].
  destruct (negb (Defined fnStmt)); [| discriminate].
  destruct (negb _); [intros [= <-]; reflexivity |].
  apply verifyCaptured_quiet.
Qed.

Lemma parseFnHead_quiet (fuel : nat) (p : Parser) :
  quiet (parseFnHead fuel p).
Proof.
  unfold parseFnHead, parseFnSignature.
  apply bind_quiet.
  { apply bind_quiet; [apply consume_quiet |]. intros u1 q1 _.
    destruct (match fns q1 !! _ with Some _ => _ | None => _ end);
      [reflexivity |].
    apply bind_quiet; [apply consume_quiet |]. intros u2 q2 _.
    apply bind_quiet; [apply parseFnArgs_quiet |]. intros. exact I. }
  intros sig p1 _.
  destruct (reconcile p1 sig.1 sig.2) as [err | ] eqn:Hr.
  { simpl. exact (reconcile_quiet _ _ _ _ Hr). }
  apply bind_quiet.
  { destruct (TokenType_eqb _ _); [| exact I].
    apply bind_quiet; [apply consume_quiet |]. intros.
    destruct (getTypeFromLiteral _); exact I. }
  intros ret p2 _. apply bind_quiet; [apply consume_quiet |]. intros. exact I.
Qed.

(** The check that closes a function never finds a return of another type:
    the returns of the body were parsed for the return type. *)
Lemma checkReturn_quiet (p : Parser) (flag : bool) (stmt : FnStatement)
    (err : error) :
  Forall (sound (ReturnType stmt)) (Body stmt) ->
  checkReturn p flag stmt = Some err -> isReturnTypeError err = false.
Proof.
  intros Hbody. unfold checkReturn. destruct flag; [| discriminate].
  destruct (last (Body stmt)) as [node | ] eqn:Hlast;
    [| intros [= <-]; reflexivity].
  destruct node as [ | | | inner | ]; try (intros [= <-]; reflexivity).
  destruct (decide _) as [ | Hne]; [discriminate |]. exfalso. apply Hne.
  apply last_Some in Hlast as [init Heq]. rewrite Heq in Hbody.
  apply Forall_app in Hbody as [_ Hbody]. inversion Hbody as [ | ? ? Hs _].
  exact (proj1 Hs).
Qed.

Lemma statement_quiet (fuel : nat) :
  (forall tt p, quiet (parseStatement fuel tt p)) /\
  (forall p, quiet (parseFnStatement fuel p)) /\
  (forall tt body p, quiet (parseFnBody fuel tt body p)).
Proof.
  induction fuel as [ | fuel (IHs & IHf & IHb)].
  { refine (conj _ (conj _ _)); intros; exact I. }
  refine (conj _ (conj _ _)).
  - intros tt p. cbn [parseStatement].
    destruct (tok_Type (curToken p)); try reflexivity.
    + apply bind_quiet; [apply parseVarStatement_quiet |]. intros. exact I.
    + destruct (vars p !! _) as [old | ].
      * apply bind_quiet; [apply parseReasignStatement_quiet |]. intros. exact I.
      * apply bind_quiet; [apply consume_quiet |]. intros u q1 _.
        apply bind_quiet; [apply expression_quiet |]. intros.
        destruct (negb _); [reflexivity | exact I].
    + apply bind_quiet; [apply IHf |]. intros. exact I.
    + apply bind_quiet; [apply parseReturnStatement_quiet |]. intros. exact I.
  - intros p. cbn [parseFnStatement].
    apply bind_quiet; [apply parseFnHead_quiet |]. intros head p1 _.
    apply bind_quiet; [apply IHb |]. intros body p2 Hbody.
    destruct (checkReturn _ _ _) as [err | ] eqn:Hc; [| exact I].
    simpl. apply (checkReturn_quiet _ _ _ _) in Hc; [exact Hc |].
    cbn [withBody ReturnType Body].
    exact (proj2 (proj2 (statements_sound fuel)) _ _ _ _ _ Hbody
             (Forall_nil_2 _)).
  - intros tt body p. cbn [parseFnBody].
    destruct (TokenType_eqb (tok_Type (curToken p)) RBRACE); [exact I |].
    destruct (TokenType_eqb (tok_Type (curToken p)) NEXTLINE); [apply IHb |].
    apply bind_quiet; [apply IHs |]. intros. apply IHb.
Qed.

Lemma parseProgramLoop_quiet (fuel : nat) stmts (p : Parser) :
  quiet (parseProgramLoop fuel stmts p).
Proof.
  revert stmts p. induction fuel as [ | fuel IH]; intros stmts p; [exact I |].
  cbn [parseProgramLoop].
  destruct (TokenType_eqb (tok_Type (curToken p)) EOF); [exact I |].
  destruct (TokenType_eqb (tok_Type (curToken p)) NEXTLINE); [apply IH |].
  apply bind_quiet; [apply (proj1 (statement_quiet fuel)) |]. intros. apply IH.
Qed.

(** X28: the return-type error of [parseFnStatement] is dead code:
    [ParseProgram] never returns it, at any depth of wrapping.  A return is
    parsed and verified for the return type of its function, so the check
    that closes the function finds no return of another type; a body with a
    declared type that does not end with a return gives "function must have
    a return". *)
Theorem return_type_error_is_never_reported (fuel : nat) (p : Parser)
    (err : error) :
  outcome (ParseProgram fuel p) = Rejected err ->
  isReturnTypeError err = false.
Proof.
  intros H. pose proof (parseProgramLoop_quiet fuel [] p) as Hq.
  unfold ParseProgram in H.
  destruct (parseProgramLoop fuel [] p); try discriminate.
  injection H as <-. exact Hq.
Qed.

(** ** The panics of the parser *)

Lemma bind_calm {A B : Type} (c : Result A) (k : A -> Parser -> Result B) :
  calm c -> (forall a q, c = Ok a q -> calm (k a q)) -> calm (bind c k).
Proof.
  intros Hc Hk. destruct c as [a q | err q | msg | ]; simpl;
    [exact (Hk a q eq_refl) | exact I | exact Hc | exact I].
Qed.

Lemma consume_calm (expected : TokenType) (p : Parser) :
  calm (consumeOrFail expected p).
Proof. unfold consumeOrFail. destruct (negb _); exact I. Qed.

Lemma nextToken_typesKnown (p : Parser) :
  typesKnown p -> typesKnown (nextToken p).
Proof.
  intros (Hc & Hp & Ht). unfold nextToken, typesKnown.
  destruct (TokenType_eqb _ _); [simpl; auto |].
  destruct (tokens p) as [ | tok rest] eqn:E; simpl.
  - refine (conj Hp (conj _ (Forall_nil_2 _))). intros H. discriminate.
  - inversion Ht; subst. auto.
Qed.

Lemma setVar_typesKnown (p : Parser) name stmt :
  typesKnown p -> typesKnown (setVar p name stmt).
Proof. intros H. exact H. Qed.

Lemma setFn_typesKnown (p : Parser) name stmt :
  typesKnown p -> typesKnown (setFn p name stmt).
Proof. intros H. exact H. Qed.

(** Where the parser reads a type name, the token is a [RAWTYPE] token. *)
Lemma consume_RAWTYPE (p q : Parser) (u : unit) :
  typesKnown p -> consumeOrFail RAWTYPE p = Ok u q ->
  exists t, getTypeFromLiteral (tok_Literal (curToken q)) = Some t.
Proof.
  intros (_ & Hpk & _) Hc. apply consumeOrFail_Ok in Hc as [-> Hty].
  rewrite nextToken_cur. exact (Hpk Hty).
Qed.

Lemma expression_calm (fuel : nat) :
  (forall precedence tt p, calm (parseExpression fuel precedence tt p)) /\
  (forall precedence tt leftExp p,
      calm (parseExpressionLoop fuel precedence tt leftExp p)) /\
  (forall tt p, calm (parseGroupedExpression fuel tt p)) /\
  (forall left_ tt p, calm (parseInfixExpression fuel left_ tt p)) /\
  (forall left_ tt p, calm (parseFnCallExpression fuel left_ tt p)) /\
  (forall fnName args idx params p,
      calm (parseKnownParams fuel fnName args idx params p)) /\
  (forall params p, calm (parseUnknownParams fuel params p)).
Proof.
  induction fuel as [ | fuel (IHe & IHl & IHg & IHi & IHc & IHk & IHu)].
  { refine (conj _ (conj _ (conj _ (conj _ (conj _ (conj _ _))))));
      intros; exact I. }
  refine (conj _ (conj _ (conj _ (conj _ (conj _ (conj _ _)))))).
  - intros precedence tt p. cbn [parseExpression].
    destruct (tok_Type (curToken p)); try exact I; try apply IHl.
    + destruct (vars p !! _); [apply IHl | reflexivity].
    + apply bind_calm; [apply IHg |]. intros. apply IHl.
  - intros precedence tt leftExp p. cbn [parseExpressionLoop].
    destruct (negb _ && _).
    + destruct (tok_Type (peekToken p)); try exact I;
        (apply bind_calm; [first [apply IHi | apply IHc] |]);
        intros; apply IHl.
    + destruct (Verify tt leftExp); exact I.
  - intros tt p. cbn [parseGroupedExpression].
    apply bind_calm; [apply IHe |]. intros.
    apply bind_calm; [apply consume_calm |]. intros. exact I.
  - intros left_ tt p. cbn [parseInfixExpression].
    apply bind_calm; [apply IHe |]. intros. exact I.
  - intros left_ tt p. cbn [parseFnCallExpression].
    destruct left_; try exact I.
    destruct (fns p !! Value) as [fnStmt | ].
    + destruct (TokenType_eqb _ _); [exact I | apply IHk].
    + destruct (TokenType_eqb _ _); [exact I |].
      apply bind_calm; [apply IHu |]. intros. exact I.
  - intros fnName args idx params p. cbn [parseKnownParams].
    destruct args as [ | a args]; [exact I |].
    pose proof (IHe LOWEST (arg_Type a) p) as He.
    destruct (parseExpression fuel LOWEST (arg_Type a) p) as [arg q | | | ];
      try exact I; [| exact He].
    destruct (peekTokenIs RPAREN q); [exact I |].
    apply bind_calm; [apply consume_calm |]. intros. apply IHk.
  - intros params p. cbn [parseUnknownParams].
    pose proof (IHe LOWEST Void p) as He.
    destruct (parseExpression fuel LOWEST Void p) as [arg q | | | ];
      try exact I; [| exact He].
    destruct (peekTokenIs RPAREN q); [exact I |].
    apply bind_calm; [apply consume_calm |]. intros. apply IHu.
Qed.

Lemma parseExpression_calm fuel precedence tt (p : Parser) :
  calm (parseExpression fuel precedence tt p).
Proof. apply expression_calm. Qed.

Lemma parseVarStatement_calm (fuel : nat) (p : Parser) :
  typesKnown p -> calm (parseVarStatement fuel p).
Proof.
  intros Hp. unfold parseVarStatement.
  apply bind_calm; [apply consume_calm |]. intros u1 p1 E1.
  pose proof (consume_preserves _ nextToken_typesKnown _ _ _ _ Hp E1) as Hp1.
  apply bind_calm.
  { destruct (TokenType_eqb _ _); [| exact I].
    apply bind_calm; [apply consume_calm |]. intros u2 p2 E2.
    destruct (consume_RAWTYPE _ _ _ (nextToken_typesKnown _ Hp1) E2) as [t ->].
    exact I. }
  intros type p2 _.
  apply bind_calm; [apply consume_calm |]. intros u3 p4 _.
  apply bind_calm; [apply parseExpression_calm |]. intros.
  destruct (negb _); exact I.
Qed.

Lemma parseReasignStatement_calm (fuel : nat) old (p : Parser) :
  calm (parseReasignStatement fuel old p).
Proof.
  unfold parseReasignStatement.
  apply bind_calm; [apply consume_calm |]. intros u1 p1 _.
  pose proof (parseExpression_calm fuel LOWEST (var_Type old) (nextToken p1))
    as He.
  destruct (parseExpression fuel LOWEST (var_Type old) (nextToken p1));
    [destruct (negb _); exact I | exact I | exact He | exact I].
Qed.

Lemma parseReturnStatement_calm (fuel : nat) tt (p : Parser) :
  calm (parseReturnStatement fuel tt p).
Proof.
  unfold parseReturnStatement.
  apply bind_calm; [apply parseExpression_calm |]. intros.
  destruct (negb _); exact I.
Qed.

Lemma parseFnArgs_calm (fuel : nat) args (p : Parser) :
  typesKnown p -> calm (parseFnArgs fuel args p).
Proof.
  revert args p. induction fuel as [ | fuel IH]; intros args p Hp; [exact I |].
  cbn [parseFnArgs]. destruct (peekTokenIs RPAREN p); [exact I |].
  apply bind_calm; [apply consume_calm |]. intros u1 p1 E1.
  apply bind_calm; [apply consume_calm |]. intros u2 p2 E2.
  apply bind_calm; [apply consume_calm |]. intros u3 p3 E3.
  pose proof (consume_preserves _ nextToken_typesKnown _ _ _ _
                (consume_preserves _ nextToken_typesKnown _ _ _ _ Hp E1) E2)
    as Hp2.
  pose proof (consume_preserves _ nextToken_typesKnown _ _ _ _ Hp2 E3) as Hp3.
  destruct (consume_RAWTYPE _ _ _ Hp2 E3) as [t ->].
  destruct (TokenType_eqb _ _); [exact I |].
  apply bind_calm; [apply consume_calm |]. intros u4 p4 E4.
  apply IH. exact (consume_preserves _ nextToken_typesKnown _ _ _ _ Hp3 E4).
Qed.

Lemma parseFnHead_calm (fuel : nat) (p : Parser) :
  typesKnown p -> calm (parseFnHead fuel p).
Proof.
  intros Hp. unfold parseFnHead.
  apply bind_calm.
  { unfold parseFnSignature.
    apply bind_calm; [apply consume_calm |]. intros u1 q1 E1.
    pose proof (consume_preserves _ nextToken_typesKnown _ _ _ _ Hp E1) as Hq1.
    destruct (match fns q1 !! _ with Some _ => _ | None => _ end);
      [exact I |].
    apply bind_calm; [apply consume_calm |]. intros u2 q2 E2.
    apply bind_calm; [| intros; exact I].
    apply parseFnArgs_calm.
    exact (consume_preserves _ nextToken_typesKnown _ _ _ _ Hq1 E2). }
  intros sig p1 Hsig.
  assert (Hp1 : typesKnown p1).
  { unfold parseFnSignature in Hsig. bind_inv Hsig as u1 q1 E1.
    pose proof (consume_preserves _ nextToken_typesKnown _ _ _ _ Hp E1) as Hq1.
    destruct (match fns q1 !! _ with Some _ => _ | None => _ end);
      [discriminate |].
    bind_inv Hsig as u2 q2 E2. bind_inv Hsig as args q3 E3.
    apply Ok_inj in Hsig as [_ <-].
    apply (parseFnArgs_preserves _ nextToken_typesKnown _ _ _ _ _
             (consume_preserves _ nextToken_typesKnown _ _ _ _ Hq1 E2) E3). }
  destruct (reconcile _ _ _); [exact I |].
  apply bind_calm.
  { destruct (TokenType_eqb _ _); [| exact I].
    apply bind_calm; [apply consume_calm |]. intros u3 p3 E3.
    destruct (consume_RAWTYPE _ _ _ (nextToken_typesKnown _ Hp1) E3) as [t ->].
    exact I. }
  intros ret p2 _. apply bind_calm; [apply consume_calm |]. intros. exact I.
Qed.

Lemma statement_calm (fuel : nat) :
  (forall tt p, typesKnown p -> calm (parseStatement fuel tt p)) /\
  (forall p, typesKnown p -> calm (parseFnStatement fuel p)) /\
  (forall tt body p, typesKnown p -> calm (parseFnBody fuel tt body p)).
Proof.
  pose proof nextToken_typesKnown as Hn.
  pose proof setVar_typesKnown as Hv.
  pose proof setFn_typesKnown as Hf.
  induction fuel as [ | fuel (IHs & IHf & IHb)].
  { refine (conj _ (conj _ _)); intros; exact I. }
  refine (conj _ (conj _ _)).
  - intros tt p Hp. cbn [parseStatement].
    destruct (tok_Type (curToken p)); try exact I.
    + apply bind_calm; [apply parseVarStatement_calm; exact Hp |].
      intros. exact I.
    + destruct (vars p !! _) as [old | ].
      * apply bind_calm; [apply parseReasignStatement_calm |]. intros. exact I.
      * apply bind_calm; [apply consume_calm |]. intros u q1 _.
        apply bind_calm; [apply expression_calm |]. intros.
        destruct (negb _); exact I.
    + apply bind_calm; [apply IHf; exact Hp |]. intros. exact I.
    + apply bind_calm; [apply parseReturnStatement_calm |]. intros. exact I.
  - intros p Hp. cbn [parseFnStatement].
    apply bind_calm; [apply parseFnHead_calm; exact Hp |]. intros head p1 Hhead.
    pose proof (parseFnHead_preserves _ Hn _ _ _ _ Hp Hhead) as Hp1.
    apply bind_calm; [apply IHb; apply Hn; exact Hp1 |]. intros body p2 _.
    destruct (checkReturn _ _ _); exact I.
  - intros tt body p Hp. cbn [parseFnBody].
    destruct (TokenType_eqb (tok_Type (curToken p)) RBRACE); [exact I |].
    destruct (TokenType_eqb (tok_Type (curToken p)) NEXTLINE).
    { apply IHb. apply Hn. exact Hp. }
    apply bind_calm; [apply IHs; exact Hp |]. intros innerStmt q Hs.
    apply IHb. apply Hn.
    exact (proj1 (statement_preserves _ Hn Hv Hf fuel) _ _ _ _ Hp Hs).
Qed.

Lemma parseProgramLoop_calm (fuel : nat) stmts (p : Parser) :
  typesKnown p -> calm (parseProgramLoop fuel stmts p).
Proof.
  revert stmts p. induction fuel as [ | fuel IH]; intros stmts p Hp;
    [exact I |].
  cbn [parseProgramLoop].
  destruct (TokenType_eqb (tok_Type (curToken p)) EOF); [exact I |].
  destruct (TokenType_eqb (tok_Type (curToken p)) NEXTLINE).
  { apply IH. apply nextToken_typesKnown. exact Hp. }
  apply bind_calm; [apply (proj1 (statement_calm fuel)); exact Hp |].
  intros stmt q Hs. apply IH. apply nextToken_typesKnown.
  exact (proj1 (statement_preserves _ nextToken_typesKnown setVar_typesKnown
                  setFn_typesKnown fuel) _ _ _ _ Hp Hs).
Qed.

Lemma classified_knownType (tok : Token) : classified tok -> knownType tok.
Proof.
  unfold classified, knownType. intros H Hty. rewrite Hty in H.
  contradiction.
Qed.

Lemma NewParser_typesKnown (toks : list Token) :
  Forall knownType toks -> typesKnown (NewParser toks).
Proof.
  intros H. unfold NewParser. do 2 apply nextToken_typesKnown.
  refine (conj _ (conj _ H)); intros Hty; discriminate.
Qed.

(** X29: the parser has one way to crash: when the [RAWTYPE] tokens name
    types that [getTypeFromLiteral] knows, the only panic of [ParseProgram]
    is the nil pointer dereference (of an unbound identifier in an
    expression); and so it is for every source text, whose tokens have no
    [RAWTYPE] among them. *)
Theorem parser_panics_only_by_nil_dereference (fuel : nat) (msg : string) :
  (forall p, typesKnown p ->
     outcome (ParseProgram fuel p) = Crashed msg -> msg = nilDereference) /\
  (forall input, parseSource fuel input = Crashed msg -> msg = nilDereference).
Proof.
  assert (Hstate : forall p, typesKnown p ->
            outcome (ParseProgram fuel p) = Crashed msg ->
            msg = nilDereference).
  { intros p Hp H. pose proof (parseProgramLoop_calm fuel [] p Hp) as Hc.
    unfold ParseProgram in H.
    destruct (parseProgramLoop fuel [] p); try discriminate.
    injection H as <-. exact Hc. }
  split; [exact Hstate |].
  intros input H. refine (Hstate _ (NewParser_typesKnown _ _) H).
  eapply Forall_impl; [| exact classified_knownType].
  unfold NextToken. apply tokensFrom_spec. lia.
Qed.

(** ** [filepath.Ext] and [FromFile] *)

(** The scan gives a suffix of the path. *)
Lemma extScan_suffix (path ext : string) :
  os.extScan path = Some ext -> exists base, path = base ++ ext.
Proof.
  revert ext. induction path as [ | c rest IH]; intros ext H;
    cbn [os.extScan] in H; [discriminate |].
  destruct (os.extScan rest) as [e | ].
  - injection H as <-. destruct (IH e eq_refl) as [base ->].
    exists (String.String c base). reflexivity.
  - destruct (Ascii.eqb c "."); [injection H as <-; exists ""; reflexivity |].
    destruct (Ascii.eqb c "/"); [| discriminate].
    injection H as <-. exists (String.String c rest).
    clear. induction (String.String c rest) as [ | d s IHs]; [reflexivity |].
    rewrite append_cons, <- IHs. reflexivity.
Qed.

Lemma extScan_lt (base : string) : os.extScan (base ++ ".lt") = Some ".lt".
Proof.
  induction base as [ | c base IH]; [reflexivity |].
  rewrite append_cons. cbn [os.extScan]. rewrite IH. reflexivity.
Qed.

Lemma Ext_lt (path : string) :
  os.Ext path = ".lt" <-> exists base, path = base ++ ".lt".
Proof.
  unfold os.Ext. split.
  - destruct (os.extScan path) as [ext | ] eqn:H; simpl; [| discriminate].
    intros ->. exact (extScan_suffix _ _ H).
  - intros [base ->]. rewrite extScan_lt. reflexivity.
Qed.

(** X15: [FromFile] reads the file exactly when the path ends with [.lt];
    it then gives the contents with the cursor at 0, or the read error. *)
Theorem FromFile_reads_lt_files (fs : string -> option string)
    (sourcePath : string) :
  ((exists base, sourcePath = base ++ ".lt") ->
   source.FromFile fs sourcePath =
     ([os.ReadFile sourcePath],
      match fs sourcePath with
      | Some contents => inl (source.mkSourceFile contents 0 sourcePath)
      | None => inr (source.errReadFile sourcePath)
      end))
  /\ (fst (source.FromFile fs sourcePath) = [os.ReadFile sourcePath] ->
      exists base, sourcePath = base ++ ".lt").
Proof.
  unfold source.FromFile, source.allowedExtensions. split.
  - intros H. apply Ext_lt in H. rewrite H. simpl.
    destruct (fs sourcePath); reflexivity.
  - destruct (String.eqb_spec (os.Ext sourcePath) ".lt") as [E | _]; simpl.
    + intros _. apply Ext_lt. exact E.
    + discriminate.
Qed.

(** ** [SourceFile.Read] *)

Lemma take_add {A : Type} (a b : nat) (l : list A) :
  take (a + b) l = (take a l ++ take b (drop a l))%list.
Proof.
  revert l. induction a as [ | a IH]; intros [ | x l]; simpl;
    try reflexivity.
  - destruct b; reflexivity.
  - rewrite IH. reflexivity.
Qed.

Lemma drop_length_take {A : Type} (n : nat) (l : list A) :
  drop (length (take n l)) l = drop n l.
Proof.
  rewrite length_take. destruct (Nat.le_gt_cases n (length l)) as [H | H].
  - rewrite Nat.min_l by exact H. reflexivity.
  - rewrite Nat.min_r by lia. rewrite !drop_ge by lia. reflexivity.
Qed.

(** What a sequence of reads returns, one buffer size per read. *)
Lemma readAll_spec (sizes : list nat) (s s' : source.SourceFile)
    (chunks : list string) :
  0 <= source.cursorAt s ->
  source.readAll s sizes = (chunks, s') ->
  concat (map list_ascii_of_string chunks) =
    take (sum_list sizes)
         (drop (Z.to_nat (source.cursorAt s))
               (list_ascii_of_string (source.source s))) /\
  source.source s' = source.source s /\
  source.cursorAt s' =
    source.cursorAt s +
    Z.of_nat (length (concat (map list_ascii_of_string chunks))).
Proof.
  revert s chunks. induction sizes as [ | size sizes IH]; intros s chunks Hc H.
  - injection H as <- <-. simpl. repeat split. lia.
  - cbn [source.readAll] in H. unfold source.Read in H.
    set (text := list_ascii_of_string (source.source s)) in *.
    set (start := Z.to_nat (source.cursorAt s)) in *.
    destruct (source.readAll _ sizes) as [chunks' s2] eqn:Hrest.
    injection H as <- <-.
    apply IH in Hrest as (Hcat & Hsrc & Hcur);
      [| cbn [source.cursorAt]; lia].
    cbn [source.source source.cursorAt] in Hcat, Hsrc, Hcur.
    fold text in Hcat.
    replace (Z.to_nat (source.cursorAt s
                       + Z.of_nat (length (take size (drop start text)))))
      with (start + length (take size (drop start text)))%nat in Hcat
      by (subst start; lia).
    rewrite <- drop_drop, drop_length_take in Hcat.
    cbn [map concat sum_list sum_list_with].
    rewrite list_ascii_of_string_of_list_ascii.
    split; [| split; [exact Hsrc |]].
    + rewrite take_add, Hcat. reflexivity.
    + rewrite Hcur, length_app. lia.
Qed.

(** X16: reading a source file buffer by buffer gives its text in order: the
    reads return what the buffers can hold of the text, and all of it once
    their sizes add up to its length; a read at the end of the text returns
    no byte and leaves the file as it is (the error is nil in every case,
    there is no end-of-file signal). *)
Theorem reads_give_the_text_in_order (contents path : string)
    (sizes : list nat) :
  concat (map list_ascii_of_string
              (fst (source.readAll (source.mkSourceFile contents 0 path)
                                   sizes))) =
    take (sum_list sizes) (list_ascii_of_string contents)
  /\ ((String.length contents <= sum_list sizes)%nat ->
      concat (map list_ascii_of_string
                  (fst (source.readAll (source.mkSourceFile contents 0 path)
                                       sizes))) =
        list_ascii_of_string contents)
  /\ (forall size,
        source.Read (source.mkSourceFile contents
                       (Z.of_nat (String.length contents)) path) size =
          ("", source.mkSourceFile contents
                 (Z.of_nat (String.length contents)) path)).
Proof.
  assert (Hlength : length (list_ascii_of_string contents)
                    = String.length contents).
  { clear. induction contents as [ | c contents IH]; simpl; [| rewrite IH];
      reflexivity. }
  destruct (source.readAll (source.mkSourceFile contents 0 path) sizes)
    as [chunks s'] eqn:H.
  apply readAll_spec in H as (Hcat & _); [| simpl; lia].
  cbn [fst source.source source.cursorAt] in *. simpl in Hcat.
  split; [exact Hcat |]. split.
  - intros Hlen. rewrite Hcat. apply take_ge. lia.
  - intros size. unfold source.Read.
    cbn [source.source source.cursorAt source.path].
    rewrite Nat2Z.id, drop_ge by lia. rewrite take_nil. simpl.
    rewrite Z.add_0_r. reflexivity.
Qed.

(** ** Termination *)

Lemma pending_pos (t : Token) : tok_Type t <> EOF -> pending t = 1%nat.
Proof.
  intros H. unfold pending.
  destruct (TokenType_eqb _ _) eqn:E; [| reflexivity].
  apply bool_decide_eq_true in E. contradiction.
Qed.

Lemma pending_le (t : Token) : (pending t <= 1)%nat.
Proof. unfold pending. destruct (TokenType_eqb _ _); lia. Qed.

Lemma nextToken_weight (p : Parser) :
  (weight (nextToken p) <= weight p)%nat /\
  (tok_Type (curToken p) <> EOF \/ tok_Type (peekToken p) <> EOF ->
   (weight (nextToken p) < weight p)%nat).
Proof.
  unfold nextToken, weight.
  destruct (TokenType_eqb (tok_Type (peekToken p)) EOF) eqn:E.
  - cbn [setTokens tokens curToken peekToken].
    assert (Hp : pending (peekToken p) = 0%nat) by (unfold pending; rewrite E; reflexivity).
    rewrite Hp. split; [lia |].
    intros [H | H].
    + rewrite (pending_pos _ H). lia.
    + apply bool_decide_eq_true in E. contradiction.
  - assert (Hp : pending (peekToken p) = 1%nat) by (unfold pending; rewrite E; reflexivity).
    destruct (tokens p) as [ | t rest];
      cbn [setTokens tokens curToken peekToken length]; rewrite Hp.
    + change (pending (mkToken EOF "" 0 0)) with 0%nat. split; intros; lia.
    + pose proof (pending_le t). split; intros; lia.
Qed.

Lemma consume_weight (expected : TokenType) (p q : Parser) (u : unit) :
  expected <> EOF ->
  consumeOrFail expected p = Ok u q -> (weight q < weight p)%nat.
Proof.
  intros Hne H. apply consumeOrFail_Ok in H as [-> Hpk].
  apply nextToken_weight. right. congruence.
Qed.

Lemma setFn_weight (p : Parser) name fnStmt :
  weight (setFn p name fnStmt) = weight p.
Proof. reflexivity. Qed.

Lemma setVar_weight (p : Parser) name stmt :
  weight (setVar p name stmt) = weight p.
Proof. reflexivity. Qed.

(** No parsing function of the expressions puts tokens back. *)
Lemma expression_weight (fuel : nat) :
  (forall precedence tt p e p',
      parseExpression fuel precedence tt p = Ok e p' ->
      (weight p' <= weight p)%nat) /\
  (forall precedence tt leftExp p e p',
      parseExpressionLoop fuel precedence tt leftExp p = Ok e p' ->
      (weight p' <= weight p)%nat) /\
  (forall tt p e p',
      parseGroupedExpression fuel tt p = Ok e p' ->
      (weight p' <= weight p)%nat) /\
  (forall left_ tt p e p',
      parseInfixExpression fuel left_ tt p = Ok e p' ->
      (weight p' <= weight p)%nat) /\
  (forall left_ tt p e p',
      parseFnCallExpression fuel left_ tt p = Ok e p' ->
      (weight p' <= weight p)%nat) /\
  (forall fnName args idx params p e p',
      parseKnownParams fuel fnName args idx params p = Ok e p' ->
      (weight p' <= weight p)%nat) /\
  (forall params p ps p',
      parseUnknownParams fuel params p = Ok ps p' ->
      (weight p' <= weight p)%nat).
Proof.
  induction fuel as [ | fuel (IHe & IHl & IHg & IHi & IHc & IHk & IHu)].
  { refine (conj _ (conj _ (conj _ (conj _ (conj _ (conj _ _))))));
      intros; discriminate. }
  refine (conj _ (conj _ (conj _ (conj _ (conj _ (conj _ _)))))).
  - intros precedence tt p e p' H. cbn [parseExpression] in H.
    destruct (tok_Type (curToken p));
      try (apply Ok_inj in H as [_ <-]; lia);
      try exact (IHl _ _ _ _ _ _ H).
    + destruct (vars p !! _); [exact (IHl _ _ _ _ _ _ H) | discriminate].
    + bind_inv H as expression q Hg.
      pose proof (IHg _ _ _ _ Hg). pose proof (IHl _ _ _ _ _ _ H). lia.
  - intros precedence tt leftExp p e p' H. cbn [parseExpressionLoop] in H.
    pose proof (proj1 (nextToken_weight p)) as Hn.
    destruct (negb _ && _).
    + destruct (tok_Type (peekToken p));
        try (apply Ok_inj in H as [_ <-]; lia);
        bind_inv H as exp q Hsub; pose proof (IHl _ _ _ _ _ _ H);
        first [ pose proof (IHi _ _ _ _ _ Hsub)
              | pose proof (IHc _ _ _ _ _ Hsub) ]; lia.
    + destruct (Verify tt leftExp); [discriminate |].
      apply Ok_inj in H as [_ <-]. lia.
  - intros tt p e p' H. cbn [parseGroupedExpression] in H.
    bind_inv H as exp q Hsub. bind_inv H as u q' Hc.
    apply Ok_inj in H as [_ <-].
    pose proof (proj1 (nextToken_weight p)).
    pose proof (IHe _ _ _ _ _ Hsub).
    pose proof (consume_weight RPAREN _ _ _ ltac:(discriminate) Hc). lia.
  - intros left_ tt p e p' H. cbn [parseInfixExpression] in H.
    bind_inv H as exp q Hsub. apply Ok_inj in H as [_ <-].
    pose proof (proj1 (nextToken_weight p)).
    pose proof (IHe _ _ _ _ _ Hsub). lia.
  - intros left_ tt p e p' H. cbn [parseFnCallExpression] in H.
    destruct left_; try discriminate.
    pose proof (proj1 (nextToken_weight p)).
    destruct (fns p !! Value) as [fnStmt | ].
    + destruct (TokenType_eqb _ _).
      * apply Ok_inj in H as [_ <-]. lia.
      * exact (IHk _ _ _ _ _ _ _ H).
    + destruct (TokenType_eqb _ _).
      * apply Ok_inj in H as [_ <-]. rewrite setFn_weight. lia.
      * bind_inv H as params q Hsub. apply Ok_inj in H as [_ <-].
        rewrite setFn_weight. exact (IHu _ _ _ _ Hsub).
  - intros fnName args idx params p e p' H. cbn [parseKnownParams] in H.
    destruct args as [ | a args]; [discriminate |].
    destruct (parseExpression fuel LOWEST (arg_Type a) p) as [arg q | | | ] eqn:Hsub;
      try discriminate.
    pose proof (IHe _ _ _ _ _ Hsub).
    pose proof (proj1 (nextToken_weight q)).
    destruct (peekTokenIs RPAREN q).
    + apply Ok_inj in H as [_ <-]. lia.
    + bind_inv H as u q' Hc.
      pose proof (consume_weight COMMA _ _ _ ltac:(discriminate) Hc).
      pose proof (IHk _ _ _ _ _ _ _ H). lia.
  - intros params p ps p' H. cbn [parseUnknownParams] in H.
    destruct (parseExpression fuel LOWEST Void p) as [arg q | | | ] eqn:Hsub;
      try discriminate.
    pose proof (IHe _ _ _ _ _ Hsub).
    pose proof (proj1 (nextToken_weight q)).
    destruct (peekTokenIs RPAREN q).
    + apply Ok_inj in H as [_ <-]. lia.
    + bind_inv H as u q' Hc.
      pose proof (consume_weight COMMA _ _ _ ltac:(discriminate) Hc).
      pose proof (IHu _ _ _ _ H). lia.
Qed.

Lemma bind_fuel {A B : Type} (c : Result A) (k : A -> Parser -> Result B) :
  c <> OutOfFuel ->
  (forall a q, c = Ok a q -> k a q <> OutOfFuel) ->
  bind c k <> OutOfFuel.
Proof.
  intros Hc Hk. destruct c as [a q | err q | msg | ]; simpl;
    [exact (Hk a q eq_refl) | discriminate | discriminate | contradiction].
Qed.

Lemma consume_fuel (expected : TokenType) (p : Parser) :
  consumeOrFail expected p <> OutOfFuel.
Proof. unfold consumeOrFail. destruct (negb _); discriminate. Qed.

(** With fuel in proportion to the tokens that are left, no parsing function
    of the expressions runs out of it. *)
Lemma expression_fuel (fuel : nat) :
  (forall precedence tt p,
      (4 * weight p + 4 <= fuel)%nat ->
      parseExpression fuel precedence tt p <> OutOfFuel) /\
  (forall precedence tt leftExp p,
      (4 * weight p + 3 <= fuel)%nat ->
      parseExpressionLoop fuel precedence tt leftExp p <> OutOfFuel) /\
  (forall tt p,
      tok_Type (curToken p) <> EOF ->
      (4 * weight p + 3 <= fuel)%nat ->
      parseGroupedExpression fuel tt p <> OutOfFuel) /\
  (forall left_ tt p,
      (4 * weight p + 5 <= fuel)%nat ->
      parseInfixExpression fuel left_ tt p <> OutOfFuel) /\
  (forall left_ tt p,
      (4 * weight p + 6 <= fuel)%nat ->
      parseFnCallExpression fuel left_ tt p <> OutOfFuel) /\
  (forall fnName args idx params p,
      (4 * weight p + 5 <= fuel)%nat ->
      parseKnownParams fuel fnName args idx params p <> OutOfFuel) /\
  (forall params p,
      (4 * weight p + 5 <= fuel)%nat ->
      parseUnknownParams fuel params p <> OutOfFuel).
Proof.
  induction fuel as [ | fuel (IHe & IHl & IHg & IHi & IHc & IHk & IHu)].
  { refine (conj _ (conj _ (conj _ (conj _ (conj _ (conj _ _))))));
      intros; lia. }
  pose proof (expression_weight fuel) as (We & Wl & Wg & Wi & Wc & Wk & Wu).
  refine (conj _ (conj _ (conj _ (conj _ (conj _ (conj _ _)))))).
  - intros precedence tt p Hf. cbn [parseExpression].
    destruct (tok_Type (curToken p)) eqn:Hty; try discriminate;
      try (apply IHl; lia).
    + destruct (vars p !! _); [apply IHl; lia | discriminate].
    + apply bind_fuel.
      * apply IHg; [rewrite Hty; discriminate | lia].
      * intros expression q Hg. apply IHl. pose proof (Wg _ _ _ _ Hg). lia.
  - intros precedence tt leftExp p Hf. cbn [parseExpressionLoop].
    destruct (negb _ && _).
    + destruct (tok_Type (peekToken p)) eqn:Hpk; try discriminate;
        (assert (Hlt : (weight (nextToken p) < weight p)%nat)
           by (apply nextToken_weight; right; rewrite Hpk; discriminate));
        apply bind_fuel;
        try (apply IHi; lia); try (apply IHc; lia);
        intros exp q Hsub; apply IHl;
        first [ pose proof (Wi _ _ _ _ _ Hsub)
              | pose proof (Wc _ _ _ _ _ Hsub) ]; lia.
    + destruct (Verify tt leftExp); discriminate.
  - intros tt p Hcur Hf. cbn [parseGroupedExpression].
    assert (Hlt : (weight (nextToken p) < weight p)%nat)
      by (apply nextToken_weight; left; exact Hcur).
    apply bind_fuel; [apply IHe; lia |].
    intros exp q Hsub. apply bind_fuel; [apply consume_fuel |].
    intros; discriminate.
  - intros left_ tt p Hf. cbn [parseInfixExpression].
    pose proof (proj1 (nextToken_weight p)).
    apply bind_fuel; [apply IHe; lia | intros; discriminate].
  - intros left_ tt p Hf. cbn [parseFnCallExpression].
    destruct left_; try discriminate.
    destruct (fns p !! Value).
    + destruct (TokenType_eqb _ _); [discriminate | apply IHk; lia].
    + destruct (TokenType_eqb _ _); [discriminate |].
      apply bind_fuel; [apply IHu; lia | intros; discriminate].
  - intros fnName args idx params p Hf. cbn [parseKnownParams].
    destruct args as [ | a args]; [discriminate |].
    pose proof (IHe LOWEST (arg_Type a) p ltac:(lia)) as He.
    destruct (parseExpression fuel LOWEST (arg_Type a) p) as [arg q | | | ] eqn:Hsub;
      try discriminate; [| contradiction].
    pose proof (We _ _ _ _ _ Hsub).
    destruct (peekTokenIs RPAREN q); [discriminate |].
    apply bind_fuel; [apply consume_fuel |].
    intros u q' Hc.
    pose proof (consume_weight COMMA _ _ _ ltac:(discriminate) Hc).
    apply IHk. lia.
  - intros params p Hf. cbn [parseUnknownParams].
    pose proof (IHe LOWEST Void p ltac:(lia)) as He.
    destruct (parseExpression fuel LOWEST Void p) as [arg q | | | ] eqn:Hsub;
      try discriminate; [| contradiction].
    pose proof (We _ _ _ _ _ Hsub).
    destruct (peekTokenIs RPAREN q); [discriminate |].
    apply bind_fuel; [apply consume_fuel |].
    intros u q' Hc.
    pose proof (consume_weight COMMA _ _ _ ltac:(discriminate) Hc).
    apply IHu. lia.
Qed.

(** ** Statements *)

Lemma parseExpression_weight fuel precedence tt e (p p' : Parser) :
  parseExpression fuel precedence tt p = Ok e p' ->
  (weight p' <= weight p)%nat.
Proof. exact (proj1 (expression_weight fuel) precedence tt p e p'). Qed.

Lemma parseVarStatement_weight (fuel : nat) (p p' : Parser) stmt :
  parseVarStatement fuel p = Ok stmt p' -> (weight p' < weight p)%nat.
Proof.
  unfold parseVarStatement. intros H.
  bind_inv H as u1 p1 E1.
  pose proof (consume_weight IDENT _ _ _ ltac:(discriminate) E1).
  bind_inv H as type p2 Hty.
  assert (weight p2 <= weight p1)%nat.
  { destruct (TokenType_eqb _ _).
    - bind_inv Hty as u2 p3 E3.
      pose proof (consume_weight RAWTYPE _ _ _ ltac:(discriminate) E3).
      pose proof (proj1 (nextToken_weight p1)).
      destruct (getTypeFromLiteral _); [| discriminate].
      apply Ok_inj in Hty as [_ <-]. lia.
    - apply Ok_inj in Hty as [_ <-]. lia. }
  bind_inv H as u3 p4 E4.
  pose proof (consume_weight ASSIGN _ _ _ ltac:(discriminate) E4).
  bind_inv H as expression p5 He.
  pose proof (parseExpression_weight _ _ _ _ _ _ He).
  pose proof (proj1 (nextToken_weight p4)).
  destruct (negb _); [discriminate |].
  apply Ok_inj in H as [_ <-].
  pose proof (proj1 (nextToken_weight (setVar p5 (tok_Literal (curToken p1))
     (mkVarStatement (tok_Literal (curToken p1)) expression type)))).
  rewrite setVar_weight in *. lia.
Qed.

Lemma parseReasignStatement_weight (fuel : nat) old (p p' : Parser) stmt :
  parseReasignStatement fuel old p = Ok stmt p' -> (weight p' < weight p)%nat.
Proof.
  unfold parseReasignStatement. intros H.
  bind_inv H as u1 p1 E1.
  pose proof (consume_weight ASSIGN _ _ _ ltac:(discriminate) E1).
  destruct (parseExpression fuel LOWEST (var_Type old) (nextToken p1))
    as [newExp q | | | ] eqn:He; try discriminate.
  pose proof (parseExpression_weight _ _ _ _ _ _ He).
  pose proof (proj1 (nextToken_weight p1)).
  destruct (negb _); [discriminate |].
  apply Ok_inj in H as [_ <-].
  pose proof (proj1 (nextToken_weight q)). lia.
Qed.

Lemma parseReturnStatement_weight (fuel : nat) tt (p p' : Parser) stmt :
  tok_Type (curToken p) <> EOF ->
  parseReturnStatement fuel tt p = Ok stmt p' -> (weight p' < weight p)%nat.
Proof.
  unfold parseReturnStatement. intros Hcur H.
  bind_inv H as expression q He.
  pose proof (parseExpression_weight _ _ _ _ _ _ He).
  assert (weight (nextToken p) < weight p)%nat
    by (apply nextToken_weight; left; exact Hcur).
  destruct (negb _); [discriminate |].
  apply Ok_inj in H as [_ <-].
  pose proof (proj1 (nextToken_weight q)). lia.
Qed.

Lemma parseFnArgs_weight (fuel : nat) args args' (p p' : Parser) :
  parseFnArgs fuel args p = Ok args' p' -> (weight p' <= weight p)%nat.
Proof.
  revert args p. induction fuel as [ | fuel IH]; intros args p H;
    cbn [parseFnArgs] in H; [discriminate |].
  pose proof (proj1 (nextToken_weight p)).
  destruct (peekTokenIs RPAREN p).
  { apply Ok_inj in H as [_ <-]. lia. }
  bind_inv H as u1 p1 E1. bind_inv H as u2 p2 E2. bind_inv H as u3 p3 E3.
  pose proof (consume_weight IDENT _ _ _ ltac:(discriminate) E1).
  pose proof (consume_weight COLON _ _ _ ltac:(discriminate) E2).
  pose proof (consume_weight RAWTYPE _ _ _ ltac:(discriminate) E3).
  pose proof (proj1 (nextToken_weight p3)).
  destruct (getTypeFromLiteral _); [| discriminate].
  destruct (TokenType_eqb _ _).
  { apply Ok_inj in H as [_ <-]. lia. }
  bind_inv H as u4 p4 E4.
  pose proof (consume_weight COMMA _ _ _ ltac:(discriminate) E4).
  apply IH in H. lia.
Qed.

Lemma parseFnHead_weight (fuel : nat) (p p' : Parser) head :
  parseFnHead fuel p = Ok head p' -> (weight p' < weight p)%nat.
Proof.
  unfold parseFnHead, parseFnSignature. intros H.
  bind_inv H as sig p1 Hsig. bind_inv Hsig as u1 q1 E1.
  pose proof (consume_weight IDENT _ _ _ ltac:(discriminate) E1).
  destruct (match fns q1 !! _ with Some _ => _ | None => _ end);
    [discriminate |].
  bind_inv Hsig as u2 q2 E2.
  pose proof (consume_weight LPAREN _ _ _ ltac:(discriminate) E2).
  bind_inv Hsig as args q3 E3. apply parseFnArgs_weight in E3.
  apply Ok_inj in Hsig as [_ <-].
  destruct (reconcile _ _ _); [discriminate |].
  bind_inv H as ret p2 Hret.
  assert (weight p2 <= weight q3)%nat.
  { destruct (TokenType_eqb _ _).
    - bind_inv Hret as u3 p3 E4.
      pose proof (consume_weight RAWTYPE _ _ _ ltac:(discriminate) E4).
      pose proof (proj1 (nextToken_weight q3)).
      destruct (getTypeFromLiteral _); [| discriminate].
      apply Ok_inj in Hret as [_ <-]. lia.
    - apply Ok_inj in Hret as [_ <-]. lia. }
  bind_inv H as u5 p5 E5.
  pose proof (consume_weight LBRACE _ _ _ ltac:(discriminate) E5).
  apply Ok_inj in H as [_ <-]. lia.
Qed.

Lemma statement_weight (fuel : nat) :
  (forall tt p node p',
      parseStatement fuel tt p = Ok node p' -> (weight p' < weight p)%nat) /\
  (forall p stmt p',
      parseFnStatement fuel p = Ok stmt p' -> (weight p' < weight p)%nat) /\
  (forall tt body p body' p',
      parseFnBody fuel tt body p = Ok body' p' ->
      (weight p' <= weight p)%nat).
Proof.
  induction fuel as [ | fuel (IHs & IHf & IHb)].
  { refine (conj _ (conj _ _)); intros; discriminate. }
  refine (conj _ (conj _ _)).
  - intros tt p node p' H. cbn [parseStatement] in H.
    destruct (tok_Type (curToken p)) eqn:Hty; try discriminate.
    + bind_inv H as stmt q Hv. apply Ok_inj in H as [_ <-].
      exact (parseVarStatement_weight _ _ _ _ Hv).
    + destruct (vars p !! _) as [old | ].
      * bind_inv H as stmt q Hre. apply Ok_inj in H as [_ <-].
        exact (parseReasignStatement_weight _ _ _ _ _ Hre).
      * bind_inv H as u q1 Hc. bind_inv H as expr q2 Hcall.
        pose proof (consume_weight LPAREN _ _ _ ltac:(discriminate) Hc).
        pose proof (proj1 (nextToken_weight q1)).
        pose proof (proj1 (proj2 (proj2 (proj2 (proj2
                      (expression_weight fuel))))) _ _ _ _ _ Hcall).
        pose proof (proj1 (nextToken_weight q2)).
        destruct (negb _); [discriminate |].
        apply Ok_inj in H as [_ <-]. lia.
    + bind_inv H as stmt q Hf. apply Ok_inj in H as [_ <-].
      exact (IHf _ _ _ Hf).
    + bind_inv H as stmt q Hr. apply Ok_inj in H as [_ <-].
      apply (parseReturnStatement_weight _ _ _ _ _ ltac:(rewrite Hty; discriminate) Hr).
  - intros p stmt p' H. cbn [parseFnStatement] in H.
    bind_inv H as head p1 Hhead. bind_inv H as body p2 Hbody.
    pose proof (parseFnHead_weight _ _ _ _ Hhead).
    pose proof (proj1 (nextToken_weight p1)).
    pose proof (IHb _ _ _ _ _ Hbody).
    destruct (checkReturn _ _ _); [discriminate |].
    apply Ok_inj in H as [_ <-]. rewrite setFn_weight. lia.
  - intros tt body p body' p' H. cbn [parseFnBody] in H.
    destruct (TokenType_eqb (tok_Type (curToken p)) RBRACE).
    { apply Ok_inj in H as [_ <-]. lia. }
    pose proof (proj1 (nextToken_weight p)).
    destruct (TokenType_eqb (tok_Type (curToken p)) NEXTLINE).
    { pose proof (IHb _ _ _ _ _ H). lia. }
    bind_inv H as innerStmt q Hs.
    pose proof (IHs _ _ _ _ Hs). pose proof (proj1 (nextToken_weight q)).
    pose proof (IHb _ _ _ _ _ H). lia.
Qed.

(** ** Fuel *)

Lemma parseExpression_fuel fuel precedence tt (p : Parser) :
  (4 * weight p + 4 <= fuel)%nat ->
  parseExpression fuel precedence tt p <> OutOfFuel.
Proof. exact (proj1 (expression_fuel fuel) precedence tt p). Qed.

Lemma parseVarStatement_fuel (fuel : nat) (p : Parser) :
  (4 * weight p + 4 <= fuel)%nat -> parseVarStatement fuel p <> OutOfFuel.
Proof.
  intros Hf. unfold parseVarStatement.
  apply bind_fuel; [apply consume_fuel |]. intros u1 p1 E1.
  pose proof (consume_weight IDENT _ _ _ ltac:(discriminate) E1).
  apply bind_fuel.
  { destruct (TokenType_eqb _ _); [| discriminate].
    apply bind_fuel; [apply consume_fuel |]. intros u2 p2 E2.
    destruct (getTypeFromLiteral _); discriminate. }
  intros type p2 Ety.
  assert (weight p2 <= weight p1)%nat.
  { destruct (TokenType_eqb _ _).
    - bind_inv Ety as u2 p3 E3.
      pose proof (consume_weight RAWTYPE _ _ _ ltac:(discriminate) E3).
      pose proof (proj1 (nextToken_weight p1)).
      destruct (getTypeFromLiteral _); [| discriminate].
      apply Ok_inj in Ety as [_ <-]. lia.
    - apply Ok_inj in Ety as [_ <-]. lia. }
  apply bind_fuel; [apply consume_fuel |]. intros u3 p4 E4.
  pose proof (consume_weight ASSIGN _ _ _ ltac:(discriminate) E4).
  pose proof (proj1 (nextToken_weight p4)).
  apply bind_fuel; [apply parseExpression_fuel; lia |].
  intros expression p5 _. destruct (negb _); discriminate.
Qed.

Lemma parseReasignStatement_fuel (fuel : nat) old (p : Parser) :
  (4 * weight p + 4 <= fuel)%nat ->
  parseReasignStatement fuel old p <> OutOfFuel.
Proof.
  intros Hf. unfold parseReasignStatement.
  apply bind_fuel; [apply consume_fuel |]. intros u1 p1 E1.
  pose proof (consume_weight ASSIGN _ _ _ ltac:(discriminate) E1).
  pose proof (proj1 (nextToken_weight p1)).
  pose proof (parseExpression_fuel fuel LOWEST (var_Type old) (nextToken p1)
                ltac:(lia)) as He.
  destruct (parseExpression fuel LOWEST (var_Type old) (nextToken p1));
    [destruct (negb _); discriminate | discriminate | discriminate
    | contradiction].
Qed.

Lemma parseReturnStatement_fuel (fuel : nat) tt (p : Parser) :
  (4 * weight p + 4 <= fuel)%nat ->
  parseReturnStatement fuel tt p <> OutOfFuel.
Proof.
  intros Hf. unfold parseReturnStatement.
  pose proof (proj1 (nextToken_weight p)).
  apply bind_fuel; [apply parseExpression_fuel; lia |].
  intros expression q _. destruct (negb _); discriminate.
Qed.

Lemma parseFnArgs_fuel (fuel : nat) args (p : Parser) :
  (weight p + 1 <= fuel)%nat -> parseFnArgs fuel args p <> OutOfFuel.
Proof.
  revert args p. induction fuel as [ | fuel IH]; intros args p Hf; [lia |].
  cbn [parseFnArgs]. destruct (peekTokenIs RPAREN p); [discriminate |].
  apply bind_fuel; [apply consume_fuel |]. intros u1 p1 E1.
  apply bind_fuel; [apply consume_fuel |]. intros u2 p2 E2.
  apply bind_fuel; [apply consume_fuel |]. intros u3 p3 E3.
  pose proof (consume_weight IDENT _ _ _ ltac:(discriminate) E1).
  pose proof (consume_weight COLON _ _ _ ltac:(discriminate) E2).
  pose proof (consume_weight RAWTYPE _ _ _ ltac:(discriminate) E3).
  destruct (getTypeFromLiteral _); [| discriminate].
  destruct (TokenType_eqb _ _); [discriminate |].
  apply bind_fuel; [apply consume_fuel |]. intros u4 p4 E4.
  pose proof (consume_weight COMMA _ _ _ ltac:(discriminate) E4).
  apply IH. lia.
Qed.

Lemma parseFnHead_fuel (fuel : nat) (p : Parser) :
  (weight p + 1 <= fuel)%nat -> parseFnHead fuel p <> OutOfFuel.
Proof.
  intros Hf. unfold parseFnHead, parseFnSignature.
  apply bind_fuel.
  { apply bind_fuel; [apply consume_fuel |]. intros u1 q1 E1.
    pose proof (consume_weight IDENT _ _ _ ltac:(discriminate) E1).
    destruct (match fns q1 !! _ with Some _ => _ | None => _ end);
      [discriminate |].
    apply bind_fuel; [apply consume_fuel |]. intros u2 q2 E2.
    pose proof (consume_weight LPAREN _ _ _ ltac:(discriminate) E2).
    apply bind_fuel; [apply parseFnArgs_fuel; lia | discriminate]. }
  intros sig p1 _. destruct (reconcile _ _ _); [discriminate |].
  apply bind_fuel.
  { destruct (TokenType_eqb _ _); [| discriminate].
    apply bind_fuel; [apply consume_fuel |]. intros u3 p3 _.
    destruct (getTypeFromLiteral _); discriminate. }
  intros ret p2 _. apply bind_fuel; [apply consume_fuel | discriminate].
Qed.

Lemma statement_fuel (fuel : nat) :
  (forall tt p,
      (4 * weight p + 8 <= fuel)%nat ->
      parseStatement fuel tt p <> OutOfFuel) /\
  (forall p,
      (4 * weight p + 7 <= fuel)%nat ->
      parseFnStatement fuel p <> OutOfFuel) /\
  (forall tt body p,
      (4 * weight p + 9 <= fuel)%nat ->
      parseFnBody fuel tt body p <> OutOfFuel).
Proof.
  induction fuel as [ | fuel (IHs & IHf & IHb)].
  { refine (conj _ (conj _ _)); intros; lia. }
  pose proof (statement_weight fuel) as (Ws & Wf & Wb).
  refine (conj _ (conj _ _)).
  - intros tt p Hf. cbn [parseStatement].
    destruct (tok_Type (curToken p)) eqn:Hty; try discriminate.
    + apply bind_fuel; [apply parseVarStatement_fuel; lia | discriminate].
    + destruct (vars p !! _) as [old | ].
      * apply bind_fuel;
          [apply parseReasignStatement_fuel; lia | discriminate].
      * apply bind_fuel; [apply consume_fuel |]. intros u q1 Ec.
        pose proof (consume_weight LPAREN _ _ _ ltac:(discriminate) Ec).
        pose proof (proj1 (nextToken_weight q1)).
        apply bind_fuel.
        { apply (proj1 (proj2 (proj2 (proj2 (proj2
                   (expression_fuel fuel)))))). lia. }
        intros expr q2 _. destruct (negb _); discriminate.
    + apply bind_fuel; [apply IHf; lia | discriminate].
    + apply bind_fuel; [apply parseReturnStatement_fuel; lia | discriminate].
  - intros p Hf. cbn [parseFnStatement].
    apply bind_fuel; [apply parseFnHead_fuel; lia |]. intros head p1 Ehead.
    pose proof (parseFnHead_weight _ _ _ _ Ehead).
    pose proof (proj1 (nextToken_weight p1)).
    apply bind_fuel; [apply IHb; lia |]. intros body p2 _.
    destruct (checkReturn _ _ _); discriminate.
  - intros tt body p Hf. cbn [parseFnBody].
    destruct (TokenType_eqb (tok_Type (curToken p)) RBRACE); [discriminate |].
    destruct (TokenType_eqb (tok_Type (curToken p)) NEXTLINE) eqn:Hnl.
    + apply IHb.
      assert (weight (nextToken p) < weight p)%nat; [| lia].
      apply nextToken_weight. left. intros Heof. rewrite Heof in Hnl.
      discriminate.
    + apply bind_fuel; [apply IHs; lia |]. intros innerStmt q Es.
      pose proof (Ws _ _ _ _ Es). pose proof (proj1 (nextToken_weight q)).
      apply IHb. lia.
Qed.

Lemma parseProgramLoop_fuel (fuel : nat) stmts (p : Parser) :
  (4 * weight p + 9 <= fuel)%nat ->
  parseProgramLoop fuel stmts p <> OutOfFuel.
Proof.
  revert stmts p. induction fuel as [ | fuel IH]; intros stmts p Hf; [lia |].
  cbn [parseProgramLoop].
  destruct (TokenType_eqb (tok_Type (curToken p)) EOF); [discriminate |].
  destruct (TokenType_eqb (tok_Type (curToken p)) NEXTLINE) eqn:Hnl.
  - apply IH.
    assert (weight (nextToken p) < weight p)%nat; [| lia].
    apply nextToken_weight. left. intros Heof. rewrite Heof in Hnl.
    discriminate.
  - apply bind_fuel; [apply (proj1 (statement_fuel fuel)); lia |].
    intros stmt q Es.
    pose proof (proj1 (statement_weight fuel) _ _ _ _ Es).
    pose proof (proj1 (nextToken_weight q)).
    apply IH. lia.
Qed.

(** X17: [ParseProgram] returns: from any parser state, with fuel in
    proportion to the tokens that are left, it gives a program, an error or
    a panic.  Every loop of the parser advances over a token in each round,
    so none of them runs forever. *)
Theorem ParseProgram_finishes (p : Parser) (fuel : nat) :
  (4 * weight p + 9 <= fuel)%nat -> ParseProgram fuel p <> OutOfFuel.
Proof. apply parseProgramLoop_fuel. Qed.

(** ** From the source text *)

Lemma tokensFrom_length (fuel : nat) (l : Lexer) :
  (length (tokensFrom fuel l) <= fuel)%nat.
Proof.
  revert l. induction fuel as [ | fuel IH]; intros l; [reflexivity |].
  cbn [tokensFrom]. destruct (scan l) as [[tok | ] l1].
  - destruct (TokenType_eqb _ _); simpl; [lia |].
    specialize (IH l1). lia.
  - specialize (IH l1). lia.
Qed.

Lemma list_ascii_length (s : string) :
  length (list_ascii_of_string s) = String.length s.
Proof. induction s as [ | ch s IH]; simpl; [reflexivity | now rewrite IH]. Qed.

Lemma NewParser_weight (toks : list Token) :
  (weight (NewParser toks) <= 2 * length toks + 3)%nat.
Proof.
  unfold NewParser.
  set (p0 := mkParser toks zeroToken zeroToken ∅ ∅).
  pose proof (proj1 (nextToken_weight p0)).
  pose proof (proj1 (nextToken_weight (nextToken p0))).
  assert (weight p0 = 2 * (length toks + 1) + 1)%nat by reflexivity.
  lia.
Qed.

(** X18: lexing and parsing a source text returns, within a bound that is
    linear in the length of the text: the lexer yields at most one token per
    rune and the [EOF] token, and the parser advances over a token in each
    round of its loops. *)
Theorem parseSource_finishes (input : string) (fuel : nat) :
  (8 * String.length input + 29 <= fuel)%nat ->
  parseSource fuel input <> Unfinished.
Proof.
  intros Hf. unfold parseSource.
  set (toks := NextToken (NewLexer input)).
  assert (length toks <= S (String.length input))%nat as Hlen.
  { unfold toks, NextToken, NewLexer. cbn [r].
    rewrite <- list_ascii_length. apply tokensFrom_length. }
  pose proof (NewParser_weight toks).
  pose proof (parseProgramLoop_fuel fuel [] (NewParser toks) ltac:(lia)) as Hp.
  unfold ParseProgram.
  destruct (parseProgramLoop fuel [] (NewParser toks));
    [discriminate | discriminate | discriminate | contradiction].
Qed.

(** ** The positions of the tokens *)

Lemma position_app (line column : Z) (a b : list ascii) :
  position line column (a ++ b) =
  position (fst (position line column a)) (snd (position line column a)) b.
Proof.
  revert line column. induction a as [ | ch a IH]; intros line column;
    [reflexivity |].
  simpl. destruct (Ascii.eqb ch "010"); apply IH.
Qed.

Lemma position_line (line column : Z) (text : list ascii) :
  Forall (fun c => c <> "010"%char) text ->
  position line column text = (line, column + Z.of_nat (length text)).
Proof.
  intros H. revert column. induction H as [ | ch text Hch _ IH]; intros column.
  { simpl. f_equal. lia. }
  cbn [position]. destruct (Ascii.eqb_spec ch "010") as [-> | _];
    [contradiction |].
  rewrite IH. f_equal. simpl length. lia.
Qed.

(** [readWhile] with the position: the column advances by what was taken,
    and is one short when the loop was stopped by the end of the text. *)
Lemma readWhile_sync accept fuel buf (l : Lexer) :
  accept Ascii.zero = false ->
  exists pre,
    list_ascii_of_string (fst (readWhile accept fuel buf l)) =
      (list_ascii_of_string buf ++ pre)%list /\
    r l = (pre ++ r (snd (readWhile accept fuel buf l)))%list /\
    Forall (fun c => accept c = true) pre /\
    line (snd (readWhile accept fuel buf l)) = line l /\
    (r (snd (readWhile accept fuel buf l)) <> [] ->
     column (snd (readWhile accept fuel buf l)) =
       column l + Z.of_nat (length pre)) /\
    ((length (r l) < fuel)%nat ->
     r (snd (readWhile accept fuel buf l)) = [] ->
     column (snd (readWhile accept fuel buf l)) =
       column l + Z.of_nat (length pre) - 1).
Proof.
  intros Hzero. revert buf l.
  induction fuel as [ | fuel IH]; intros buf l; cbn [readWhile].
  { exists []. rewrite app_nil_r. cbn [fst snd length].
    refine (conj eq_refl (conj eq_refl (conj (Forall_nil_2 _)
              (conj eq_refl (conj _ _))))); intros; lia. }
  unfold read. destruct (r l) as [ | ch rest] eqn:Hr.
  { rewrite Hzero. exists []. rewrite app_nil_r. cbn [fst snd].
    unfold unread. cbn [r lastRune line column length].
    refine (conj eq_refl (conj eq_refl (conj (Forall_nil_2 _)
              (conj eq_refl (conj _ _))))); [congruence | intros; lia]. }
  destruct (accept ch) eqn:Ha.
  - destruct (IH (buf ++ String.String ch "")
                (mkLexer rest (Some ch) (line l) (column l + 1)))
      as (pre & Hbuf & Hrest & Hpre & Hline & Hcol & Hend).
    exists (ch :: pre). rewrite Hbuf, list_ascii_snoc, <- app_assoc.
    cbn [r line column] in *.
    refine (conj eq_refl (conj _ (conj _ (conj Hline (conj _ _))))).
    + simpl. f_equal. exact Hrest.
    + constructor; assumption.
    + intros Hne. rewrite (Hcol Hne). simpl length. lia.
    + intros Hf He. rewrite (Hend ltac:(simpl in Hf; lia) He).
      simpl length. lia.
  - exists []. rewrite app_nil_r. cbn [fst snd]. unfold unread.
    cbn [r lastRune line column length].
    refine (conj eq_refl (conj eq_refl (conj (Forall_nil_2 _)
              (conj eq_refl (conj _ _))))); [intros; lia | discriminate].
Qed.

Lemma readIdent_sync (l l1 : Lexer) (tok : Token) (ch : ascii)
    (rest : list ascii) :
  r l = ch :: rest -> isLetter ch = true -> readIdent l = (tok, l1) ->
  let lit := list_ascii_of_string (tok_Literal tok) in
  r l = (lit ++ r l1)%list /\
  Forall (fun c => isLetter c = true) lit /\
  line l1 = line l /\
  (r l1 <> [] -> column l1 = column l + Z.of_nat (length lit)) /\
  (r l1 = [] -> column l1 = column l + Z.of_nat (length lit) - 1).
Proof.
  intros Hr Hch. unfold readIdent, read. rewrite Hr.
  set (l0 := mkLexer rest _ _ _).
  destruct (readWhile_sync isLetter (S (length (r l0)))
              (String.String ch "") l0 eq_refl)
    as (pre & Hbuf & Hrest & Hpre & Hline & Hcol & Hend).
  destruct (readWhile isLetter _ _ l0) as [buf l2]. cbn [fst snd] in *.
  intros [= <- <-]. cbn [tok_Literal]. cbv zeta. rewrite Hbuf.
  subst l0. cbn [r line column] in *.
  refine (conj _ (conj _ (conj Hline (conj _ _)))).
  - simpl. f_equal. exact Hrest.
  - constructor; assumption.
  - intros Hne. rewrite (Hcol Hne). simpl length. lia.
  - intros He. rewrite (Hend ltac:(lia) He). simpl length. lia.
Qed.

Lemma readNumber_sync (l l1 : Lexer) (tok : Token) (ch : ascii)
    (rest : list ascii) :
  r l = ch :: rest -> isDigit ch = true -> readNumber l = (tok, l1) ->
  let lit := list_ascii_of_string (tok_Literal tok) in
  r l = (lit ++ r l1)%list /\
  Forall (fun c => isDigit c = true \/ c = "."%char) lit /\
  line l1 = line l /\
  (r l1 <> [] -> column l1 = column l + Z.of_nat (length lit)) /\
  (r l1 = [] ->
   column l1 = column l + Z.of_nat (length lit)
               - (if TokenType_eqb (tok_Type tok) INT then 2 else 1)).
Proof.
  intros Hr Hch. unfold readNumber, read at 1. rewrite Hr.
  set (l0 := mkLexer rest _ _ _).
  destruct (readWhile_sync isDigit (S (length (r l0)))
              (String.String ch "") l0 eq_refl)
    as (pre & Hbuf & Hrest & Hpre & Hline & Hcol & Hend).
  destruct (readWhile isDigit _ _ l0) as [buf l2]. cbn [fst snd] in *.
  subst l0. cbn [r line column] in *.
  assert (Hwhole : Forall (fun c => isDigit c = true \/ c = "."%char)
                          (ch :: pre)).
  { constructor; [left; exact Hch |].
    eapply Forall_impl; [exact Hpre |]. intros c Hc; left; exact Hc. }
  unfold peek, read at 1.
  destruct (r l2) as [ | pk rest2] eqn:Hr2.
  - (* the end of the text: [peek] gives 0, and both unread the column *)
    change (Ascii.eqb Ascii.zero ".") with false. cbn iota.
    intros [= <- <-]. cbn [tok_Literal tok_Type]. cbv zeta. rewrite Hbuf.
    unfold unread. cbn [r lastRune line column].
    change (TokenType_eqb INT INT) with true. cbn iota.
    refine (conj _ (conj Hwhole (conj Hline (conj _ _)))).
    + simpl. f_equal. exact Hrest.
    + intros Hne. exfalso. apply Hne. reflexivity.
    + intros _. rewrite (Hend ltac:(lia) eq_refl). simpl length. lia.
  - specialize (Hcol ltac:(discriminate)).
    destruct (Ascii.eqb_spec pk ".") as [-> | _].
    + unfold read at 1. unfold unread at 1. cbn [r lastRune line column].
      set (l4 := mkLexer rest2 _ _ _).
      destruct (readWhile_sync isDigit (S (length (r l4)))
                  (buf ++ String.String "."%char "") l4 eq_refl)
        as (frac & Hbuf2 & Hrest2 & Hfrac & Hline2 & Hcol2 & Hend2).
      destruct (readWhile isDigit _ _ l4) as [buf' l5]. cbn [fst snd] in *.
      subst l4. unfold unread in *. cbn [r line column] in *.
      intros [= <- <-]. cbn [tok_Literal tok_Type]. cbv zeta.
      change (TokenType_eqb FLOAT INT) with false. cbn iota.
      rewrite Hbuf2, list_ascii_snoc, Hbuf, <- !app_assoc.
      refine (conj _ (conj _ (conj _ (conj _ _)))).
      * rewrite Hrest, Hrest2. simpl. rewrite <- ?app_assoc. reflexivity.
      * change (Forall (fun c => isDigit c = true \/ c = "."%char)
                  ((ch :: pre) ++ "."%char :: frac)%list).
        apply Forall_app. split; [exact Hwhole |].
        constructor; [right; reflexivity |].
        eapply Forall_impl; [exact Hfrac |]. intros c Hc; left; exact Hc.
      * congruence.
      * intros Hne. rewrite (Hcol2 Hne), Hcol.
        simpl. rewrite !length_app. simpl length. lia.
      * intros He. rewrite (Hend2 ltac:(lia) He), Hcol.
        simpl. rewrite !length_app. simpl length. lia.
    + intros [= <- <-]. cbn [tok_Literal tok_Type]. cbv zeta. rewrite Hbuf.
      unfold unread. cbn [r lastRune line column].
      refine (conj _ (conj Hwhole (conj Hline (conj _ _)))).
      * simpl. f_equal. exact Hrest.
      * intros _. rewrite Hcol. simpl length. lia.
      * discriminate.
Qed.

Lemma letter_not_newline (ch : ascii) :
  isLetter ch = true -> ch <> "010"%char.
Proof. intros H ->. discriminate. Qed.

Lemma number_not_newline (ch : ascii) :
  isDigit ch = true \/ ch = "."%char -> ch <> "010"%char.
Proof. intros [H | H] ->; discriminate. Qed.

Lemma whitespace_not_alnum (ch : ascii) :
  isWhitespace ch = true -> isLetter ch = false /\ isDigit ch = false.
Proof.
  destruct ch as [[] [] [] [] [] [] [] []]; vm_compute; intros H;
    first [discriminate | split; reflexivity].
Qed.

Lemma position_one (line column : Z) (ch : ascii) :
  ch <> "010"%char -> position line column [ch] = (line, column + 1).
Proof.
  intros H. simpl. destruct (Ascii.eqb_spec ch "010"); [contradiction |].
  reflexivity.
Qed.

(** One round of the lexer, with the positions: unless it stops, it takes a
    piece of the text, its position moves over the piece (as long as text is
    left), and the token has the position at which the round began, but for
    the shortfall at the end of the text. *)
Lemma scan_sync (l l' : Lexer) (ot : option Token) :
  scan l = (ot, l') ->
  (ot = Some (mkToken EOF "" 0 0) /\ beforeNul (r l) = []) \/
  exists pre,
    r l = (pre ++ r l')%list /\
    (length (r l') < length (r l))%nat /\
    (r l' <> [] -> (line l', column l') = position (line l) (column l) pre) /\
    (forall tok, ot = Some tok ->
       tok_Type tok <> EOF /\
       match tok_Type tok with
       | ILLEGAL => tok_Line tok = 0 /\ tok_Column tok = 0
       | NEXTLINE =>
           list_ascii_of_string (tok_Literal tok) = pre /\
           tok_Line tok = line l /\ tok_Column tok = column l + 1
       | t =>
           list_ascii_of_string (tok_Literal tok) = pre /\
           tok_Line tok = line l /\
           tok_Column tok =
             column l - match r l' with [] => shortfall t | _ => 0 end
       end) /\
    ((exists tok, ot = Some tok /\ 0 < shortfall (tok_Type tok)) \/
     (exists ch, pre = [ch] /\ isLetter ch = false /\ isDigit ch = false)).
Proof.
  unfold scan, read. destruct (r l) as [ | ch rest] eqn:Hr.
  { lazy. intros [= <- <-]. left. split; reflexivity. }
  set (l0 := mkLexer rest (Some ch) (line l) (column l + 1)).
  cbv zeta.
  destruct (Ascii.eqb_spec ch "010") as [-> | Hnl].
  { intros [= <- <-]. right. exists ["010"%char]. cbn [r line column].
    refine (conj eq_refl (conj _ (conj _ (conj _ _)))).
    - simpl. lia.
    - intros _. reflexivity.
    - intros tok [= <-]. split; [discriminate |]. repeat split.
    - right. exists "010"%char. repeat split. }
  destruct (isWhitespace ch) eqn:Hws.
  { intros [= <- <-]. right. exists [ch]. cbn [r line column].
    refine (conj eq_refl (conj _ (conj _ (conj _ _)))).
    - simpl. lia.
    - intros _. symmetry. apply position_one. exact Hnl.
    - discriminate.
    - right. exists ch. split; [reflexivity |].
      apply whitespace_not_alnum. exact Hws. }
  destruct (isLetter ch) eqn:Hlet.
  { destruct (readIdent (unread l0)) as [tok l1] eqn:Hid.
    pose proof (readIdent_spec (unread l0) _ _ ch rest eq_refl Hlet Hid)
      as (Hty & _ & Hlen).
    apply (readIdent_sync _ _ _ ch rest) in Hid
      as (Hrest & Hall & Hline & Hcol & Hend); [| reflexivity | exact Hlet].
    unfold unread in Hrest, Hline, Hcol, Hend.
    cbn [r line column lastRune l0] in Hrest, Hline, Hcol, Hend.
    intros [= <- <-]. right.
    exists (list_ascii_of_string (tok_Literal tok)).
    refine (conj Hrest (conj _ (conj _ (conj _ _)))).
    - simpl. lia.
    - intros Hne. rewrite position_line.
      + rewrite Hline, (Hcol Hne). f_equal. lia.
      + eapply Forall_impl; [exact Hall |]. apply letter_not_newline.
    - intros tok' [= <-]. cbn [tok_Type tok_Literal tok_Line tok_Column].
      unfold len. rewrite <- list_ascii_length.
      assert (Hcolumn : column l1 -
                Z.of_nat (length (list_ascii_of_string (tok_Literal tok))) =
                column l - match r l1 with [] => 1 | _ => 0 end).
      { destruct (r l1) eqn:Hr1; [rewrite (Hend eq_refl) | rewrite Hcol by discriminate]; lia. }
      destruct (Keywords (tok_Literal tok)) as [kw | ] eqn:Hkw.
      + destruct (Keywords_Some _ _ Hkw) as [-> | [-> | [-> | [-> | [-> | ->]]]]];
          (split; [discriminate |]);
          refine (conj eq_refl (conj Hline _)); exact Hcolumn.
      + rewrite Hty. split; [discriminate |].
        refine (conj eq_refl (conj Hline _)); exact Hcolumn.
    - left. eexists. split; [reflexivity |]. cbn [tok_Type].
      destruct (Keywords (tok_Literal tok)) as [kw | ] eqn:Hkw.
      + destruct (Keywords_Some _ _ Hkw) as [-> | [-> | [-> | [-> | [-> | ->]]]]];
          reflexivity.
      + rewrite Hty. reflexivity. }
  destruct (isDigit ch) eqn:Hdig.
  { destruct (readNumber (unread l0)) as [tok l1] eqn:Hnum.
    pose proof (readNumber_spec (unread l0) _ _ ch rest eq_refl Hdig Hnum)
      as (Hty & _ & Hlen).
    apply (readNumber_sync _ _ _ ch rest) in Hnum
      as (Hrest & Hall & Hline & Hcol & Hend); [| reflexivity | exact Hdig].
    unfold unread in Hrest, Hline, Hcol, Hend.
    cbn [r line column lastRune l0] in Hrest, Hline, Hcol, Hend.
    intros [= <- <-]. right.
    exists (list_ascii_of_string (tok_Literal tok)).
    refine (conj Hrest (conj _ (conj _ (conj _ _)))).
    - simpl. lia.
    - intros Hne. rewrite position_line.
      + rewrite Hline, (Hcol Hne). f_equal. lia.
      + eapply Forall_impl; [exact Hall |]. apply number_not_newline.
    - intros tok' [= <-]. cbn [tok_Type tok_Literal tok_Line tok_Column].
      unfold len. rewrite <- list_ascii_length.
      destruct Hty as [Hty | Hty]; rewrite Hty in *;
        (split; [discriminate |]);
        refine (conj eq_refl (conj Hline _));
        (destruct (r l1) eqn:Hr1;
         [ rewrite (Hend eq_refl) | rewrite Hcol by discriminate ]);
        cbn [shortfall];
        try change (TokenType_eqb INT INT) with true;
        try change (TokenType_eqb FLOAT INT) with false; cbn iota; lia.
    - left. eexists. split; [reflexivity |]. cbn [tok_Type].
      destruct Hty as [-> | ->]; reflexivity. }
  repeat match goal with
    | |- context [Ascii.eqb ch ?c] =>
        destruct (Ascii.eqb_spec ch c) as [-> | ?];
        [ intros [= <- <-];
          first [ left; split; reflexivity
                | right; eexists [_]; cbn [r line column l0];
                  refine (conj eq_refl (conj _ (conj _ (conj _ _))));
                  [ simpl; lia
                  | intros _; reflexivity
                  | intros tok [= <-]; split; [discriminate |];
                    cbn [tok_Type tok_Literal tok_Line tok_Column shortfall];
                    refine (conj eq_refl (conj eq_refl _));
                    destruct rest; lia
                  | right; eexists; repeat split ] ] | ]
    end.
  intros [= <- <-]. right. exists [ch]. cbn [r line column l0].
  refine (conj eq_refl (conj _ (conj _ (conj _ _)))).
  - simpl. lia.
  - intros _. symmetry. apply position_one. exact Hnl.
  - intros tok [= <-]. split; [discriminate |]. split; reflexivity.
  - right. exists ch. repeat split; assumption.
Qed.

Lemma tokensFrom_empty (fuel : nat) (l : Lexer) :
  r l = [] -> tokensFrom (S fuel) l = [mkToken EOF "" 0 0].
Proof.
  intros Hr. cbn [tokensFrom]. unfold scan, read. rewrite Hr. reflexivity.
Qed.

Lemma position_sync (l l1 : Lexer) (consumed pre : list ascii) :
  (line l, column l) = position 1 0 consumed ->
  (line l1, column l1) = position (line l) (column l) pre ->
  (line l1, column l1) = position 1 0 (consumed ++ pre).
Proof.
  intros H H1. rewrite position_app, <- H. exact H1.
Qed.

(** Every token with at least two tokens after it is located. *)
Lemma tokensFrom_located (fuel : nat) (l : Lexer)
    (text consumed : list ascii) :
  text = (consumed ++ r l)%list ->
  (line l, column l) = position 1 0 consumed ->
  (length (r l) < fuel)%nat ->
  forall i tok,
    tokensFrom fuel l !! i = Some tok ->
    (i + 2 < length (tokensFrom fuel l))%nat ->
    located text tok.
Proof.
  revert l consumed. induction fuel as [ | fuel IH];
    intros l consumed Htext Hpos Hfuel i tok Hi Hlen; [lia |].
  cbn [tokensFrom] in Hi, Hlen. destruct (scan l) as [ot l1] eqn:Hscan.
  destruct (scan_sync _ _ _ Hscan)
    as [[-> _] | (pre & Hr & Hless & Hmove & Htok & _)].
  { change (TokenType_eqb (tok_Type (mkToken EOF "" 0 0)) EOF) with true
      in Hlen. simpl in Hlen. lia. }
  destruct (r l1) as [ | c1 rest1] eqn:Hr1.
  { (* the round took the rest of the text: one more token at most *)
    destruct fuel as [ | fuel]; [simpl in *; lia |].
    rewrite (tokensFrom_empty fuel l1 Hr1) in Hlen.
    destruct ot as [tok0 | ]; [destruct (TokenType_eqb _ _) |];
      simpl in Hlen; lia. }
  assert (Hne : r l1 <> []) by (rewrite Hr1; discriminate).
  assert (Htext1 : text = ((consumed ++ pre) ++ r l1)%list).
  { rewrite Htext, Hr, Hr1, app_assoc. reflexivity. }
  assert (Hpos1 : (line l1, column l1) = position 1 0 (consumed ++ pre)).
  { apply (position_sync l); [exact Hpos |]. apply Hmove.
    discriminate. }
  assert (Hfuel1 : (length (r l1) < fuel)%nat) by (rewrite Hr1 in *; lia).
  destruct ot as [tok0 | ].
  2:{ exact (IH l1 _ Htext1 Hpos1 Hfuel1 i tok Hi Hlen). }
  destruct (Htok tok0 eq_refl) as [Hty Hplace].
  assert (E : TokenType_eqb (tok_Type tok0) EOF = false)
    by (apply bool_decide_eq_false; exact Hty).
  rewrite E in Hi, Hlen.
  destruct i as [ | i].
  2:{ apply (IH l1 _ Htext1 Hpos1 Hfuel1 i tok Hi). simpl in Hlen. lia. }
  injection Hi as <-. unfold located.
  destruct (tok_Type tok0) eqn:Hkind; try exact Hplace;
    try contradiction;
    destruct Hplace as (Hlit & Hline & Hcol);
    exists consumed, (c1 :: rest1); rewrite Hlit;
    (split; [rewrite Htext, Hr; reflexivity |]);
    rewrite <- Hpos, Hline, Hcol; f_equal; lia.
Qed.

(** X23: every token of an ASCII source text, but for the last two, is
    located: its line and column are those of an occurrence of its literal
    in the text, lines counted from 1 and columns from 0.  A [NEXTLINE]
    token has the column after the newline, and an [ILLEGAL] token has line
    and column 0. *)
Theorem tokens_are_located (input : string) :
  isASCII input ->
  Forall (located (list_ascii_of_string input))
         (take (length (NextToken (NewLexer input)) - 2)
               (NextToken (NewLexer input))).
Proof.
  intros _. apply Forall_lookup_2. intros i tok Hi.
  apply lookup_take_Some in Hi as [Hi Hlt].
  unfold NextToken in *.
  apply (tokensFrom_located (S (length (r (NewLexer input))))
           (NewLexer input) _ [] eq_refl eq_refl (Nat.lt_succ_diag_r _)
           i tok Hi).
  lia.
Qed.

Lemma beforeNul_nil (text : list ascii) :
  Forall (fun c => c <> Ascii.zero) text -> beforeNul text = [] -> text = [].
Proof.
  intros H. destruct H as [ | c text Hc _]; [reflexivity |].
  simpl. destruct (Ascii.eqb_spec c Ascii.zero); [contradiction | discriminate].
Qed.

Lemma last_app_cons {A : Type} (a : list A) (b : list A) (x : A) :
  last (a ++ x :: b) = last (x :: b).
Proof.
  induction a as [ | y a IH]; [reflexivity |].
  change ((y :: a) ++ x :: b)%list with (y :: (a ++ x :: b))%list.
  rewrite <- IH. destruct (a ++ x :: b)%list eqn:E; [| reflexivity].
  destruct a; discriminate.
Qed.

(** When the text ends with a letter or a digit, the last token before [EOF]
    is the word or the number that ends the text, and its column falls
    short. *)
Lemma tokensFrom_short (fuel : nat) (l : Lexer) (text consumed : list ascii)
    (c : ascii) :
  text = (consumed ++ r l)%list ->
  (line l, column l) = position 1 0 consumed ->
  (length (r l) < fuel)%nat ->
  Forall (fun c => c <> Ascii.zero) (r l) ->
  last (r l) = Some c -> isLetter c || isDigit c = true ->
  exists toks tok pre,
    tokensFrom fuel l = (toks ++ [tok; mkToken EOF "" 0 0])%list /\
    text = (pre ++ list_ascii_of_string (tok_Literal tok))%list /\
    0 < shortfall (tok_Type tok) /\
    tok_Line tok = fst (position 1 0 pre) /\
    tok_Column tok = snd (position 1 0 pre) - shortfall (tok_Type tok).
Proof.
  revert l consumed. induction fuel as [ | fuel IH];
    intros l consumed Htext Hpos Hfuel Hnul Hlast Hc; [lia |].
  cbn [tokensFrom]. destruct (scan l) as [ot l1] eqn:Hscan.
  destruct (scan_sync _ _ _ Hscan)
    as [[_ Hstop] | (pre & Hr & Hless & Hmove & Htok & Hkind)].
  { rewrite (beforeNul_nil _ Hnul Hstop) in Hlast. discriminate. }
  destruct (r l1) as [ | c1 rest1] eqn:Hr1.
  - (* the round took the rest of the text *)
    rewrite app_nil_r in Hr.
    destruct Hkind as [(tok & -> & Hshort) | (ch & -> & Hl & Hd)].
    2:{ rewrite Hr in Hlast. injection Hlast as <-.
        rewrite Hl, Hd in Hc. discriminate. }
    destruct (Htok tok eq_refl) as [Hty Hplace].
    assert (E : TokenType_eqb (tok_Type tok) EOF = false)
      by (apply bool_decide_eq_false; exact Hty).
    rewrite E.
    destruct fuel as [ | fuel]; [simpl in *; lia |].
    rewrite (tokensFrom_empty fuel l1 Hr1).
    exists [], tok, consumed. rewrite <- Hpos. cbn [fst snd].
    destruct (tok_Type tok) eqn:Hkind; try (simpl in Hshort; lia);
      destruct Hplace as (Hlit & Hline & Hcol);
      (split; [reflexivity |]); (split; [rewrite Htext, Hr, Hlit; reflexivity |]);
      (split; [exact Hshort |]); (split; [exact Hline | exact Hcol]).
  - assert (Hne : r l1 <> []) by (rewrite Hr1; discriminate).
    assert (Htext1 : text = ((consumed ++ pre) ++ r l1)%list).
    { rewrite Htext, Hr, Hr1, app_assoc. reflexivity. }
    assert (Hpos1 : (line l1, column l1) = position 1 0 (consumed ++ pre)).
    { apply (position_sync l); [exact Hpos |]. apply Hmove. discriminate. }
    assert (Hfuel1 : (length (r l1) < fuel)%nat) by (rewrite Hr1 in *; lia).
    assert (Hnul1 : Forall (fun c => c <> Ascii.zero) (r l1)).
    { rewrite Hr in Hnul. apply Forall_app in Hnul as [_ Hnul].
      rewrite Hr1. exact Hnul. }
    assert (Hlast1 : last (r l1) = Some c).
    { rewrite Hr, last_app_cons in Hlast. rewrite Hr1. exact Hlast. }
    destruct (IH l1 _ Htext1 Hpos1 Hfuel1 Hnul1 Hlast1 Hc)
      as (toks & tok & pre' & Heq & Hrest).
    destruct ot as [tok0 | ].
    + destruct (Htok tok0 eq_refl) as [Hty _].
      assert (E : TokenType_eqb (tok_Type tok0) EOF = false)
        by (apply bool_decide_eq_false; exact Hty).
      rewrite E, Heq. exists (tok0 :: toks), tok, pre'.
      split; [reflexivity | exact Hrest].
    + rewrite Heq. exists toks, tok, pre'. split; [reflexivity | exact Hrest].
Qed.

(** X24: when an ASCII text without NUL ends with a letter or a digit, the
    token before [EOF] is the word or the number that ends the text, on the
    right line, and its column is too small: by 1 for an identifier, a
    keyword or a float, by 2 for an integer. *)
Theorem last_token_falls_short (input : string) (c : ascii) :
  isASCII input ->
  Forall (fun c => c <> Ascii.zero) (list_ascii_of_string input) ->
  last (list_ascii_of_string input) = Some c ->
  isLetter c || isDigit c = true ->
  exists toks tok pre,
    NextToken (NewLexer input) = (toks ++ [tok; mkToken EOF "" 0 0])%list /\
    list_ascii_of_string input =
      (pre ++ list_ascii_of_string (tok_Literal tok))%list /\
    0 < shortfall (tok_Type tok) /\
    tok_Line tok = fst (position 1 0 pre) /\
    tok_Column tok = snd (position 1 0 pre) - shortfall (tok_Type tok).
Proof.
  intros _ Hnul Hlast Hc. unfold NextToken.
  apply (tokensFrom_short _ (NewLexer input) _ [] c eq_refl eq_refl
           (Nat.lt_succ_diag_r _) Hnul Hlast Hc).
Qed.

(* ===================================================================== *)
(** * Instances of the further properties *)
(* ===================================================================== *)

Import examples.

Lemma parseExpression_verified_witness :
  Verify Int32 (IntegerLiteral 1) = None \/
  (IntegerLiteral 1 = NilExpression /\ atLiteral = atLiteral /\
   beginsExpression (tok_Type (curToken atLiteral)) = false).
Proof.
  apply (parseExpression_verified 2 LOWEST Int32 (IntegerLiteral 1)
           atLiteral atLiteral).
  - unfold LOWEST. lia.
  - vm_compute. reflexivity.
Defined.

Lemma expression_has_no_call_witness :
  callFree (IntegerLiteral 1) /\ vars atLiteral = vars atLiteral /\
  fns atLiteral = fns atLiteral.
Proof.
  apply (expression_has_no_call 2 LOWEST Int32 (IntegerLiteral 1)
           atLiteral atLiteral).
  vm_compute. reflexivity.
Defined.

Lemma var_declaration_registers_witness :
  var_Name xInt = tok_Literal (peekToken atVar) /\
  (tok_Type (peekToken (nextToken atVar)) <> COLON -> var_Type xInt = Void) /\
  (tok_Type (peekToken (nextToken atVar)) = COLON ->
   tok_Type (peekToken (nextToken (nextToken atVar))) = RAWTYPE /\
   getTypeFromLiteral (tok_Literal (peekToken (nextToken (nextToken atVar)))) =
     Some (var_Type xInt) /\
   ((tok_Literal (peekToken (nextToken (nextToken atVar))) = "int32" /\
     var_Type xInt = Int32) \/
    (tok_Literal (peekToken (nextToken (nextToken atVar))) = "string" /\
     var_Type xInt = String))) /\
  (var_Type xInt = Void \/ declarable (var_Type xInt)) /\
  soundValue (var_Type xInt) (var_Value xInt) /\
  vars afterVar = <[var_Name xInt := xInt]> (vars atVar) /\
  (forall name fnStmt,
      fns atVar !! name = Some fnStmt -> fns afterVar !! name = Some fnStmt).
Proof.
  apply (var_declaration_registers 3 atVar afterVar xInt).
  vm_compute. reflexivity.
Defined.

Lemma bound_identifier_resolves_witness :
  parseExpression 2 LOWEST Int32 atUse = Ok (Identifier "x" Int32) atUse.
Proof.
  refine (proj1 (bound_identifier_resolves 0 LOWEST Int32 atUse xInt
                   _ _ _ _) _).
  - reflexivity.
  - vm_compute. reflexivity.
  - reflexivity.
  - unfold LOWEST. lia.
  - right. split; [reflexivity | left; reflexivity].
Defined.

Lemma bound_name_starts_reassignment_witness :
  exists value,
    ReassignVarStatementNode
      (mkReassignVarStatement "x" Int32 (IntegerLiteral 2)) =
    ReassignVarStatementNode
      (mkReassignVarStatement (var_Name xInt) (var_Type xInt) value) /\
    soundValue (var_Type xInt) value /\
    tok_Type (peekToken atReassign) = ASSIGN /\
    vars afterReassign = vars atReassign.
Proof.
  refine (bound_name_starts_reassignment 4 Void atReassign afterReassign
            xInt _ _ _ _).
  - reflexivity.
  - vm_compute. reflexivity.
  - vm_compute. reflexivity.
Defined.

(** [f(1)] for a function of two arguments: accepted, the second parameter
    is nil. *)
Lemma known_call_is_checked_witness :
  exists params,
    FnCall "f" [IntegerLiteral 1; NilExpression] = FnCall "f" params /\
    ((tok_Type (curToken atCall) = RPAREN /\ params = []) \/
     (tok_Type (curToken atCall) <> RPAREN /\
      length params = length (Args fTwo) /\
      Forall2 (fun a e => soundValue (arg_Type a) e) (Args fTwo) params)) /\
    fns afterCall !! "f" = Some fTwo.
Proof.
  refine (known_call_is_checked 4 "f" Void atCall afterCall fTwo _ _ _).
  - vm_compute. reflexivity.
  - vm_compute. reflexivity.
Defined.

Lemma parsed_program_is_sound_witness :
  Forall (sound Void)
         [VarStatementNode (mkVarStatement "x" (IntegerLiteral 1) Void)].
Proof.
  apply (parsed_program_is_sound 20
           (NewParser (NextToken (NewLexer "var x = 1;")))
           (mkProgram
              [VarStatementNode (mkVarStatement "x" (IntegerLiteral 1) Void)])).
  vm_compute. reflexivity.
Defined.

Lemma advancing_stops_at_EOF_witness :
  Nat.iter 3 nextToken (Nat.iter 0 nextToken (NewParser [eof])) =
    Nat.iter 0 nextToken (NewParser [eof]).
Proof.
  apply (advancing_stops_at_EOF [eof] 0 3). reflexivity.
Defined.

Lemma generateExpression_reads_own_locals_witness :
  llvm.generateExpression
    (llvm.mkIRGenerator (<["x" := llvm.Alloca "x"]> ∅) ∅)
    (Identifier "x" Int32) "main" =
  llvm.generateExpression (llvm.mkIRGenerator ∅ ∅) (Identifier "x" Int32)
    "main".
Proof.
  apply (generateExpression_reads_own_locals
           (llvm.mkIRGenerator (<["x" := llvm.Alloca "x"]> ∅) ∅)
           (llvm.mkIRGenerator ∅ ∅) (Identifier "x" Int32) "main").
  reflexivity.
Defined.

Lemma ParseProgram_finishes_witness :
  (4 * weight atVar + 9 <= 100)%nat /\ ParseProgram 100 atVar <> OutOfFuel.
Proof.
  assert (4 * weight atVar + 9 <= 100)%nat as H by (vm_compute; lia).
  exact (conj H (ParseProgram_finishes atVar 100 H)).
Defined.

Lemma parseSource_finishes_witness :
  (8 * String.length "var x = 1;" + 29 <= 120)%nat /\
  parseSource 120 "var x = 1;" <> Unfinished.
Proof.
  assert (8 * String.length "var x = 1;" + 29 <= 120)%nat as H
    by (vm_compute; lia).
  exact (conj H (parseSource_finishes "var x = 1;" 120 H)).
Defined.

Lemma parsed_expression_lowers_witness :
  is_Some (llvm.generateExpression llvm.NewIRGenerator (IntegerLiteral 1)
             "main") <->
  llvm.complete (IntegerLiteral 1) = true.
Proof.
  apply (parsed_expression_lowers 2 LOWEST Int32 (IntegerLiteral 1)
           atLiteral atLiteral llvm.NewIRGenerator "main").
  - refine (conj I (conj I _)). repeat constructor.
  - vm_compute. reflexivity.
Defined.

Lemma parsed_program_generates_witness :
  is_Some (llvm.GenerateIR asDeclaration llvm.NewIRGenerator
             (mkProgram [VarStatementNode xInt])) <->
  forallb (llvm.compiles "") [VarStatementNode xInt] = true.
Proof.
  apply (parsed_program_generates asDeclaration (fun stmt => eq_refl) 10 atVar
           (mkProgram [VarStatementNode xInt]) llvm.NewIRGenerator).
  - refine (conj I (conj I _)). repeat constructor.
  - vm_compute. reflexivity.
Defined.

Lemma NextToken_classified_witness :
  Forall classified (NextToken (NewLexer "var x = 1;")).
Proof. apply (NextToken_classified "var x = 1;"). reflexivity. Defined.

Lemma NextToken_keeps_the_text_witness :
  literals (NextToken (NewLexer "var x = 1;")) =
  List.filter kept (beforeNul (list_ascii_of_string "var x = 1;")).
Proof. apply (NextToken_keeps_the_text "var x = 1;"). reflexivity. Defined.

Lemma tokens_are_located_witness :
  Forall (located (list_ascii_of_string "var x = 1;"))
         (take (length (NextToken (NewLexer "var x = 1;")) - 2)
               (NextToken (NewLexer "var x = 1;"))).
Proof. apply (tokens_are_located "var x = 1;"). reflexivity. Defined.

Lemma last_token_falls_short_witness :
  exists toks tok pre,
    NextToken (NewLexer "ab") = (toks ++ [tok; mkToken EOF "" 0 0])%list /\
    list_ascii_of_string "ab" =
      (pre ++ list_ascii_of_string (tok_Literal tok))%list /\
    0 < shortfall (tok_Type tok) /\
    tok_Line tok = fst (position 1 0 pre) /\
    tok_Column tok = snd (position 1 0 pre) - shortfall (tok_Type tok).
Proof.
  apply (last_token_falls_short "ab" "b"%char).
  - reflexivity.
  - repeat constructor; discriminate.
  - reflexivity.
  - reflexivity.
Defined.

Lemma call_arguments_after_the_first_are_nil_witness :
  exists fnName params,
    FnCall "f" [IntegerLiteral 1; NilExpression] = FnCall fnName params /\
    Forall (fun e => e = NilExpression) (drop 1 params).
Proof.
  refine (call_arguments_after_the_first_are_nil 4 (UnboundedIdentifier "f")
            Void atCall afterCall _ _).
  vm_compute. reflexivity.
Defined.

Lemma declarations_are_global_witness :
  (forall name, bound name atVar -> bound name (nextToken afterVar)) /\
  Forall (fun name => bound name (nextToken afterVar))
         (flat_map declares [VarStatementNode xInt]).
Proof.
  refine (declarations_are_global 10 atVar (nextToken afterVar)
            (mkProgram [VarStatementNode xInt]) _).
  vm_compute. reflexivity.
Defined.

Lemma verified_expression_is_complete_witness :
  llvm.complete (StringLiteral "a") = true /\ callFree (StringLiteral "a") /\
  (String = String -> forall gen fnName,
      is_Some (llvm.generateExpression gen (StringLiteral "a") fnName)).
Proof.
  apply (verified_expression_is_complete String (StringLiteral "a")).
  - right. reflexivity.
  - reflexivity.
Defined.

Lemma return_type_error_is_never_reported_witness :
  isReturnTypeError (ErrParser 1 8 (errUnexpectedToken "1")) = false.
Proof.
  apply (return_type_error_is_never_reported 10 atLiteral).
  vm_compute. reflexivity.
Defined.

Lemma parser_panics_only_by_nil_dereference_witness :
  parseSource 20 "var y = x;" = Crashed nilDereference /\
  nilDereference = nilDereference.
Proof.
  assert (H : parseSource 20 "var y = x;" = Crashed nilDereference)
    by (vm_compute; reflexivity).
  exact (conj H (proj2 (parser_panics_only_by_nil_dereference 20
                          nilDereference) "var y = x;" H)).
Defined.
